(** * Block-parallel Triton kernels of the tutorial notebooks

    A shallow embedding of the four notebooks of the repository:
    - [02_vector_addition]: [add] and [add_kernel];
    - [03_small_matrix_multiplication]: the row-times-column [matmul];
    - [04_softmax_fwd_bwd]: [softmax_fwd_kernel] and [softmax_bwd_kernel];
    - [05_block_matmul]: the tiled [matmul] with its K loop.

    A kernel is a function from the buffers and the program id of one grid
    cell to the new contents of the output buffer; a launch folds the kernel
    over the cells of the grid.  Buffers are flat lists addressed by offset,
    exactly as the kernels address them through pointer arithmetic.

    Numbers.  The kernels are generic in the element type: the matrix and
    vector kernels are written over a type with a zero, an addition and a
    multiplication ([Arith]); what the notebooks call exact arithmetic is the
    class [ExactArith].  The softmax kernels need exponentials, a maximum and
    the fill value minus infinity and are written over the real numbers
    extended with the two infinities and a not-a-number ([xreal]); rounding
    is not modelled.

    Errors.  A host function returns an [outcome].  Triton compiles a kernel
    before it launches it, and a [tl.arange] over an empty range fails the
    compilation: the hosts that take the block size from the number of
    columns raise on an input without columns ([jit_launch]). *)

From Stdlib Require Import ZArith Reals Lra Lia.
From stdpp Require Import base list.

(* ================================================================== *)
(** * Element types, tensors and device memory *)

(** The two precisions the notebooks name. *)
Inductive dtype := float16 | float32.

(** [torch.zeros] and [torch.empty] are called without a [dtype]: they
    allocate in torch's default precision. *)
Definition torch_default_dtype : dtype := float32.

(** Arithmetic of a tensor's elements; [tcast d] is [.to(d)]. *)
Class Arith (T : Type) := {
  tzero : T;
  tadd : T → T → T;
  tmul : T → T → T;
  tcast : dtype → T → T
}.

(** Exact arithmetic: the laws of [+], [*] and [0] that rounding breaks. *)
Class ExactArith (T : Type) `{Arith T} : Prop := {
  tadd_assoc : ∀ a b c : T, tadd a (tadd b c) = tadd (tadd a b) c;
  tadd_0_l : ∀ a : T, tadd tzero a = a;
  tadd_0_r : ∀ a : T, tadd a tzero = a;
  tmul_0_l : ∀ a : T, tmul tzero a = tzero;
  tmul_0_r : ∀ a : T, tmul a tzero = tzero
}.

(** A contiguous row-major 2-D tensor: [X.shape] and the flat storage. *)
Record tensor (T : Type) := Tensor {
  t_dtype : dtype;
  t_rows : nat;
  t_cols : nat;
  t_data : list T
}.
Arguments Tensor {T} _ _ _ _.
Arguments t_dtype {T} _.
Arguments t_rows {T} _.
Arguments t_cols {T} _.
Arguments t_data {T} _.

Definition well_formed {T} (t : tensor T) : Prop :=
  length (t_data t) = t_rows t * t_cols t.

(** Element [(i, j)]: offset [i * cols + j] of the storage. *)
Definition tget {T} (d : T) (t : tensor T) (i j : nat) : T :=
  default d (t_data t !! (i * t_cols t + j)).

(** What the program does not control on the device: the cells that follow
    the end of the first and of the second input buffer, the contents of a
    buffer that [torch.empty] or [torch.empty_like] hands out, and the value
    of a masked-off lane of a [tl.load] that is given no [other]. *)
Record device (T : Type) := Device {
  past_fst : nat → T;
  past_snd : nat → T;
  uninit : nat → T;
  undef : T
}.
Arguments Device {T} _ _ _ _.
Arguments past_fst {T} _ _.
Arguments past_snd {T} _ _.
Arguments uninit {T} _ _.
Arguments undef {T} _.

(** Modelled from the spec: the error taxonomy of its section 7
    ([ShapeMismatch], [OutOfBoundsAccess], [NumericTolerance]).  The
    notebooks define no exception and contain no [raise]; the one error
    their code can end in is the [ValueError] that Triton raises when it
    compiles a kernel whose [tl.arange] has an empty range. *)
Inductive error :=
  ShapeMismatch | OutOfBoundsAccess | NumericTolerance | ValueError.

(** The outcome of a host function. *)
Inductive outcome (A : Type) :=
| Returned (a : A)
| Raised (e : error).
Arguments Returned {A} _.
Arguments Raised {A} _.

(** What a host does with the buffer a launch returns. *)
Definition outcome_map {A B} (f : A → B) (o : outcome A) : outcome B :=
  match o with
  | Returned a => Returned (f a)
  | Raised e => Raised e
  end.

(* ================================================================== *)
(** * The Triton primitives the kernels use *)

Module tl.

(** [tl.arange(start, stop)].  Triton itself accepts a range only when its
    size is a power of two; the model has a range of every size, and no
    kernel below depends on the restriction.  An empty range is an error
    in Triton: [arange_valid] is the check, and the list below is the range
    of a kernel that has passed it. *)
Definition arange (start stop : nat) : list nat := seq start (stop - start).

(** The bounds of a [tl.arange] are [tl.constexpr]: Triton checks them when
    it compiles the kernel, before any cell runs, and raises [ValueError]
    unless [start < stop].  A host whose block size can be 0 passes this
    check to [jit_launch]. *)
Definition arange_valid (start stop : nat) : bool := start <? stop.

(** [triton.cdiv(x, y)]: [(x + y - 1) // y]. *)
Definition cdiv (x y : nat) : nat := (x + y - 1) / y.

(** [triton.next_power_of_2(n)]: the bit-smearing of Triton's source, on
    Python's unbounded integers. *)
Definition next_power_of_2 (n : nat) : nat :=
  let n := (Z.of_nat n - 1)%Z in
  let n := Z.lor n (Z.shiftr n 1) in
  let n := Z.lor n (Z.shiftr n 2) in
  let n := Z.lor n (Z.shiftr n 4) in
  let n := Z.lor n (Z.shiftr n 8) in
  let n := Z.lor n (Z.shiftr n 16) in
  let n := Z.lor n (Z.shiftr n 32) in
  Z.to_nat (n + 1).

(** The cell at offset [o] from a buffer's base pointer: an element of the
    buffer, or whatever follows the buffer in memory. *)
Definition read {T} (past : nat → T) (buf : list T) (o : nat) : T :=
  default (past o) (buf !! o).

(** [tl.load(ptr + offsets, mask=mask, other=other)]. *)
Definition load {T} (past : nat → T) (buf : list T)
    (offsets : list nat) (mask : list bool) (other : T) : list T :=
  zip_with (λ o (m : bool), if m then read past buf o else other) offsets mask.

(** The same on a 2-D block of pointers. *)
Definition load2 {T} (past : nat → T) (buf : list T)
    (offsets : list (list nat)) (mask : list (list bool)) (other : T)
    : list (list T) :=
  zip_with (λ ro rm, load past buf ro rm other) offsets mask.

(** The offsets a masked access really touches: the lanes whose mask is
    true. *)
Fixpoint touched (offsets : list nat) (mask : list bool) : list nat :=
  match offsets, mask with
  | o :: os, m :: ms => (if m : bool then [o] else []) ++ touched os ms
  | _, _ => []
  end.

Fixpoint touched2 (offsets : list (list nat)) (mask : list (list bool))
    : list nat :=
  match offsets, mask with
  | ro :: os, rm :: ms => touched ro rm ++ touched2 os ms
  | _, _ => []
  end.

(** The writes of a masked store, lane by lane. *)
Fixpoint writes {T} (offsets : list nat) (values : list T) (mask : list bool)
    : list (nat * T) :=
  match offsets, values, mask with
  | o :: os, v :: vs, m :: ms =>
      (if m : bool then [(o, v)] else []) ++ writes os vs ms
  | _, _, _ => []
  end.

Fixpoint writes2 {T} (offsets : list (list nat)) (values : list (list T))
    (mask : list (list bool)) : list (nat * T) :=
  match offsets, values, mask with
  | ro :: os, rv :: vs, rm :: ms => writes ro rv rm ++ writes2 os vs ms
  | _, _, _ => []
  end.

(** Writing a list of (offset, value) pairs into a buffer, in order.  A
    write past the end of the buffer leaves the buffer as it is. *)
Definition commit {T} (buf : list T) (ws : list (nat * T)) : list T :=
  foldl (λ b w, <[w.1 := w.2]> b) buf ws.

(** [tl.store(ptr + offsets, values, mask=mask)]. *)
Definition store {T} (buf : list T) (offsets : list nat) (values : list T)
    (mask : list bool) : list T :=
  commit buf (writes offsets values mask).

Definition store2 {T} (buf : list T) (offsets : list (list nat))
    (values : list (list T)) (mask : list (list bool)) : list T :=
  commit buf (writes2 offsets values mask).

(** [tl.sum(v, axis=0)] of a 1-D block. *)
Definition sum {T} `{Arith T} (v : list T) : T := foldl tadd tzero v.

(** [tl.zeros((m, n))]. *)
Definition zeros {T} `{Arith T} (m n : nat) : list (list T) :=
  (λ _ : nat, (λ _ : nat, tzero) <$> seq 0 n) <$> seq 0 m.

(** Element [(i, j)] of a 2-D block. *)
Definition at2 {T} `{Arith T} (a : list (list T)) (i j : nat) : T :=
  default tzero (a !! i ≫= λ row, row !! j).

(** [tl.dot(a, b)]: entry [(i, j)] is the sum over [kk] of
    [a[i, kk] * b[kk, j]]. *)
Definition dot {T} `{Arith T} (a b : list (list T)) : list (list T) :=
  let m := length a in
  let p := length b in
  let n := length (default [] (head b)) in
  (λ i, (λ j, foldl (λ acc kk, tadd acc (tmul (at2 a i kk) (at2 b kk j)))
                    tzero (seq 0 p)) <$> seq 0 n) <$> seq 0 m.

End tl.

(** A launch runs the kernel once per cell of the grid.  The cells are
    independent; the fold fixes one order among them. *)
Definition launch {C B : Type} (grid : list C) (kernel : C → B → B) (out : B)
    : B :=
  foldl (λ b c, kernel c b) out grid.

(** [kernel[grid](...)] for a kernel whose [tl.arange] depends on an
    argument of the host: the kernel is compiled first, whatever the grid,
    and the launch raises when the range is empty. *)
Definition jit_launch {C B : Type} (ranges_valid : bool) (grid : list C)
    (kernel : C → B → B) (out : B) : outcome B :=
  if ranges_valid then Returned (launch grid kernel out)
  else Raised ValueError.

Definition grid1 (n : nat) : list nat := seq 0 n.

Definition grid2 (gx gy : nat) : list (nat * nat) :=
  i ← seq 0 gx; (λ j, (i, j)) <$> seq 0 gy.

(** The cells of [grid] partition the offsets below [extent]: no offset is
    touched by two cells, and every offset below [extent] is touched by a
    cell. *)
Definition write_partition {C} (grid : list C) (W : C → list nat)
    (extent : nat) : Prop :=
  (∀ c1 c2 o, c1 ∈ grid → c2 ∈ grid → o ∈ W c1 → o ∈ W c2 → c1 = c2) ∧
  (∀ o, o < extent → ∃ c, c ∈ grid ∧ o ∈ W c).

(** All the offsets of [os] lie inside a buffer of [n] cells. *)
Definition in_bounds (n : nat) (os : list nat) : Prop :=
  ∀ o, o ∈ os → o < n.

(** Cell [c] stores to offset [o]: once its kernel has run, the buffer holds
    at [o] a value that does not depend on what it held before. *)
Definition stores_to {C T} (kernel : C → list T → list T) (c : C) (o : nat)
    : Prop :=
  ∃ v, ∀ buf, o < length buf → kernel c buf !! o = Some v.

(** Cell [c] leaves offset [o] as it was. *)
Definition leaves {C T} (kernel : C → list T → list T) (c : C) (o : nat)
    : Prop :=
  ∀ buf, kernel c buf !! o = buf !! o.

(** The kernel stores to the offsets [W c], and to no other. *)
Definition writes_exactly {C T} (kernel : C → list T → list T)
    (W : C → list nat) : Prop :=
  ∀ c o, (o ∈ W c → stores_to kernel c o) ∧ (o ∉ W c → leaves kernel c o).

(** Every offset below [extent] is stored to by one cell of the grid, and
    every other cell of the grid leaves it as it was. *)
Definition store_partition {C T} (grid : list C)
    (kernel : C → list T → list T) (extent : nat) : Prop :=
  ∀ o, o < extent →
    ∃ c, c ∈ grid ∧ stores_to kernel c o ∧
         ∀ c', c' ∈ grid → c' ≠ c → leaves kernel c' o.

(* ================================================================== *)
(** * Vector addition ([02_vector_addition]) *)

Module VectorAdd.
Section defs.
Context {T : Type} `{Arith T}.

Definition add_offsets (BLOCK_SIZE pid : nat) : list nat :=
  let block_start := pid * BLOCK_SIZE in
  (λ a, block_start + a) <$> tl.arange 0 BLOCK_SIZE.

Definition add_mask (n_elements BLOCK_SIZE pid : nat) : list bool :=
  (λ o, o <? n_elements) <$> add_offsets BLOCK_SIZE pid.

Definition add_kernel (dev : device T) (x_ptr y_ptr : list T)
    (n_elements BLOCK_SIZE : nat) (pid : nat) (output_ptr : list T) : list T :=
  let offsets := add_offsets BLOCK_SIZE pid in
  let mask := add_mask n_elements BLOCK_SIZE pid in
  let x := tl.load (past_fst dev) x_ptr offsets mask (undef dev) in
  let y := tl.load (past_snd dev) y_ptr offsets mask (undef dev) in
  let output := zip_with tadd x y in
  tl.store output_ptr offsets output mask.

(** [torch.empty_like(x)] for a flat vector. *)
Definition empty_like (dev : device T) (x : list T) : list T :=
  uninit dev <$> seq 0 (length x).

(** The writes of cell [pid]: what its [tl.store] commits. *)
Definition add_writes (dev : device T) (x y : list T) (n S pid : nat)
    : list (nat * T) :=
  tl.writes (add_offsets S pid)
    (zip_with tadd
       (tl.load (past_fst dev) x (add_offsets S pid) (add_mask n S pid)
          (undef dev))
       (tl.load (past_snd dev) y (add_offsets S pid) (add_mask n S pid)
          (undef dev)))
    (add_mask n S pid).

(** The offsets of the output (and of each input) that cell [pid] touches. *)
Definition add_touched (n_elements BLOCK_SIZE pid : nat) : list nat :=
  tl.touched (add_offsets BLOCK_SIZE pid) (add_mask n_elements BLOCK_SIZE pid).

Definition add_grid (n_elements BLOCK_SIZE : nat) : list nat :=
  grid1 (tl.cdiv n_elements BLOCK_SIZE).

(** The body of [add], with the block size it passes as a parameter. *)
Definition add_launch (BLOCK_SIZE : nat) (dev : device T) (x y : list T)
    : outcome (list T) :=
  let output := empty_like dev x in
  let n_elements := length output in
  let grid := add_grid n_elements BLOCK_SIZE in
  Returned (launch grid (add_kernel dev x y n_elements BLOCK_SIZE) output).

Definition add (dev : device T) (x y : list T) : outcome (list T) :=
  add_launch 1024 dev x y.

End defs.
End VectorAdd.

(* ================================================================== *)
(** * Host-side allocation *)

Section alloc.
Context {T : Type} `{Arith T}.

(** [torch.empty(rows, cols)]: default precision, contents unspecified. *)
Definition torch_empty (dev : device T) (rows cols : nat) : tensor T :=
  Tensor torch_default_dtype rows cols (uninit dev <$> seq 0 (rows * cols)).

(** [torch.zeros(rows, cols)]: default precision, all zero. *)
Definition torch_zeros (rows cols : nat) : tensor T :=
  Tensor torch_default_dtype rows cols (replicate (rows * cols) tzero).

(** [torch.empty_like(x)]: the shape and precision of [x]. *)
Definition torch_empty_like (dev : device T) (x : tensor T) : tensor T :=
  Tensor (t_dtype x) (t_rows x) (t_cols x)
         (uninit dev <$> seq 0 (length (t_data x))).

(** [Y.T.contiguous()]: the transpose, laid out row-major again. *)
Definition transpose_contiguous (Y : tensor T) : tensor T :=
  Tensor (t_dtype Y) (t_cols Y) (t_rows Y)
         (j ← seq 0 (t_cols Y); (λ k, tget tzero Y k j) <$> seq 0 (t_rows Y)).

End alloc.

(* ================================================================== *)
(** * Row-times-column matmul ([03_small_matrix_multiplication]) *)

Module NaiveMatmul.
Section defs.
Context {T : Type} `{Arith T}.

Definition x_row_offset (x_cols BLOCK_SIZE x_row_id : nat) : list nat :=
  let x_row_start := x_row_id * x_cols in
  (λ a, x_row_start + a) <$> tl.arange 0 BLOCK_SIZE.

Definition x_mask (x_cols BLOCK_SIZE x_row_id : nat) : list bool :=
  let x_row_start := x_row_id * x_cols in
  (λ o, o <? x_row_start + x_cols) <$> x_row_offset x_cols BLOCK_SIZE x_row_id.

Definition y_col_offset (y_rows BLOCK_SIZE y_col_id : nat) : list nat :=
  let y_col_start := y_col_id * y_rows in
  (λ a, y_col_start + a) <$> tl.arange 0 BLOCK_SIZE.

Definition y_mask (y_rows BLOCK_SIZE y_col_id : nat) : list bool :=
  let y_col_start := y_col_id * y_rows in
  (λ o, o <? y_col_start + y_rows) <$> y_col_offset y_rows BLOCK_SIZE y_col_id.

Definition output_offset (y_cols x_row_id y_col_id : nat) : nat :=
  x_row_id * y_cols + y_col_id.

(** The scalar one cell stores. *)
Definition cell_output (dev : device T) (x_ptr y_ptr : list T)
    (x_cols y_rows BLOCK_SIZE : nat) (pid : nat * nat) : T :=
  let x_row := tl.load (past_fst dev) x_ptr
                 (x_row_offset x_cols BLOCK_SIZE pid.1)
                 (x_mask x_cols BLOCK_SIZE pid.1) tzero in
  let y_col := tl.load (past_snd dev) y_ptr
                 (y_col_offset y_rows BLOCK_SIZE pid.2)
                 (y_mask y_rows BLOCK_SIZE pid.2) tzero in
  tl.sum (zip_with tmul x_row y_col).

(** The kernel of one (row of X, column of Y) pair.  The store of the one
    scalar carries no mask. *)
Definition matmul_kernel (dev : device T) (x_ptr y_ptr : list T)
    (x_rows x_cols y_rows y_cols BLOCK_SIZE : nat) (pid : nat * nat)
    (output_ptr : list T) : list T :=
  let x_row_id := pid.1 in
  let y_col_id := pid.2 in
  let x_row := tl.load (past_fst dev) x_ptr
                 (x_row_offset x_cols BLOCK_SIZE x_row_id)
                 (x_mask x_cols BLOCK_SIZE x_row_id) tzero in
  let y_col := tl.load (past_snd dev) y_ptr
                 (y_col_offset y_rows BLOCK_SIZE y_col_id)
                 (y_mask y_rows BLOCK_SIZE y_col_id) tzero in
  let output := tl.sum (zip_with tmul x_row y_col) in
  tl.store output_ptr [output_offset y_cols x_row_id y_col_id] [output] [true].

(** The offsets of X, of the transposed Y and of the output that one cell
    touches. *)
Definition x_touched (x_cols BLOCK_SIZE : nat) (pid : nat * nat) : list nat :=
  tl.touched (x_row_offset x_cols BLOCK_SIZE pid.1)
             (x_mask x_cols BLOCK_SIZE pid.1).

Definition y_touched (y_rows BLOCK_SIZE : nat) (pid : nat * nat) : list nat :=
  tl.touched (y_col_offset y_rows BLOCK_SIZE pid.2)
             (y_mask y_rows BLOCK_SIZE pid.2).

Definition output_touched (y_cols : nat) (pid : nat * nat) : list nat :=
  tl.touched [output_offset y_cols pid.1 pid.2] [true].

(** [num_warps] only tunes the schedule; it is computed and passed on. *)
Definition num_warps (BLOCK_SIZE : nat) : nat :=
  if 4096 <=? BLOCK_SIZE then 16 else if 2048 <=? BLOCK_SIZE then 8 else 4.

Definition matmul_grid (X Y : tensor T) : list (nat * nat) :=
  grid2 (t_rows X) (t_cols Y).

Definition matmul (dev : device T) (X Y : tensor T) : outcome (tensor T) :=
  let x_rows := t_rows X in
  let x_cols := t_cols X in
  let y_rows := t_rows Y in
  let y_cols := t_cols Y in
  let output := torch_empty dev x_rows y_cols in
  let BLOCK_SIZE := tl.next_power_of_2 x_cols in
  let grid := matmul_grid X Y in
  let Y := transpose_contiguous Y in
  outcome_map (Tensor (t_dtype output) x_rows y_cols)
    (jit_launch (tl.arange_valid 0 BLOCK_SIZE) grid
       (matmul_kernel dev (t_data X) (t_data Y)
          x_rows x_cols y_rows y_cols BLOCK_SIZE)
       (t_data output)).

End defs.
End NaiveMatmul.

(* ================================================================== *)
(** * Tiled matmul ([05_block_matmul]) *)

Module TiledMatmul.

(** The scalar arguments of the kernel: the four extents and the three
    [tl.constexpr] block sizes. *)
Record kernel_args := KernelArgs {
  x_rows : nat;
  x_cols : nat;
  y_rows : nat;
  y_cols : nat;
  BLOCK_SIZE_X : nat;
  BLOCK_SIZE_Y : nat;
  BLOCK_SIZE_K : nat
}.

(** The variables the K loop updates. *)
Record loop_state (T : Type) := LoopState {
  x_ptrs : list (list nat);
  y_ptrs : list (list nat);
  accumulator : list (list T)
}.
Arguments LoopState {T} _ _ _.
Arguments x_ptrs {T} _.
Arguments y_ptrs {T} _.
Arguments accumulator {T} _.

(** A 2-D block given entry by entry. *)
Definition tab2 {A} (m n : nat) (f : nat → nat → A) : list (list A) :=
  (λ i, (λ j, f i j) <$> seq 0 n) <$> seq 0 m.

Section defs.
Context {T : Type} `{Arith T}.
Variable p : kernel_args.

(** Row starts of the block of X: one offset per row of the block. *)
Definition x_offsets (x_pid : nat) : list nat :=
  let x_row_start := x_pid * p.(BLOCK_SIZE_X) * p.(x_cols) in
  (λ a, x_row_start + a * p.(x_cols)) <$> tl.arange 0 p.(BLOCK_SIZE_X).

(** Column starts of the block of Y. *)
Definition y_offsets (y_pid : nat) : list nat :=
  let y_col_start := y_pid * p.(BLOCK_SIZE_Y) in
  (λ a, y_col_start + a) <$> tl.arange 0 p.(BLOCK_SIZE_Y).

Definition k_offsets : list nat := tl.arange 0 p.(BLOCK_SIZE_K).

(** [x_offsets[:, None] + k_offsets[None, :]]. *)
Definition x_ptrs_init (x_pid : nat) : list (list nat) :=
  (λ xo, (λ ko, xo + ko) <$> k_offsets) <$> x_offsets x_pid.

(** [k_offsets[:, None] * y_cols + y_offsets[None, :]]. *)
Definition y_ptrs_init (y_pid : nat) : list (list nat) :=
  (λ ko, (λ yo, ko * p.(y_cols) + yo) <$> y_offsets y_pid) <$> k_offsets.

(** [k_offsets[None, :] < x_cols - k * BLOCK_SIZE_K], broadcast over the
    rows of [x_ptrs].  The lanes are never negative, so comparing with the
    truncated difference agrees with the signed comparison of the source. *)
Definition x_load_mask (k : nat) : list (list bool) :=
  (λ _ : nat,
     (λ ko, ko <? p.(x_cols) - k * p.(BLOCK_SIZE_K)) <$> k_offsets)
    <$> tl.arange 0 p.(BLOCK_SIZE_X).

(** [k_offsets[:, None] < y_rows - k * BLOCK_SIZE_K], broadcast over the
    columns of [y_ptrs]. *)
Definition y_load_mask (k : nat) : list (list bool) :=
  (λ ko,
     (λ _ : nat, ko <? p.(y_rows) - k * p.(BLOCK_SIZE_K))
       <$> tl.arange 0 p.(BLOCK_SIZE_Y))
    <$> k_offsets.

Definition loop_init (pid : nat * nat) : loop_state T :=
  LoopState (x_ptrs_init pid.1) (y_ptrs_init pid.2)
            (tl.zeros p.(BLOCK_SIZE_X) p.(BLOCK_SIZE_Y)).

(** One iteration of [for k in range(0, tl.cdiv(x_cols, BLOCK_SIZE_K))]. *)
Definition k_step (dev : device T) (x_ptr y_ptr : list T)
    (st : loop_state T) (k : nat) : loop_state T :=
  let a := tl.load2 (past_fst dev) x_ptr (x_ptrs st) (x_load_mask k) tzero in
  let b := tl.load2 (past_snd dev) y_ptr (y_ptrs st) (y_load_mask k) tzero in
  let result := tl.dot a b in
  LoopState
    ((λ row : list nat, (λ q, q + p.(BLOCK_SIZE_K)) <$> row) <$> x_ptrs st)
    ((λ row : list nat, (λ q, q + p.(BLOCK_SIZE_K) * p.(y_cols)) <$> row)
       <$> y_ptrs st)
    (zip_with (zip_with tadd) (accumulator st) result).

(** The state on entry to iteration [k]. *)
Definition state_at (dev : device T) (x_ptr y_ptr : list T)
    (pid : nat * nat) (k : nat) : loop_state T :=
  foldl (k_step dev x_ptr y_ptr) (loop_init pid) (seq 0 k).

Definition output_x_offsets (x_pid : nat) : list nat :=
  let output_x_start := x_pid * p.(BLOCK_SIZE_X) in
  (λ a, output_x_start + a) <$> tl.arange 0 p.(BLOCK_SIZE_X).

Definition output_y_offsets (y_pid : nat) : list nat :=
  let output_y_start := y_pid * p.(BLOCK_SIZE_Y) in
  (λ a, output_y_start + a) <$> tl.arange 0 p.(BLOCK_SIZE_Y).

(** [output_x_offsets[:, None] * y_cols + output_y_offsets[None, :]]. *)
Definition output_ptrs (pid : nat * nat) : list (list nat) :=
  (λ xo, (λ yo, xo * p.(y_cols) + yo) <$> output_y_offsets pid.2)
    <$> output_x_offsets pid.1.

(** [(output_x_rows[:, None] < x_rows) & (output_y_offsets[None, :] < y_cols)];
    [output_x_rows] is the same array as [output_x_offsets]. *)
Definition output_mask (pid : nat * nat) : list (list bool) :=
  (λ xr,
     (λ yo, (xr <? p.(x_rows)) && (yo <? p.(y_cols)))
       <$> output_y_offsets pid.2)
    <$> output_x_offsets pid.1.

(** The precision [accumulator.to(...)] names. *)
Definition accumulator_cast_dtype : dtype := float16.

(** The block the kernel stores: the accumulator after the loop, cast. *)
Definition output_block (dev : device T) (x_ptr y_ptr : list T)
    (pid : nat * nat) : list (list T) :=
  let st := state_at dev x_ptr y_ptr pid
              (tl.cdiv p.(x_cols) p.(BLOCK_SIZE_K)) in
  (λ row : list T, tcast accumulator_cast_dtype <$> row) <$> accumulator st.

Definition matmul_kernel (dev : device T) (x_ptr y_ptr : list T)
    (pid : nat * nat) (output_ptr : list T) : list T :=
  let st := state_at dev x_ptr y_ptr pid
              (tl.cdiv p.(x_cols) p.(BLOCK_SIZE_K)) in
  let output :=
    (λ row : list T, tcast accumulator_cast_dtype <$> row)
      <$> accumulator st in
  tl.store2 output_ptr (output_ptrs pid) output (output_mask pid).

(** The offsets of X, of Y and of the output that one cell touches. *)
Definition x_touched (dev : device T) (x_ptr y_ptr : list T)
    (pid : nat * nat) : list nat :=
  k ← seq 0 (tl.cdiv p.(x_cols) p.(BLOCK_SIZE_K));
  tl.touched2 (x_ptrs (state_at dev x_ptr y_ptr pid k)) (x_load_mask k).

Definition y_touched (dev : device T) (x_ptr y_ptr : list T)
    (pid : nat * nat) : list nat :=
  k ← seq 0 (tl.cdiv p.(x_cols) p.(BLOCK_SIZE_K));
  tl.touched2 (y_ptrs (state_at dev x_ptr y_ptr pid k)) (y_load_mask k).

Definition output_touched (pid : nat * nat) : list nat :=
  tl.touched2 (output_ptrs pid) (output_mask pid).

(** Entry [t] of row [i] of the block of X that cell [x_pid] multiplies:
    the element of X, or zero from column [x_cols] on. *)
Definition lane_a (dev : device T) (x_ptr : list T) (x_pid i t : nat) : T :=
  if t <? p.(x_cols)
  then tl.read (past_fst dev) x_ptr
         (x_pid * p.(BLOCK_SIZE_X) * p.(x_cols) + i * p.(x_cols) + t)
  else tzero.

(** Entry [t] of column [j] of the block of Y that cell [y_pid] multiplies:
    the element of Y, or zero from row [y_rows] on. *)
Definition lane_b (dev : device T) (y_ptr : list T) (y_pid t j : nat) : T :=
  if t <? p.(y_rows)
  then tl.read (past_snd dev) y_ptr
         (t * p.(y_cols) + (y_pid * p.(BLOCK_SIZE_Y) + j))
  else tzero.

(** The accumulator entry [(i, j)] once the first [n] lanes of the inner
    dimension are summed. *)
Definition partial_sum (dev : device T) (x_ptr y_ptr : list T)
    (pid : nat * nat) (n i j : nat) : T :=
  foldl (λ acc t, tadd acc (tmul (lane_a dev x_ptr pid.1 i t)
                                 (lane_b dev y_ptr pid.2 t j)))
        tzero (seq 0 n).

Definition matmul_grid : list (nat * nat) :=
  grid2 (tl.cdiv p.(x_rows) p.(BLOCK_SIZE_X))
        (tl.cdiv p.(y_cols) p.(BLOCK_SIZE_Y)).

End defs.

Section host.
Context {T : Type} `{Arith T}.

(** The body of [matmul], with the three block sizes it fixes as
    parameters. *)
Definition matmul_launch (BLOCK_SIZE_X BLOCK_SIZE_Y BLOCK_SIZE_K : nat)
    (dev : device T) (X Y : tensor T) : outcome (tensor T) :=
  let x_rows := t_rows X in
  let x_cols := t_cols X in
  let y_rows := t_rows Y in
  let y_cols := t_cols Y in
  let output := torch_zeros x_rows y_cols in
  let args := KernelArgs x_rows x_cols y_rows y_cols
                BLOCK_SIZE_X BLOCK_SIZE_Y BLOCK_SIZE_K in
  let grid := matmul_grid args in
  Returned
    (Tensor (t_dtype output) x_rows y_cols
       (launch grid (matmul_kernel args dev (t_data X) (t_data Y))
          (t_data output))).

Definition matmul (dev : device T) (X Y : tensor T) : outcome (tensor T) :=
  matmul_launch 16 16 32 dev X Y.

End host.
End TiledMatmul.

(* ================================================================== *)
(** * Extended reals: the element type of the softmax kernels *)

(** A float without rounding: a real number, an infinity or not-a-number.
    The operations follow the IEEE conventions for the special values
    (signed zeros are not distinguished). *)
Inductive xreal := Fin (r : R) | PInf | NInf | NaN.

Definition xopp (a : xreal) : xreal :=
  match a with
  | Fin r => Fin (- r)
  | PInf => NInf
  | NInf => PInf
  | NaN => NaN
  end.

Definition xadd (a b : xreal) : xreal :=
  match a, b with
  | Fin x, Fin y => Fin (x + y)
  | NaN, _ | _, NaN => NaN
  | PInf, NInf | NInf, PInf => NaN
  | PInf, _ | _, PInf => PInf
  | NInf, _ | _, NInf => NInf
  end.

Definition xsub (a b : xreal) : xreal := xadd a (xopp b).

(** An infinity ([PInf] when [pos]) times, or a zero divisor under, the
    finite [r]: the sign of [r] decides, and a zero [r] gives not-a-number. *)
Definition signed_inf (pos : bool) (r : R) : xreal :=
  if Rlt_dec 0 r then (if pos then PInf else NInf)
  else if Rlt_dec r 0 then (if pos then NInf else PInf)
  else NaN.

Definition xmul (a b : xreal) : xreal :=
  match a, b with
  | Fin x, Fin y => Fin (x * y)
  | NaN, _ | _, NaN => NaN
  | PInf, Fin r | Fin r, PInf => signed_inf true r
  | NInf, Fin r | Fin r, NInf => signed_inf false r
  | PInf, PInf | NInf, NInf => PInf
  | PInf, NInf | NInf, PInf => NInf
  end.

Definition xdiv (a b : xreal) : xreal :=
  match a, b with
  | Fin x, Fin y => if Req_dec_T y 0 then signed_inf true x else Fin (x / y)
  | NaN, _ | _, NaN => NaN
  | Fin _, PInf | Fin _, NInf => Fin 0
  | PInf, Fin r => if Rlt_dec r 0 then NInf else PInf
  | NInf, Fin r => if Rlt_dec r 0 then PInf else NInf
  | _, _ => NaN
  end.

(** [tl.exp].  Without rounding the exponential of a finite number is a
    positive real; in [float32] it underflows to 0 for arguments below about
    -104 and overflows to infinity above about 88.  No statement below
    relies on an exponential, or on an entry of a softmax, being nonzero. *)
Definition xexp (a : xreal) : xreal :=
  match a with
  | Fin r => Fin (exp r)
  | PInf => PInf
  | NInf => Fin 0
  | NaN => NaN
  end.

Definition xmax (a b : xreal) : xreal :=
  match a, b with
  | NaN, _ | _, NaN => NaN
  | PInf, _ | _, PInf => PInf
  | NInf, c | c, NInf => c
  | Fin x, Fin y => Fin (Rmax x y)
  end.

(** [a == b]. *)
Definition xeqb (a b : xreal) : bool :=
  match a, b with
  | Fin x, Fin y => if Req_dec_T x y then true else false
  | PInf, PInf | NInf, NInf => true
  | _, _ => false
  end.

#[export] Instance xreal_arith : Arith xreal :=
  {| tzero := Fin 0; tadd := xadd; tmul := xmul; tcast := λ _ v, v |}.

(* ================================================================== *)
(** * Softmax forward and backward ([04_softmax_fwd_bwd]) *)

Module Softmax.

Definition row_offset (x_cols BLOCK_SIZE pid : nat) : list nat :=
  let row_start := pid * x_cols in
  (λ a, row_start + a) <$> tl.arange 0 BLOCK_SIZE.

Definition row_mask (x_cols BLOCK_SIZE pid : nat) : list bool :=
  let row_start := pid * x_cols in
  (λ o, o <? row_start + x_cols) <$> row_offset x_cols BLOCK_SIZE pid.

(** The offsets of the input rows and of the output that cell [pid]
    touches; the forward and the backward kernel share them. *)
Definition row_touched (x_cols BLOCK_SIZE pid : nat) : list nat :=
  tl.touched (row_offset x_cols BLOCK_SIZE pid) (row_mask x_cols BLOCK_SIZE pid).

(** [tl.max(row, axis=0)]. *)
Definition tl_max (row : list xreal) : xreal := foldr xmax NInf row.

(** [-float('inf')]. *)
Definition neg_inf : xreal := NInf.

Definition softmax_fwd_kernel (dev : device xreal) (x_ptr : list xreal)
    (x_rows x_cols BLOCK_SIZE : nat) (pid : nat) (output_ptr : list xreal)
    : list xreal :=
  let row_offset := row_offset x_cols BLOCK_SIZE pid in
  let mask := row_mask x_cols BLOCK_SIZE pid in
  let row := tl.load (past_fst dev) x_ptr row_offset mask neg_inf in
  let row := (λ v, xsub v (tl_max row)) <$> row in
  let num := xexp <$> row in
  let denom := tl.sum num in
  let output := (λ v, xdiv v denom) <$> num in
  tl.store output_ptr row_offset output mask.

Definition softmax_fwd (dev : device xreal) (x : tensor xreal)
    : outcome (tensor xreal) :=
  let output := torch_empty_like dev x in
  let x_rows := t_rows x in
  let x_cols := t_cols x in
  let BLOCK_SIZE := tl.next_power_of_2 x_cols in
  let grid := grid1 x_rows in
  outcome_map (Tensor (t_dtype output) (t_rows output) (t_cols output))
    (jit_launch (tl.arange_valid 0 BLOCK_SIZE) grid
       (softmax_fwd_kernel dev (t_data x) x_rows x_cols BLOCK_SIZE)
       (t_data output)).

(** [tl.full(shape, 1.0)] and [tl.zeros(shape)] for a 1-D shape. *)
Definition full (n : nat) (v : xreal) : list xreal := replicate n v.

(** [tl.where(cond, a, b)]. *)
Definition where_ (cond : list bool) (a b : list xreal) : list xreal :=
  zip_with (λ (c : bool) ab, if c then ab.1 else ab.2) cond (zip a b).

Definition softmax_bwd_kernel (dev : device xreal) (x_ptr dy_ptr : list xreal)
    (x_rows x_cols BLOCK_SIZE : nat) (pid : nat) (dx_ptr : list xreal)
    : list xreal :=
  let row_offset := row_offset x_cols BLOCK_SIZE pid in
  let mask := row_mask x_cols BLOCK_SIZE pid in
  let x_row := tl.load (past_fst dev) x_ptr row_offset mask neg_inf in
  let dy_row := tl.load (past_snd dev) dy_ptr row_offset mask (Fin 0) in
  let x_normed := (λ v, xsub v (tl_max x_row)) <$> x_row in
  let num := xexp <$> x_normed in
  let denom := tl.sum num in
  let inverted := xdiv (Fin 1) denom in
  let output := (λ v, xmul v inverted) <$> num in
  let num_grad := (λ v, xmul v inverted) <$> dy_row in
  let inverted_grad := zip_with xmul dy_row num in
  let inverted_grad := tl.sum inverted_grad in
  let denom_grad := xmul (xdiv (Fin (-1)) (xmul denom denom)) inverted_grad in
  let num_grad :=
    zip_with xadd num_grad
      ((λ one, xmul one denom_grad) <$> full (length num_grad) (Fin 1)) in
  let normed_grad := zip_with xmul num_grad (xexp <$> x_normed) in
  let x_grad := normed_grad in
  let max_grad := xopp <$> normed_grad in
  let max_grad := tl.sum max_grad in
  let x_grad_2 :=
    (λ w, xmul max_grad w)
      <$> where_ ((λ v, xeqb v (tl_max x_row)) <$> x_row)
                 (full (length x_grad) (Fin 1))
                 (full (length x_grad) (Fin 0)) in
  tl.store dx_ptr row_offset (zip_with xadd x_grad x_grad_2) mask.

(** The block [softmax_fwd_kernel] stores, as a function of the row it
    loaded. *)
Definition fwd_block (row : list xreal) : list xreal :=
  let row := (λ v, xsub v (tl_max row)) <$> row in
  let num := xexp <$> row in
  let denom := tl.sum num in
  (λ v, xdiv v denom) <$> num.

(** The block [softmax_bwd_kernel] stores, as a function of the two rows it
    loaded. *)
Definition bwd_block (x_row dy_row : list xreal) : list xreal :=
  let x_normed := (λ v, xsub v (tl_max x_row)) <$> x_row in
  let num := xexp <$> x_normed in
  let denom := tl.sum num in
  let inverted := xdiv (Fin 1) denom in
  let num_grad := (λ v, xmul v inverted) <$> dy_row in
  let inverted_grad := zip_with xmul dy_row num in
  let inverted_grad := tl.sum inverted_grad in
  let denom_grad := xmul (xdiv (Fin (-1)) (xmul denom denom)) inverted_grad in
  let num_grad :=
    zip_with xadd num_grad
      ((λ one, xmul one denom_grad) <$> full (length num_grad) (Fin 1)) in
  let normed_grad := zip_with xmul num_grad (xexp <$> x_normed) in
  let x_grad := normed_grad in
  let max_grad := xopp <$> normed_grad in
  let max_grad := tl.sum max_grad in
  let x_grad_2 :=
    (λ w, xmul max_grad w)
      <$> where_ ((λ v, xeqb v (tl_max x_row)) <$> x_row)
                 (full (length x_grad) (Fin 1))
                 (full (length x_grad) (Fin 0)) in
  zip_with xadd x_grad x_grad_2.

(** The three blocks the last line of [softmax_bwd_kernel] combines, as
    functions of the two rows it loaded: [normed_grad] (which the kernel
    also calls [x_grad]), the scalar [max_grad], and the indicator
    [tl.where(x_row == tl.max(x_row), 1.0, 0.0)] over [n] lanes. *)
Definition bwd_normed_grad (x_row dy_row : list xreal) : list xreal :=
  let x_normed := (λ v, xsub v (tl_max x_row)) <$> x_row in
  let num := xexp <$> x_normed in
  let denom := tl.sum num in
  let inverted := xdiv (Fin 1) denom in
  let num_grad := (λ v, xmul v inverted) <$> dy_row in
  let inverted_grad := zip_with xmul dy_row num in
  let inverted_grad := tl.sum inverted_grad in
  let denom_grad := xmul (xdiv (Fin (-1)) (xmul denom denom)) inverted_grad in
  let num_grad :=
    zip_with xadd num_grad
      ((λ one, xmul one denom_grad) <$> full (length num_grad) (Fin 1)) in
  zip_with xmul num_grad (xexp <$> x_normed).

Definition bwd_max_grad (x_row dy_row : list xreal) : xreal :=
  tl.sum (xopp <$> bwd_normed_grad x_row dy_row).

Definition bwd_indicator (x_row : list xreal) (n : nat) : list xreal :=
  where_ ((λ v, xeqb v (tl_max x_row)) <$> x_row)
         (full n (Fin 1)) (full n (Fin 0)).

(** A loaded row of reals [a] whose [p] masked lanes hold minus infinity,
    and a block of reals [a] whose [p] masked lanes hold [z]. *)
Definition masked_row (p : nat) (a : list R) : list xreal :=
  (Fin <$> a) ++ replicate p neg_inf.

Definition padded (p : nat) (a : list R) (z : R) : list xreal :=
  (Fin <$> a) ++ replicate p (Fin z).

(** [Softmax.forward]: the launch of [softmax_fwd], and [x] saved for the
    backward pass. *)
Definition Softmax_forward (dev : device xreal) (x : tensor xreal)
    : outcome (tensor xreal * tensor xreal) :=
  match softmax_fwd dev x with
  | Returned output => Returned (output, x)
  | Raised e => Raised e
  end.

(** [Softmax.backward]: [x] is [ctx.saved_tensors[0]]. *)
Definition Softmax_backward (dev : device xreal) (x dy : tensor xreal)
    : outcome (tensor xreal) :=
  let dx := torch_empty_like dev x in
  let x_rows := t_rows x in
  let x_cols := t_cols x in
  let BLOCK_SIZE := tl.next_power_of_2 x_cols in
  let grid := grid1 x_rows in
  outcome_map (Tensor (t_dtype dx) (t_rows dx) (t_cols dx))
    (jit_launch (tl.arange_valid 0 BLOCK_SIZE) grid
       (softmax_bwd_kernel dev (t_data x) (t_data dy) x_rows x_cols BLOCK_SIZE)
       (t_data dx)).

End Softmax.

(* ================================================================== *)
(** * What the kernels are compared with *)

Module Reference.
Section matmul.
Context {T : Type} `{Arith T}.

(** The innermost loop of the unblocked multiply: [acc += X[i,k] * Y[k,j]]
    for [k] from [0] up to [kmax]. *)
Definition dot_product (X Y : tensor T) (kmax i j : nat) : T :=
  foldl (λ acc k, tadd acc (tmul (tget tzero X i k) (tget tzero Y k j)))
        tzero (seq 0 kmax).

(** The storage of the product computed by three nested loops. *)
Definition matmul_data (X Y : tensor T) (kmax : nat) : list T :=
  i ← seq 0 (t_rows X); (λ j, dot_product X Y kmax i j) <$> seq 0 (t_cols Y).

(** The unblocked triple-loop multiply, [X @ Y]. *)
Definition matmul (X Y : tensor T) : tensor T :=
  Tensor (t_dtype X) (t_rows X) (t_cols Y) (matmul_data X Y (t_cols X)).

End matmul.

(** Sum and maximum of a row of reals. *)
Definition Rsum (l : list R) : R := foldr Rplus 0%R l.

Fixpoint Rlist_max (l : list R) : R :=
  match l with
  | [] => 0%R
  | [x] => x
  | x :: l' => Rmax x (Rlist_max l')
  end.

(** Softmax of one row over its true extent: [m = max(row)],
    [e = exp(row - m)], [d = sum(e)], result [e / d]. *)
Definition softmax_row (row : list R) : list R :=
  let m := Rlist_max row in
  let e := (λ x, exp (x - m)) <$> row in
  let d := Rsum e in
  (λ ei, ei / d)%R <$> e.

(** The seven steps of the backward pass on one row [x] with upstream
    gradient [dy]. *)
Definition normed_grad (x dy : list R) : list R :=
  let m := Rlist_max x in
  let e := (λ xi, exp (xi - m)) <$> x in
  let d := Rsum e in
  let inv := (1 / d)%R in
  let num_grad := (λ dyi, dyi * inv)%R <$> dy in
  let inv_grad := Rsum (zip_with Rmult dy e) in
  let denom_grad := (- inv_grad / (d * d))%R in
  let num_grad := (λ g, g + denom_grad)%R <$> num_grad in
  zip_with Rmult num_grad e.

Definition max_grad (x dy : list R) : R := (- Rsum (normed_grad x dy))%R.

(** [indicator(xi == row_max)]. *)
Definition indicator (m xi : R) : R :=
  if Req_dec_T xi m then 1%R else 0%R.

Definition softmax_bwd_row (x dy : list R) : list R :=
  zip_with (λ g xi, g + max_grad x dy * indicator (Rlist_max x) xi)%R
           (normed_grad x dy) x.

End Reference.

(** The row [i] of a row-major storage with [cols] columns. *)
Definition row_of {A} (cols : nat) (data : list A) (i : nat) : list A :=
  take cols (drop (i * cols) data).

(* ================================================================== *)
(** * The integers as an exact element type *)

(** Integer-valued tensors: exact sums and products, and a cast [c]. *)
Definition Z_arith (c : dtype → Z → Z) : Arith Z :=
  {| tzero := 0%Z; tadd := Z.add; tmul := Z.mul; tcast := c |}.

(** [torch.arange(n).reshape(rows, cols)]. *)
Definition arange_tensor (d : dtype) (rows cols : nat) : tensor Z :=
  Tensor d rows cols (Z.of_nat <$> seq 0 (rows * cols)).

(** A device whose unspecified cells all hold [junk]. *)
Definition Z_device (junk : Z) : device Z :=
  Device (λ _, junk) (λ _, junk) (λ _, junk) junk.

(** A device of extended reals whose unspecified cells hold not-a-number. *)
Definition nan_device : device xreal :=
  Device (λ _, NaN) (λ _, NaN) (λ _, NaN) NaN.

(** Two tensors whose inner extents disagree: X is 1x2, Y is 1x1. *)
Definition mismatched_X : tensor Z := Tensor float32 1 2 [2; 3]%Z.
Definition mismatched_Y : tensor Z := Tensor float32 1 1 [5]%Z.

(* ================================================================== *)
(** * Notions the further properties are stated with *)

(** The vector-Jacobian product of softmax, from the row [s] the forward
    pass returned and the upstream gradient [dy]:
    [s * (dy - sum(dy * s))]. *)
Definition softmax_vjp (s dy : list R) : list R :=
  let c := Reference.Rsum (zip_with Rmult dy s) in
  zip_with (λ si dyi, si * (dyi - c))%R s dy.

(** The state of the bit smearing of [next_power_of_2] once the shifts add
    up to [w - 1]: bit [i] of [y] is set exactly when one of the [w] bits of
    [x] from bit [i] upwards is set. *)
Definition smeared (x y w : Z) : Prop :=
  ∀ i, (0 ≤ i)%Z →
    Z.testbit y i = true ↔ ∃ d, (0 ≤ d < w)%Z ∧ Z.testbit x (i + d) = true.

(* ================================================================== *)
(** * Lemmas on the primitives *)

Section primitives.
Context {T : Type}.
Implicit Types (buf : list T) (ws : list (nat * T)) (o : nat) (v : T).

Lemma arange_0 n : tl.arange 0 n = seq 0 n.
Proof. unfold tl.arange. by rewrite Nat.sub_0_r. Qed.

Lemma lookup_tab {A} (f : nat → A) n i :
  i < n → (f <$> seq 0 n) !! i = Some (f i).
Proof. intros Hi. by rewrite list_lookup_fmap, lookup_seq_lt. Qed.

Lemma lookup_tab_Some {A} (f : nat → A) n i y :
  (f <$> seq 0 n) !! i = Some y ↔ i < n ∧ y = f i.
Proof.
  rewrite list_lookup_fmap, fmap_Some. split.
  - intros (j & [-> Hi]%lookup_seq & ->). done.
  - intros [Hi ->]. exists i. by rewrite lookup_seq_lt.
Qed.

Lemma elem_of_touched (os : list nat) (ms : list bool) o :
  o ∈ tl.touched os ms ↔ ∃ k, os !! k = Some o ∧ ms !! k = Some true.
Proof.
  revert ms. induction os as [|o' os IH]; intros [|m ms]; simpl.
  - rewrite elem_of_nil. split; [done|]. intros ([|k] & ? & ?); done.
  - rewrite elem_of_nil. split; [done|]. intros ([|k] & ? & ?); done.
  - rewrite elem_of_nil. split; [done|]. intros ([|k] & ? & ?); done.
  - rewrite elem_of_app, IH. split.
    + intros [Hin | (k & ? & ?)].
      * destruct m; [|by apply elem_of_nil in Hin].
        apply list_elem_of_singleton in Hin as ->. by exists 0.
      * by exists (S k).
    + intros ([|k] & Ho & Hm); simpl in *.
      * left. simplify_eq. apply list_elem_of_singleton. done.
      * right. eauto.
Qed.

Lemma elem_of_touched2 (os : list (list nat)) (ms : list (list bool)) o :
  o ∈ tl.touched2 os ms ↔
  ∃ i ro rm, os !! i = Some ro ∧ ms !! i = Some rm ∧ o ∈ tl.touched ro rm.
Proof.
  revert ms. induction os as [|ro' os IH]; intros [|rm' ms]; simpl.
  - rewrite elem_of_nil. split; [done|]. intros ([|i] & ? & ? & ? & ? & ?); done.
  - rewrite elem_of_nil. split; [done|]. intros ([|i] & ? & ? & ? & ? & ?); done.
  - rewrite elem_of_nil. split; [done|]. intros ([|i] & ? & ? & ? & ? & ?); done.
  - rewrite elem_of_app, IH. split.
    + intros [Hin | (i & ro & rm & ? & ? & ?)].
      * exists 0, ro', rm'. done.
      * exists (S i), ro, rm. done.
    + intros ([|i] & ro & rm & Ho & Hm & Hin); simpl in *.
      * left. by simplify_eq.
      * right. eauto 6.
Qed.

Lemma elem_of_writes (os : list nat) (vs : list T) (ms : list bool) o v :
  (o, v) ∈ tl.writes os vs ms ↔
  ∃ k, os !! k = Some o ∧ vs !! k = Some v ∧ ms !! k = Some true.
Proof.
  revert vs ms. induction os as [|o' os IH]; intros [|v' vs] [|m ms]; simpl;
    try (rewrite elem_of_nil; split; [done|]; intros ([|k] & ? & ? & ?); done).
  rewrite elem_of_app, IH. split.
  - intros [Hin | (k & ? & ? & ?)].
    + destruct m; [|by apply elem_of_nil in Hin].
      apply list_elem_of_singleton in Hin. simplify_eq. by exists 0.
    + by exists (S k).
  - intros ([|k] & Ho & Hv & Hm); simpl in *.
    + left. simplify_eq. apply list_elem_of_singleton. done.
    + right. eauto.
Qed.

Lemma elem_of_writes2 (os : list (list nat)) (vs : list (list T))
    (ms : list (list bool)) o v :
  (o, v) ∈ tl.writes2 os vs ms ↔
  ∃ i ro rv rm, os !! i = Some ro ∧ vs !! i = Some rv ∧ ms !! i = Some rm ∧
                (o, v) ∈ tl.writes ro rv rm.
Proof.
  revert vs ms. induction os as [|ro' os IH]; intros [|rv' vs] [|rm' ms]; simpl;
    try (rewrite elem_of_nil; split; [done|];
         intros ([|i] & ? & ? & ? & ? & ? & ? & ?); done).
  rewrite elem_of_app, IH. split.
  - intros [Hin | (i & ro & rv & rm & ? & ? & ? & ?)].
    + exists 0, ro', rv', rm'. done.
    + exists (S i), ro, rv, rm. done.
  - intros ([|i] & ro & rv & rm & Ho & Hv & Hm & Hin); simpl in *.
    + left. by simplify_eq.
    + right. eauto 8.
Qed.

(** The offsets of the writes are the touched offsets. *)
Lemma writes_touched (os : list nat) (vs : list T) (ms : list bool) o :
  length os ≤ length vs →
  o ∈ tl.touched os ms ↔ ∃ v, (o, v) ∈ tl.writes os vs ms.
Proof.
  intros Hlen. rewrite elem_of_touched. split.
  - intros (k & Ho & Hm).
    destruct (lookup_lt_is_Some_2 vs k) as [v Hv].
    { apply lookup_lt_Some in Ho. lia. }
    exists v. apply elem_of_writes. eauto.
  - intros (v & (k & ? & ? & ?)%elem_of_writes). eauto.
Qed.

Lemma commit_app buf ws ws' :
  tl.commit buf (ws ++ ws') = tl.commit (tl.commit buf ws) ws'.
Proof. unfold tl.commit. apply foldl_app. Qed.

Lemma commit_length buf ws : length (tl.commit buf ws) = length buf.
Proof.
  revert buf. induction ws as [|w ws IH]; intros buf; simpl; [done|].
  change (length (tl.commit (<[w.1 := w.2]> buf) ws) = length buf).
  by rewrite IH, length_insert.
Qed.

(** An offset nobody writes keeps its contents. *)
Lemma commit_lookup_untouched buf ws o :
  (∀ v, (o, v) ∉ ws) → tl.commit buf ws !! o = buf !! o.
Proof.
  revert buf. induction ws as [|[o' v'] ws IH]; intros buf Hno; [done|].
  change (tl.commit (<[o' := v']> buf) ws !! o = buf !! o).
  rewrite IH.
  - apply list_lookup_insert_ne. intros ->. apply (Hno v'). left.
  - intros v Hin. apply (Hno v). by right.
Qed.

(** An offset inside the buffer that is written, and only ever with the
    value [v], holds [v] afterwards. *)
Lemma commit_lookup_written buf ws o v :
  (∀ v', (o, v') ∈ ws → v' = v) →
  (∃ v', (o, v') ∈ ws) →
  o < length buf →
  tl.commit buf ws !! o = Some v.
Proof.
  intros Hagree Hex Hlt. induction ws as [|[o' v'] ws IH] using rev_ind.
  { destruct Hex as [? []%elem_of_nil]. }
  rewrite commit_app. simpl.
  destruct (decide (o' = o)) as [->|Hne].
  - rewrite (Hagree v'); [|apply elem_of_app; right; left].
    apply list_lookup_insert_eq. by rewrite commit_length.
  - rewrite list_lookup_insert_ne by done. apply IH.
    + intros v'' Hin. apply Hagree, elem_of_app. by left.
    + destruct Hex as [v'' [Hin|Hin]%elem_of_app]; [eauto|].
      apply list_elem_of_singleton in Hin. congruence.
Qed.

(** A launch of kernels that only store commits all their writes. *)
Lemma launch_commit {C} (grid : list C) (W : C → list (nat * T))
    (kernel : C → list T → list T) buf :
  (∀ c b, kernel c b = tl.commit b (W c)) →
  launch grid kernel buf = tl.commit buf (c ← grid; W c).
Proof.
  intros Hk. unfold launch. revert buf.
  induction grid as [|c grid IH]; intros buf; simpl; [done|].
  rewrite IH, Hk. by rewrite commit_app.
Qed.

Lemma read_in_bounds (past : nat → T) buf o v :
  buf !! o = Some v → tl.read past buf o = v.
Proof. unfold tl.read. by intros ->. Qed.

Lemma lookup_load (past : nat → T) buf (os : list nat) (ms : list bool)
    other k o (m : bool) :
  os !! k = Some o → ms !! k = Some m →
  tl.load past buf os ms other !! k
  = Some (if m then tl.read past buf o else other).
Proof.
  intros Ho Hm. unfold tl.load. by rewrite lookup_zip_with, Ho, Hm.
Qed.

End primitives.

Lemma elem_of_grid1 n i : i ∈ grid1 n ↔ i < n.
Proof. unfold grid1. rewrite elem_of_seq. lia. Qed.

Lemma elem_of_grid2 gx gy c : c ∈ grid2 gx gy ↔ c.1 < gx ∧ c.2 < gy.
Proof.
  unfold grid2. rewrite list_elem_of_bind. destruct c as [i j]. simpl. split.
  - intros (i' & (j' & ? & Hj%elem_of_seq)%list_elem_of_fmap & Hi%elem_of_seq).
    simplify_eq. lia.
  - intros [Hi Hj]. exists i. split.
    + apply list_elem_of_fmap. exists j. split; [done|]. apply elem_of_seq. lia.
    + apply elem_of_seq. lia.
Qed.

(** Ceiling division covers the extent and no more. *)
Lemma cdiv_covers x y : 0 < y → x ≤ tl.cdiv x y * y.
Proof.
  intros Hy. unfold tl.cdiv.
  pose proof (Nat.div_mod_eq (x + y - 1) y) as Hdm.
  pose proof (Nat.mod_upper_bound (x + y - 1) y) as Hub. nia.
Qed.

Lemma cdiv_tight x y : 0 < y → 0 < x → (tl.cdiv x y - 1) * y < x.
Proof.
  intros Hy Hx. unfold tl.cdiv.
  pose proof (Nat.div_mod_eq (x + y - 1) y) as Hdm.
  pose proof (Nat.mod_upper_bound (x + y - 1) y) as Hub. nia.
Qed.

Lemma div_lt_cdiv o x y : 0 < y → o < x → o / y < tl.cdiv x y.
Proof.
  intros Hy Hox. pose proof (cdiv_covers x y Hy) as Hc.
  apply Nat.Div0.div_lt_upper_bound. lia.
Qed.

(** [next_power_of_2] never returns less than its argument. *)
Lemma lor_ge a b : (0 ≤ a)%Z → (0 ≤ b)%Z → (a ≤ Z.lor a b)%Z.
Proof.
  intros Ha Hb.
  assert (Z.lor a b = Z.lor a (Z.ldiff b a)) as ->.
  { apply Z.bits_inj'. intros n Hn.
    rewrite !Z.lor_spec, Z.ldiff_spec.
    destruct (Z.testbit a n), (Z.testbit b n); done. }
  rewrite <- Z.add_nocarry_lor.
  - assert (0 ≤ Z.ldiff b a)%Z by (apply Z.ldiff_nonneg; lia). lia.
  - apply Z.bits_inj'. intros n Hn.
    rewrite Z.land_spec, Z.ldiff_spec, Z.bits_0.
    destruct (Z.testbit a n), (Z.testbit b n); done.
Qed.

Lemma lor_shiftr_ge a k : (0 ≤ a)%Z → (a ≤ Z.lor a (Z.shiftr a k))%Z.
Proof. intros Ha. apply lor_ge; [done|]. by apply Z.shiftr_nonneg. Qed.

Lemma next_power_of_2_ge n : n ≤ tl.next_power_of_2 n.
Proof.
  destruct n as [|n]; [lia|]. unfold tl.next_power_of_2.
  set (a := (Z.of_nat (S n) - 1)%Z). assert (0 ≤ a)%Z as Ha by lia.
  pose proof (lor_shiftr_ge a 1 Ha) as H1.
  set (a1 := Z.lor a (Z.shiftr a 1)) in *.
  pose proof (lor_shiftr_ge a1 2 ltac:(lia)) as H2.
  set (a2 := Z.lor a1 (Z.shiftr a1 2)) in *.
  pose proof (lor_shiftr_ge a2 4 ltac:(lia)) as H3.
  set (a3 := Z.lor a2 (Z.shiftr a2 4)) in *.
  pose proof (lor_shiftr_ge a3 8 ltac:(lia)) as H4.
  set (a4 := Z.lor a3 (Z.shiftr a3 8)) in *.
  pose proof (lor_shiftr_ge a4 16 ltac:(lia)) as H5.
  set (a5 := Z.lor a4 (Z.shiftr a4 16)) in *.
  pose proof (lor_shiftr_ge a5 32 ltac:(lia)) as H6.
  lia.
Qed.

(** The block size compiles exactly when there is a column. *)
Lemma arange_valid_block cols :
  tl.arange_valid 0 (tl.next_power_of_2 cols) = true ↔ 0 < cols.
Proof.
  unfold tl.arange_valid. rewrite Nat.ltb_lt. split.
  - destruct cols; [by vm_compute|lia].
  - pose proof (next_power_of_2_ge cols). lia.
Qed.

Lemma jit_launch_valid {C B} (v : bool) (grid : list C) (kernel : C → B → B)
    out :
  v = true → jit_launch v grid kernel out = Returned (launch grid kernel out).
Proof. by intros ->. Qed.

Lemma jit_launch_invalid {C B} (v : bool) (grid : list C)
    (kernel : C → B → B) out :
  v = false → jit_launch v grid kernel out = Raised ValueError.
Proof. by intros ->. Qed.

(* ================================================================== *)
(** * Vector addition: lemmas *)

Section vector_add.
Context {T : Type} `{Arith T}.
Import VectorAdd.

Lemma add_offsets_lookup S pid k o :
  add_offsets S pid !! k = Some o ↔ k < S ∧ o = pid * S + k.
Proof. unfold add_offsets. rewrite arange_0. apply lookup_tab_Some. Qed.

Lemma add_mask_lookup n S pid k m :
  add_mask n S pid !! k = Some m ↔ k < S ∧ m = (pid * S + k <? n).
Proof.
  unfold add_mask, add_offsets. rewrite arange_0, <- list_fmap_compose.
  exact (lookup_tab_Some (λ a, pid * S + a <? n) S k m).
Qed.

(** Cell [pid] touches exactly the offsets of its block that lie below
    [n_elements]. *)
Lemma elem_of_add_touched n S pid o :
  o ∈ add_touched n S pid ↔ pid * S ≤ o < pid * S + S ∧ o < n.
Proof.
  unfold add_touched. rewrite elem_of_touched. split.
  - intros (k & [Hk ->]%add_offsets_lookup & [_ Hm]%add_mask_lookup).
    symmetry in Hm. apply Nat.ltb_lt in Hm. lia.
  - intros [Ho Hn]. exists (o - pid * S). split.
    + apply add_offsets_lookup. lia.
    + apply add_mask_lookup. split; [lia|].
      symmetry. apply Nat.ltb_lt. lia.
Qed.

(** The block an offset belongs to. *)
Lemma block_of_offset S pid o :
  0 < S → pid * S ≤ o < pid * S + S → pid = o / S.
Proof. intros HS Ho. apply (Nat.div_unique o S pid (o - pid * S)); lia. Qed.

Lemma offset_in_block S o : 0 < S → o / S * S ≤ o < o / S * S + S.
Proof.
  intros HS. pose proof (Nat.div_mod_eq o S).
  pose proof (Nat.mod_upper_bound o S). lia.
Qed.

Lemma add_kernel_commit dev x y n S pid out :
  add_kernel dev x y n S pid out = tl.commit out (add_writes dev x y n S pid).
Proof. done. Qed.

Lemma elem_of_add_writes dev x y n S pid o v :
  (o, v) ∈ add_writes dev x y n S pid ↔
  o ∈ add_touched n S pid ∧
  v = tadd (tl.read (past_fst dev) x o) (tl.read (past_snd dev) y o).
Proof.
  unfold add_writes, add_touched. rewrite elem_of_writes, elem_of_touched.
  split.
  - intros (k & Ho & Hv & Hm). split; [eauto|].
    rewrite lookup_zip_with in Hv.
    rewrite (lookup_load _ _ _ _ _ _ _ _ Ho Hm) in Hv.
    rewrite (lookup_load _ _ _ _ _ _ _ _ Ho Hm) in Hv.
    simpl in Hv. by simplify_eq.
  - intros [(k & Ho & Hm) ->]. exists k. split_and!; [done| |done].
    rewrite lookup_zip_with.
    rewrite (lookup_load _ _ _ _ _ _ _ _ Ho Hm).
    rewrite (lookup_load _ _ _ _ _ _ _ _ Ho Hm). done.
Qed.

Lemma add_launch_lookup S dev x y i :
  0 < S → length y = length x → i < length x →
  launch (add_grid (length x) S) (add_kernel dev x y (length x) S)
         (empty_like dev x) !! i
  = Some (tadd (tl.read (past_fst dev) x i) (tl.read (past_snd dev) y i)).
Proof.
  intros HS Hy Hi.
  rewrite (launch_commit _ (add_writes dev x y (length x) S))
    by (intros; apply add_kernel_commit).
  apply commit_lookup_written.
  - intros v' (pid & [_ ->]%elem_of_add_writes & _)%list_elem_of_bind. done.
  - eexists. apply list_elem_of_bind. exists (i / S). split.
    + apply elem_of_add_writes. split; [|done].
      apply elem_of_add_touched. split; [by apply offset_in_block|done].
    + apply elem_of_grid1. by apply div_lt_cdiv.
  - unfold empty_like. by rewrite length_fmap, length_seq.
Qed.

End vector_add.

(* ================================================================== *)
(** * Softmax: lemmas *)

(* ================================================================== *)
(** * Rows of a row-major buffer *)

Section rows.
Context {A : Type}.
Implicit Types (buf : list A).

Lemma row_of_length cols buf i rows :
  length buf = rows * cols → i < rows → length (row_of cols buf i) = cols.
Proof.
  intros Hlen Hi. unfold row_of. rewrite length_take, length_drop. nia.
Qed.

Lemma row_of_lookup cols buf i k :
  k < cols → row_of cols buf i !! k = buf !! (i * cols + k).
Proof. intros Hk. unfold row_of. by rewrite lookup_take_lt, lookup_drop. Qed.

Lemma row_of_fmap {B} (f : A → B) cols buf i :
  row_of cols (f <$> buf) i = f <$> row_of cols buf i.
Proof. unfold row_of. by rewrite fmap_take, fmap_drop. Qed.

(** A cell is the cell [(i, k)] of one row only. *)
Lemma row_major_inj cols i k i' k' :
  k < cols → k' < cols → i * cols + k = i' * cols + k' → i = i' ∧ k = k'.
Proof.
  intros Hk Hk' Heq.
  assert (i = (i * cols + k) / cols) as Hi
    by (apply (Nat.div_unique _ cols i k); lia).
  assert (i' = (i * cols + k) / cols) as Hi'
    by (apply (Nat.div_unique _ cols i' k'); lia).
  assert (i = i') as <- by congruence. split; [done|lia].
Qed.

End rows.

Section softmax_rows.
Import Softmax.

Lemma row_offset_lookup C B pid k o :
  row_offset C B pid !! k = Some o ↔ k < B ∧ o = pid * C + k.
Proof. unfold row_offset. rewrite arange_0. apply lookup_tab_Some. Qed.

Lemma row_mask_lookup C B pid k m :
  row_mask C B pid !! k = Some m ↔ k < B ∧ m = (k <? C).
Proof.
  unfold row_mask, row_offset. rewrite arange_0, <- list_fmap_compose.
  rewrite (lookup_tab_Some _ B k m). simpl.
  assert ((pid * C + k <? pid * C + C) = (k <? C)) as ->; [|done].
  destruct (Nat.ltb_spec k C), (Nat.ltb_spec (pid * C + k) (pid * C + C)); lia.
Qed.

Lemma elem_of_row_touched C B pid o :
  C ≤ B → o ∈ row_touched C B pid ↔ pid * C ≤ o < pid * C + C.
Proof.
  intros HB. unfold row_touched. rewrite elem_of_touched. split.
  - intros (k & [Hk ->]%row_offset_lookup & [_ Hm]%row_mask_lookup).
    symmetry in Hm. apply Nat.ltb_lt in Hm. lia.
  - intros Ho. exists (o - pid * C). split.
    + apply row_offset_lookup. lia.
    + apply row_mask_lookup. split; [lia|]. symmetry. apply Nat.ltb_lt. lia.
Qed.

(** A masked load of row [pid]: the row, then the fill value. *)
Lemma load_row {T} (past : nat → T) (buf : list T) rows C B pid other :
  C ≤ B → length buf = rows * C → pid < rows →
  tl.load past buf (row_offset C B pid) (row_mask C B pid) other
  = row_of C buf pid ++ replicate (B - C) other.
Proof.
  intros HB Hlen Hpid. apply list_eq. intros k.
  destruct (decide (k < B)) as [Hk|Hk].
  - rewrite (lookup_load _ _ _ _ _ k (pid * C + k) (k <? C))
      by (by apply row_offset_lookup || by apply row_mask_lookup).
    destruct (Nat.ltb_spec k C) as [HkC|HkC].
    + rewrite lookup_app_l by (by erewrite row_of_length).
      rewrite row_of_lookup by done.
      destruct (lookup_lt_is_Some_2 buf (pid * C + k)) as [v Hv]; [nia|].
      rewrite Hv. f_equal. by apply read_in_bounds.
    + rewrite lookup_app_r by (erewrite row_of_length; done).
      erewrite row_of_length by done. symmetry. apply lookup_replicate_2. lia.
  - rewrite !lookup_ge_None_2; [done| |].
    + rewrite length_app, length_replicate. erewrite row_of_length by done. lia.
    + unfold tl.load. rewrite length_zip_with. unfold row_offset.
      rewrite length_fmap, arange_0, length_seq. lia.
Qed.

End softmax_rows.

Section real_rows.
Import Reference.
Local Open Scope R_scope.

Lemma Rsum_app l l' : Rsum (l ++ l') = Rsum l + Rsum l'.
Proof. unfold Rsum. induction l as [|x l IH]; simpl; [lra|]. rewrite IH. lra. Qed.

Lemma Rsum_replicate_0 p : Rsum (replicate p 0) = 0.
Proof. unfold Rsum. induction p as [|p IH]; simpl; [done|]. rewrite IH. lra. Qed.

Lemma Rsum_scale c l : Rsum ((λ x, x / c) <$> l) = Rsum l / c.
Proof.
  unfold Rsum. induction l as [|x l IH]; simpl; [lra|].
  fold (fmap (M:=list) (λ x, x / c) l). rewrite IH. lra.
Qed.

Lemma Rsum_opp l : Rsum (Ropp <$> l) = - Rsum l.
Proof.
  unfold Rsum. induction l as [|x l IH]; simpl; [lra|].
  fold (fmap (M:=list) Ropp l). rewrite IH. lra.
Qed.

Lemma Rsum_exp_pos m l : l ≠ [] → 0 < Rsum ((λ x, exp (x - m)) <$> l).
Proof.
  assert (∀ l' : list R, 0 <= Rsum ((λ x, exp (x - m)) <$> l')) as Hnn.
  { unfold Rsum. induction l' as [|x l' IH]; simpl; [lra|].
    fold (fmap (M:=list) (λ x, exp (x - m)) l').
    pose proof (exp_pos (x - m)). lra. }
  destruct l as [|x l]; [done|]. intros _. unfold Rsum. simpl.
  fold (fmap (M:=list) (λ x, exp (x - m)) l).
  pose proof (exp_pos (x - m)). specialize (Hnn l). unfold Rsum in Hnn. lra.
Qed.

(** The sum of [(dy_i * a + c) * e_i] splits into two sums. *)
Lemma Rsum_affine a c (dy e : list R) :
  length dy = length e →
  Rsum (zip_with Rmult ((λ g, g + c) <$> ((λ dyi, dyi * a) <$> dy)) e)
  = a * Rsum (zip_with Rmult dy e) + c * Rsum e.
Proof.
  revert e. unfold Rsum.
  induction dy as [|d dy IH]; intros [|x e] Hlen; simplify_eq/=; [lra|].
  rewrite IH by done. lra.
Qed.

Lemma Rsum_zero_tail (f : R → R) (g x : list R) :
  length g = length x →
  Rsum (zip_with (λ gi xi, gi + 0 * f xi) g x) = Rsum g.
Proof.
  revert x. unfold Rsum.
  induction g as [|gi g IH]; intros [|xi x] Hlen; simplify_eq/=; [done|].
  rewrite IH by done. lra.
Qed.

Lemma softmax_row_length row : length (softmax_row row) = length row.
Proof. unfold softmax_row. by rewrite !length_fmap. Qed.

(** A softmax row sums to one. *)
Lemma softmax_row_sum row : row ≠ [] → Rsum (softmax_row row) = 1.
Proof.
  intros Hne. unfold softmax_row. rewrite Rsum_scale.
  pose proof (Rsum_exp_pos (Rlist_max row) row Hne). field. lra.
Qed.

Lemma normed_grad_length x dy :
  length dy = length x → length (normed_grad x dy) = length x.
Proof.
  intros Hlen. unfold normed_grad.
  rewrite length_zip_with, !length_fmap. lia.
Qed.

(** The normalised gradient sums to zero, so the gradient routed to the
    maximum vanishes in exact arithmetic. *)
Lemma normed_grad_sum x dy :
  x ≠ [] → length dy = length x → Rsum (normed_grad x dy) = 0.
Proof.
  intros Hne Hlen. unfold normed_grad.
  rewrite Rsum_affine by (by rewrite length_fmap).
  pose proof (Rsum_exp_pos (Rlist_max x) x Hne). field. lra.
Qed.

Lemma softmax_bwd_row_length x dy :
  length dy = length x → length (softmax_bwd_row x dy) = length x.
Proof.
  intros Hlen. unfold softmax_bwd_row.
  rewrite length_zip_with, normed_grad_length by done. lia.
Qed.

Lemma softmax_bwd_row_sum x dy :
  length dy = length x → Rsum (softmax_bwd_row x dy) = 0.
Proof.
  intros Hlen. destruct (decide (x = [])) as [->|Hne].
  { destruct dy; [done|done]. }
  unfold softmax_bwd_row, max_grad. rewrite normed_grad_sum by done.
  replace (- 0) with 0 by lra.
  rewrite (Rsum_zero_tail (indicator (Rlist_max x)))
    by (by apply normed_grad_length).
  by apply normed_grad_sum.
Qed.

End real_rows.

Section xreal_blocks.
Import Reference Softmax.
Local Open Scope R_scope.

Lemma softmax_fwd_kernel_store dev x_ptr x_rows x_cols B pid out :
  softmax_fwd_kernel dev x_ptr x_rows x_cols B pid out
  = tl.store out (row_offset x_cols B pid)
      (fwd_block (tl.load (past_fst dev) x_ptr (row_offset x_cols B pid)
                    (row_mask x_cols B pid) neg_inf))
      (row_mask x_cols B pid).
Proof. done. Qed.

Lemma softmax_bwd_kernel_store dev x_ptr dy_ptr x_rows x_cols B pid out :
  softmax_bwd_kernel dev x_ptr dy_ptr x_rows x_cols B pid out
  = tl.store out (row_offset x_cols B pid)
      (bwd_block
         (tl.load (past_fst dev) x_ptr (row_offset x_cols B pid)
            (row_mask x_cols B pid) neg_inf)
         (tl.load (past_snd dev) dy_ptr (row_offset x_cols B pid)
            (row_mask x_cols B pid) (Fin 0)))
      (row_mask x_cols B pid).
Proof. done. Qed.

Lemma padded_length p a z : length (padded p a z) = (length a + p)%nat.
Proof. unfold padded. by rewrite length_app, length_fmap, length_replicate. Qed.

Lemma padded_lookup p a z k r :
  a !! k = Some r → padded p a z !! k = Some (Fin r).
Proof.
  intros Hk. unfold padded. rewrite lookup_app_l.
  - by rewrite list_lookup_fmap, Hk.
  - rewrite length_fmap. by eapply lookup_lt_Some.
Qed.

Lemma padded_fmap (g : xreal → xreal) (g' : R → R) p a z :
  (∀ r, g (Fin r) = Fin (g' r)) →
  g <$> padded p a z = padded p (g' <$> a) (g' z).
Proof.
  intros Hg. unfold padded.
  rewrite fmap_app, fmap_replicate, Hg, <- !list_fmap_compose.
  f_equal. apply list_fmap_ext. intros _ r _. apply Hg.
Qed.

Lemma padded_zip (f : xreal → xreal → xreal) (f' : R → R → R) p a b z w :
  (∀ r s, f (Fin r) (Fin s) = Fin (f' r s)) →
  length a = length b →
  zip_with f (padded p a z) (padded p b w)
  = padded p (zip_with f' a b) (f' z w).
Proof.
  intros Hf Hlen. unfold padded.
  rewrite zip_with_app by (by rewrite !length_fmap).
  rewrite zip_with_replicate, Hf. f_equal.
  rewrite zip_with_fmap_l, zip_with_fmap_r.
  clear Hlen. revert b. induction a as [|r a IH]; intros [|s b]; simpl; [done..|].
  by rewrite Hf, IH.
Qed.

Lemma sum_fin (acc : R) (l : list R) :
  foldl xadd (Fin acc) (Fin <$> l) = Fin (acc + Rsum l).
Proof.
  revert acc. unfold Rsum. induction l as [|x l IH]; intros acc; simpl.
  - f_equal. lra.
  - rewrite IH. f_equal. lra.
Qed.

Lemma padded_sum p a : tl.sum (padded p a 0) = Fin (Rsum a).
Proof.
  unfold tl.sum, padded. simpl. rewrite foldl_app, sum_fin.
  replace (replicate p (Fin 0)) with (Fin <$> replicate p 0)
    by apply fmap_replicate.
  rewrite sum_fin, Rsum_replicate_0. f_equal. lra.
Qed.

Lemma tl_max_masked_row p a :
  a ≠ [] → tl_max (masked_row p a) = Fin (Rlist_max a).
Proof.
  intros Hne. unfold tl_max, masked_row. rewrite foldr_app.
  assert (foldr xmax NInf (replicate p neg_inf) = NInf) as ->.
  { induction p as [|p IH]; simpl; [done|]. by rewrite IH. }
  induction a as [|x a IH]; [done|].
  destruct a as [|y a]; [done|].
  change (xmax (Fin x) (foldr xmax NInf (Fin <$> y :: a))
          = Fin (Rmax x (Rlist_max (y :: a)))).
  by rewrite IH.
Qed.

(** What the forward kernel computes from a loaded row. *)
Lemma fwd_block_masked_row p a :
  a ≠ [] → ∃ z, fwd_block (masked_row p a) = padded p (softmax_row a) z.
Proof.
  intros Hne. unfold fwd_block. rewrite tl_max_masked_row by done.
  set (m := Rlist_max a).
  assert (xexp <$> ((λ v, xsub v (Fin m)) <$> masked_row p a)
          = padded p ((λ x, exp (x - m)) <$> a) 0) as ->.
  { unfold masked_row, padded.
    rewrite !fmap_app, !fmap_replicate, <- !list_fmap_compose. done. }
  rewrite padded_sum.
  pose proof (Rsum_exp_pos m a Hne) as Hpos.
  eexists. unfold softmax_row. fold m.
  rewrite <- list_fmap_compose.
  rewrite (padded_fmap _ (λ e, e / Rsum ((λ x, exp (x - m)) <$> a))).
  - rewrite <- list_fmap_compose. done.
  - intros r. simpl. destruct (Req_dec_T _ 0); [lra|done].
Qed.

End xreal_blocks.


Section xreal_bwd.
Import Reference Softmax.
Local Open Scope R_scope.

Lemma padded_sum_0 p a z : z = 0 → tl.sum (padded p a z) = Fin (Rsum a).
Proof. intros ->. apply padded_sum. Qed.

Lemma where_full (cond : list bool) a b :
  where_ cond (full (length cond) a) (full (length cond) b)
  = (λ c : bool, if c then a else b) <$> cond.
Proof.
  unfold where_, full. rewrite zip_with_replicate.
  by rewrite zip_with_replicate_r_eq.
Qed.

(** What the backward kernel computes from the two loaded rows. *)
Lemma bwd_block_masked_row p x dy :
  x ≠ [] → length dy = length x →
  ∃ z, bwd_block (masked_row p x) (padded p dy 0)
       = padded p (softmax_bwd_row x dy) z.
Proof.
  intros Hne Hlen. unfold bwd_block. cbv zeta.
  rewrite tl_max_masked_row by done.
  set (m := Rlist_max x).
  set (e := (λ xi, exp (xi - m)) <$> x).
  assert (xexp <$> ((λ v, xsub v (Fin m)) <$> masked_row p x) = padded p e 0)
    as ->.
  { unfold masked_row, padded, e.
    rewrite !fmap_app, !fmap_replicate, <- !list_fmap_compose. done. }
  rewrite padded_sum. set (d := Rsum e).
  assert (0 < d) as Hd by (by apply Rsum_exp_pos).
  assert (length e = length x) as He by (unfold e; by rewrite length_fmap).
  assert (xdiv (Fin 1) (Fin d) = Fin (1 / d)) as ->.
  { simpl. destruct (Req_dec_T d 0); [lra|done]. }
  rewrite (padded_fmap _ (λ dyi, dyi * (1 / d))) by done.
  rewrite (padded_zip xmul Rmult) by (done || congruence).
  rewrite padded_sum_0 by lra.
  set (ig := Rsum (zip_with Rmult dy e)).
  assert (xmul (xdiv (Fin (-1)) (xmul (Fin d) (Fin d))) (Fin ig)
          = Fin (-1 / (d * d) * ig)) as ->.
  { simpl. destruct (Req_dec_T (d * d) 0); [nra|done]. }
  set (dg := -1 / (d * d) * ig).
  rewrite padded_length, length_fmap.
  assert (zip_with xmul
            (zip_with xadd
               (padded p ((λ dyi, dyi * (1 / d)) <$> dy) (0 * (1 / d)))
               ((λ one, xmul one (Fin dg)) <$> full (length dy + p) (Fin 1)))
            (padded p e 0)
          = padded p (normed_grad x dy) ((0 * (1 / d) + 1 * dg) * 0)) as ->.
  { unfold full. rewrite fmap_replicate.
    rewrite zip_with_replicate_r_eq by (by rewrite padded_length, length_fmap).
    rewrite (padded_fmap _ (λ g, g + 1 * dg)) by done.
    rewrite (padded_zip xmul Rmult)
      by (done || rewrite !length_fmap; congruence).
    f_equal. unfold normed_grad. fold m e d ig. f_equal.
    apply list_fmap_ext. intros _ g _. unfold dg. field. lra. }
  rewrite (padded_fmap xopp Ropp) by done.
  rewrite padded_sum_0 by lra.
  rewrite Rsum_opp. fold (max_grad x dy).
  rewrite padded_length.
  assert (length (normed_grad x dy) + p = length (masked_row p x))%nat as ->.
  { unfold masked_row.
    rewrite length_app, length_fmap, length_replicate, normed_grad_length; done. }
  rewrite <- (length_fmap (λ v, xeqb v (Fin m)) (masked_row p x)).
  rewrite where_full.
  assert ((λ w, xmul (Fin (max_grad x dy)) w)
            <$> ((λ c : bool, if c then Fin 1 else Fin 0)
                   <$> ((λ v, xeqb v (Fin m)) <$> masked_row p x))
          = padded p ((λ xi, max_grad x dy * indicator m xi) <$> x)
                     (max_grad x dy * 0)) as ->.
  { unfold masked_row, padded.
    rewrite !fmap_app, !fmap_replicate, <- !list_fmap_compose. f_equal.
    apply list_fmap_ext. intros _ xi _. simpl. unfold indicator.
    destruct (Req_dec_T xi m); done. }
  rewrite (padded_zip xadd Rplus)
    by (done || rewrite length_fmap; by apply normed_grad_length).
  eexists. f_equal. unfold softmax_bwd_row. fold m.
  by rewrite zip_with_fmap_r.
Qed.

End xreal_bwd.


Section softmax_launch.
Import Reference Softmax.

(** With at least one column the block size compiles and the hosts return
    the buffer of the launch; with none they raise. *)
Lemma softmax_fwd_returns dev (x : tensor xreal) :
  0 < t_cols x →
  softmax_fwd dev x
  = Returned
      (Tensor (t_dtype x) (t_rows x) (t_cols x)
         (launch (grid1 (t_rows x))
            (softmax_fwd_kernel dev (t_data x) (t_rows x) (t_cols x)
               (tl.next_power_of_2 (t_cols x)))
            (uninit dev <$> seq 0 (length (t_data x))))).
Proof.
  intros Hc. unfold softmax_fwd. cbv zeta.
  by rewrite jit_launch_valid by (by apply arange_valid_block).
Qed.

Lemma Softmax_backward_returns dev (x dy : tensor xreal) :
  0 < t_cols x →
  Softmax_backward dev x dy
  = Returned
      (Tensor (t_dtype x) (t_rows x) (t_cols x)
         (launch (grid1 (t_rows x))
            (softmax_bwd_kernel dev (t_data x) (t_data dy) (t_rows x)
               (t_cols x) (tl.next_power_of_2 (t_cols x)))
            (uninit dev <$> seq 0 (length (t_data x))))).
Proof.
  intros Hc. unfold Softmax_backward. cbv zeta.
  by rewrite jit_launch_valid by (by apply arange_valid_block).
Qed.

Lemma softmax_hosts_raise dev (x dy : tensor xreal) :
  t_cols x = 0 →
  softmax_fwd dev x = Raised ValueError ∧
  Softmax_forward dev x = Raised ValueError ∧
  Softmax_backward dev x dy = Raised ValueError.
Proof.
  intros Hc. unfold Softmax_forward, softmax_fwd, Softmax_backward. cbv zeta.
  rewrite Hc. done.
Qed.

(** A launch over the rows whose cell [pid] stores a block that holds the
    reals [f pid] on its true lanes writes row [i] as [f i]. *)
Lemma launch_rows (kernel : nat → list xreal → list xreal)
    (block : nat → list xreal) (f : nat → list R) rows C B init i :
  C ≤ B → length init = rows * C →
  (∀ pid out, kernel pid out
     = tl.store out (row_offset C B pid) (block pid) (row_mask C B pid)) →
  (∀ pid, pid < rows →
     length (f pid) = C ∧ ∃ z, block pid = padded (B - C) (f pid) z) →
  i < rows →
  row_of C (launch (grid1 rows) kernel init) i = Fin <$> f i.
Proof.
  intros HB Hinit Hk Hblock Hi.
  rewrite (launch_commit _
             (λ pid, tl.writes (row_offset C B pid) (block pid)
                       (row_mask C B pid))) by (intros; apply Hk).
  destruct (Hblock i Hi) as [Hfi _].
  apply list_eq. intros k. destruct (decide (k < C)) as [HkC|HkC].
  - rewrite row_of_lookup by done.
    destruct (lookup_lt_is_Some_2 (f i) k) as [r Hr]; [lia|].
    rewrite list_lookup_fmap, Hr. simpl.
    apply commit_lookup_written.
    + intros v' (pid & Hw & Hpid%elem_of_grid1)%list_elem_of_bind.
      apply elem_of_writes in Hw as (k' & [Hk' Ho]%row_offset_lookup & Hv
                                     & [_ Hm]%row_mask_lookup).
      symmetry in Hm. apply Nat.ltb_lt in Hm.
      destruct (row_major_inj C i k pid k') as [<- <-]; [done..|].
      destruct (Hblock i Hi) as [_ [z Hz]]. rewrite Hz in Hv.
      rewrite (padded_lookup _ _ _ _ _ Hr) in Hv. by simplify_eq.
    + exists (Fin r). apply list_elem_of_bind. exists i.
      split; [|by apply elem_of_grid1].
      apply elem_of_writes. exists k. split_and!.
      * apply row_offset_lookup. split; [lia|done].
      * destruct (Hblock i Hi) as [_ [z ->]]. by apply padded_lookup.
      * apply row_mask_lookup. split; [lia|]. symmetry. by apply Nat.ltb_lt.
    + nia.
  - rewrite !lookup_ge_None_2; [done| |].
    + rewrite length_fmap. lia.
    + unfold row_of. rewrite length_take. lia.
Qed.

Lemma softmax_fwd_row dev (d : dtype) rows cols (xs : list R) i :
  0 < cols → length xs = rows * cols → i < rows →
  ∃ out, softmax_fwd dev (Tensor d rows cols (Fin <$> xs)) = Returned out ∧
         t_rows out = rows ∧ t_cols out = cols ∧
         row_of cols (t_data out) i = Fin <$> softmax_row (row_of cols xs i).
Proof.
  intros Hc Hlen Hi. rewrite softmax_fwd_returns by done.
  eexists. split; [reflexivity|].
  split_and!; [reflexivity..|]. cbn [t_data t_rows t_cols].
  pose proof (next_power_of_2_ge cols) as HB.
  apply (launch_rows
    (softmax_fwd_kernel dev (Fin <$> xs) rows cols (tl.next_power_of_2 cols))
    (λ pid, fwd_block
       (tl.load (past_fst dev) (Fin <$> xs)
          (row_offset cols (tl.next_power_of_2 cols) pid)
          (row_mask cols (tl.next_power_of_2 cols) pid) neg_inf))
    (λ pid, softmax_row (row_of cols xs pid))
    rows cols (tl.next_power_of_2 cols)).
  - exact HB.
  - by rewrite length_fmap, length_seq, length_fmap.
  - intros pid out. apply softmax_fwd_kernel_store.
  - intros pid Hpid. rewrite softmax_row_length.
    split; [by eapply row_of_length|].
    rewrite (load_row _ _ rows) by (done || by rewrite length_fmap).
    rewrite row_of_fmap. apply fwd_block_masked_row.
    intros Hnil. apply (f_equal length) in Hnil.
    erewrite row_of_length in Hnil by done. simpl in Hnil. lia.
  - exact Hi.
Qed.

Lemma softmax_bwd_row dev (d d' : dtype) rows cols (xs dys : list R) i :
  0 < cols → length xs = rows * cols → length dys = rows * cols → i < rows →
  ∃ out, Softmax_backward dev (Tensor d rows cols (Fin <$> xs))
           (Tensor d' rows cols (Fin <$> dys)) = Returned out ∧
         t_rows out = rows ∧ t_cols out = cols ∧
         row_of cols (t_data out) i
         = Fin <$> softmax_bwd_row (row_of cols xs i) (row_of cols dys i).
Proof.
  intros Hc Hlen Hlen' Hi. rewrite Softmax_backward_returns by done.
  eexists. split; [reflexivity|].
  split_and!; [reflexivity..|]. cbn [t_data t_rows t_cols].
  pose proof (next_power_of_2_ge cols) as HB.
  apply (launch_rows
    (softmax_bwd_kernel dev (Fin <$> xs) (Fin <$> dys) rows cols
       (tl.next_power_of_2 cols))
    (λ pid, bwd_block
       (tl.load (past_fst dev) (Fin <$> xs)
          (row_offset cols (tl.next_power_of_2 cols) pid)
          (row_mask cols (tl.next_power_of_2 cols) pid) neg_inf)
       (tl.load (past_snd dev) (Fin <$> dys)
          (row_offset cols (tl.next_power_of_2 cols) pid)
          (row_mask cols (tl.next_power_of_2 cols) pid) (Fin 0)))
    (λ pid, softmax_bwd_row (row_of cols xs pid) (row_of cols dys pid))
    rows cols (tl.next_power_of_2 cols)).
  - exact HB.
  - by rewrite length_fmap, length_seq, length_fmap.
  - intros pid out. apply softmax_bwd_kernel_store.
  - intros pid Hpid.
    assert (length (row_of cols xs pid) = cols) as Hx by by eapply row_of_length.
    assert (length (row_of cols dys pid) = cols) as Hdy
      by by eapply row_of_length.
    rewrite softmax_bwd_row_length by congruence. split; [done|].
    rewrite !(load_row _ _ rows) by (done || by rewrite length_fmap).
    rewrite !row_of_fmap. apply bwd_block_masked_row; [|congruence].
    intros Hnil. rewrite Hnil in Hx. simpl in Hx. lia.
  - exact Hi.
Qed.

End softmax_launch.

(* ================================================================== *)
(** * Tabulated blocks and sums *)

Section tabulate.
Context {A : Type}.

Lemma flat_tab_length (f : nat → nat → A) m n :
  length (i ← seq 0 m; f i <$> seq 0 n) = m * n.
Proof.
  induction m as [|m IH]; [done|].
  rewrite seq_S, bind_app, length_app, IH. simpl.
  rewrite length_app, length_fmap, length_seq. simpl. lia.
Qed.

Lemma flat_tab_lookup (f : nat → nat → A) m n i j :
  i < m → j < n → (i ← seq 0 m; f i <$> seq 0 n) !! (i * n + j) = Some (f i j).
Proof.
  intros Hi Hj. induction m as [|m IH]; [lia|].
  rewrite seq_S, bind_app. simpl. rewrite app_nil_r.
  destruct (decide (i < m)) as [Him|Him].
  - rewrite lookup_app_l by (rewrite flat_tab_length; nia). by apply IH.
  - assert (i = m) as -> by lia.
    rewrite lookup_app_r by (rewrite flat_tab_length; lia).
    rewrite flat_tab_length. replace (m * n + j - m * n) with j by lia.
    by apply lookup_tab.
Qed.

Lemma load_tab (past : nat → A) (buf : list A) (fo : nat → nat)
    (fm : nat → bool) other n :
  tl.load past buf (fo <$> seq 0 n) (fm <$> seq 0 n) other
  = (λ k, if fm k then tl.read past buf (fo k) else other) <$> seq 0 n.
Proof.
  unfold tl.load.
  by rewrite zip_with_fmap_l, zip_with_fmap_r, zip_with_diag.
Qed.

Lemma zip_with_tab {B C} (f : A → B → C) (g : nat → A) (h : nat → B) n :
  zip_with f (g <$> seq 0 n) (h <$> seq 0 n) = (λ k, f (g k) (h k)) <$> seq 0 n.
Proof. by rewrite zip_with_fmap_l, zip_with_fmap_r, zip_with_diag. Qed.

Lemma tab_ext {B} (g h : nat → B) n :
  (∀ k, k < n → g k = h k) → g <$> seq 0 n = h <$> seq 0 n.
Proof.
  intros Hext. apply list_fmap_ext. intros i k [-> Hk]%lookup_seq.
  by apply Hext.
Qed.

End tabulate.

Section sums.
Context {T : Type} `{ExactArith T}.

Lemma foldl_tadd_ext (g h : nat → T) (l : list nat) a :
  (∀ k, k ∈ l → g k = h k) →
  foldl (λ acc k, tadd acc (g k)) a l = foldl (λ acc k, tadd acc (h k)) a l.
Proof.
  revert a. induction l as [|k l IH]; intros a Hext; simpl; [done|].
  rewrite Hext by left. apply IH. intros k' Hk'. apply Hext. by right.
Qed.

Lemma foldl_tadd_zero (g : nat → T) (l : list nat) a :
  (∀ k, k ∈ l → g k = tzero) → foldl (λ acc k, tadd acc (g k)) a l = a.
Proof.
  revert a. induction l as [|k l IH]; intros a Hz; simpl; [done|].
  rewrite Hz by left. rewrite tadd_0_r. apply IH.
  intros k' Hk'. apply Hz. by right.
Qed.

(** A sum started from [a] is [a] plus the sum started from zero. *)
Lemma foldl_tadd_acc (g : nat → T) (l : list nat) a :
  foldl (λ acc k, tadd acc (g k)) a l
  = tadd a (foldl (λ acc k, tadd acc (g k)) tzero l).
Proof.
  revert a. induction l as [|k l IH] using rev_ind; intros a; simpl.
  - by rewrite tadd_0_r.
  - rewrite !foldl_snoc, IH. by rewrite tadd_assoc.
Qed.

End sums.

(* ================================================================== *)
(** * Row-times-column matmul: lemmas *)

Section naive.
Context {T : Type} `{ExactArith T}.
Import NaiveMatmul.

Lemma naive_kernel_store dev x y x_rows x_cols y_rows y_cols B pid out :
  matmul_kernel dev x y x_rows x_cols y_rows y_cols B pid out
  = tl.commit out
      [(output_offset y_cols pid.1 pid.2, cell_output dev x y x_cols y_rows B pid)].
Proof. done. Qed.

Lemma transpose_lookup (Y : tensor T) j k :
  j < t_cols Y → k < t_rows Y →
  t_data (transpose_contiguous Y) !! (j * t_rows Y + k)
  = Some (tget tzero Y k j).
Proof.
  intros Hj Hk. unfold transpose_contiguous. simpl.
  by rewrite (flat_tab_lookup (λ j k, tget tzero Y k j)).
Qed.

(** One cell computes the dot product of the first [min x_cols y_rows]
    entries of its row of X and its column of Y. *)
Lemma cell_output_dot dev (X Y : tensor T) B i j :
  well_formed X → t_cols X ≤ B → i < t_rows X → j < t_cols Y →
  cell_output dev (t_data X) (t_data (transpose_contiguous Y))
    (t_cols X) (t_rows Y) B (i, j)
  = Reference.dot_product X Y (t_cols X `min` t_rows Y) i j.
Proof.
  intros HX HB Hi Hj. unfold cell_output, Reference.dot_product. simpl.
  unfold x_mask, y_mask, x_row_offset, y_col_offset. cbv zeta.
  rewrite !arange_0, <- !list_fmap_compose, !load_tab, zip_with_tab.
  unfold tl.sum. rewrite foldl_fmap.
  set (n := t_cols X `min` t_rows Y).
  replace B with (n + (B - n)) by lia.
  rewrite seq_app, foldl_app. simpl.
  rewrite (foldl_tadd_zero _ (seq n (B - n))).
  - apply foldl_tadd_ext. intros k [_ Hk]%elem_of_seq. simpl in Hk.
    unfold compose.
    destruct (Nat.ltb_spec (i * t_cols X + k) (i * t_cols X + t_cols X));
      [|lia].
    destruct (Nat.ltb_spec (j * t_rows Y + k) (j * t_rows Y + t_rows Y));
      [|lia].
    f_equal.
    + unfold tl.read, tget.
      destruct (lookup_lt_is_Some_2 (t_data X) (i * t_cols X + k)) as [v ->];
        [unfold well_formed in HX; nia|done].
    + unfold tl.read. rewrite transpose_lookup by lia. done.
  - intros k [Hk _]%elem_of_seq. unfold compose.
    destruct (Nat.ltb_spec (i * t_cols X + k) (i * t_cols X + t_cols X));
      [|by rewrite tmul_0_l].
    destruct (Nat.ltb_spec (j * t_rows Y + k) (j * t_rows Y + t_rows Y));
      [lia|by rewrite tmul_0_r].
Qed.

Lemma naive_matmul_data dev (X Y : tensor T) :
  well_formed X →
  launch (matmul_grid X Y)
    (matmul_kernel dev (t_data X) (t_data (transpose_contiguous Y))
       (t_rows X) (t_cols X) (t_rows Y) (t_cols Y)
       (tl.next_power_of_2 (t_cols X)))
    (t_data (torch_empty dev (t_rows X) (t_cols Y)))
  = Reference.matmul_data X Y (t_cols X `min` t_rows Y).
Proof.
  intros HX.
  rewrite (launch_commit _
    (λ pid, [(output_offset (t_cols Y) pid.1 pid.2,
              cell_output dev (t_data X) (t_data (transpose_contiguous Y))
                (t_cols X) (t_rows Y) (tl.next_power_of_2 (t_cols X)) pid)]))
    by (intros; apply naive_kernel_store).
  apply list_eq. intros o. unfold Reference.matmul_data.
  destruct (decide (o < t_rows X * t_cols Y)) as [Ho|Ho].
  - assert (0 < t_cols Y) as Hc by nia.
    pose proof (Nat.div_mod_eq o (t_cols Y)) as Hdm.
    pose proof (Nat.mod_upper_bound o (t_cols Y) ltac:(lia)) as Hmod.
    remember (o / t_cols Y) as i eqn:Ei. remember (o mod t_cols Y) as j eqn:Ej.
    assert (i < t_rows X) as Hi by nia.
    assert (o = i * t_cols Y + j) as Hoij by lia.
    clear Ei Ej Hdm. subst o.
    rewrite (flat_tab_lookup (λ i j, Reference.dot_product X Y _ i j)) by done.
    apply commit_lookup_written.
    + intros v' ([i' j'] & Hw & [Hi' Hj']%elem_of_grid2)%list_elem_of_bind.
      apply list_elem_of_singleton in Hw. simpl in *.
      injection Hw as Hoff ->. unfold output_offset in Hoff.
      destruct (row_major_inj (t_cols Y) i j i' j') as [<- <-]; [done..|].
      apply cell_output_dot; [done|apply next_power_of_2_ge|done..].
    + eexists. apply list_elem_of_bind. exists (i, j).
      split; [apply list_elem_of_singleton; done|].
      by apply elem_of_grid2.
    + simpl. by rewrite length_fmap, length_seq.
  - rewrite !lookup_ge_None_2; [done| |].
    + rewrite (flat_tab_length (λ i j, Reference.dot_product X Y _ i j)). lia.
    + rewrite commit_length. simpl. rewrite length_fmap, length_seq. lia.
Qed.

End naive.


(* ================================================================== *)
(** * 2-D blocks *)

Section blocks.
Import TiledMatmul.
Context {A : Type}.

Lemma tab2_ext (f g : nat → nat → A) m n :
  (∀ i j, i < m → j < n → f i j = g i j) → tab2 m n f = tab2 m n g.
Proof.
  intros Hext. unfold tab2. apply tab_ext. intros i Hi.
  apply tab_ext. intros j Hj. by apply Hext.
Qed.

Lemma tab2_lookup (f : nat → nat → A) m n i :
  i < m → tab2 m n f !! i = Some ((λ j, f i j) <$> seq 0 n).
Proof. intros Hi. unfold tab2. by rewrite lookup_tab. Qed.

Lemma tab2_lookup_Some (f : nat → nat → A) m n i row :
  tab2 m n f !! i = Some row ↔ i < m ∧ row = (λ j, f i j) <$> seq 0 n.
Proof.
  unfold tab2. exact (lookup_tab_Some (λ i, (λ j, f i j) <$> seq 0 n) m i row).
Qed.

Lemma tab2_length (f : nat → nat → A) m n : length (tab2 m n f) = m.
Proof. unfold tab2. by rewrite length_fmap, length_seq. Qed.

Lemma tab2_fmap {B} (g : A → B) (f : nat → nat → A) m n :
  (λ row : list A, g <$> row) <$> tab2 m n f = tab2 m n (λ i j, g (f i j)).
Proof.
  unfold tab2. rewrite <- list_fmap_compose. apply tab_ext. intros i _.
  simpl. by rewrite <- list_fmap_compose.
Qed.

Lemma tab2_zip {B C} (h : A → B → C) (f : nat → nat → A)
    (g : nat → nat → B) m n :
  zip_with (zip_with h) (tab2 m n f) (tab2 m n g)
  = tab2 m n (λ i j, h (f i j) (g i j)).
Proof.
  unfold tab2. rewrite zip_with_tab. apply tab_ext. intros i _.
  by rewrite zip_with_tab.
Qed.

End blocks.

Section block_access.
Import TiledMatmul.
Context {A : Type}.

Lemma load2_tab2 (past : nat → A) (buf : list A) (fo : nat → nat → nat)
    (fm : nat → nat → bool) other m n :
  tl.load2 past buf (tab2 m n fo) (tab2 m n fm) other
  = tab2 m n (λ i j, if fm i j then tl.read past buf (fo i j) else other).
Proof.
  unfold tl.load2, tab2. rewrite zip_with_tab. apply tab_ext. intros i _.
  by rewrite load_tab.
Qed.

Lemma elem_of_touched2_tab2 (fo : nat → nat → nat) (fm : nat → nat → bool)
    m n o :
  o ∈ tl.touched2 (tab2 m n fo) (tab2 m n fm) ↔
  ∃ i j, i < m ∧ j < n ∧ fm i j = true ∧ o = fo i j.
Proof.
  rewrite elem_of_touched2. split.
  - intros (i & ro & rm & [Hi ->]%tab2_lookup_Some & [_ ->]%tab2_lookup_Some
            & (j & [Hj ->]%lookup_tab_Some & [_ Hm]%lookup_tab_Some)%elem_of_touched).
    exists i, j. by simplify_eq.
  - intros (i & j & Hi & Hj & Hm & ->).
    exists i, ((λ j, fo i j) <$> seq 0 n), ((λ j, fm i j) <$> seq 0 n).
    rewrite !tab2_lookup by done. split_and!; [done..|].
    apply elem_of_touched. exists j. rewrite !lookup_tab by done.
    by rewrite Hm.
Qed.

Lemma elem_of_writes2_tab2 (fo : nat → nat → nat) (fv : nat → nat → A)
    (fm : nat → nat → bool) m n o v :
  (o, v) ∈ tl.writes2 (tab2 m n fo) (tab2 m n fv) (tab2 m n fm) ↔
  ∃ i j, i < m ∧ j < n ∧ fm i j = true ∧ o = fo i j ∧ v = fv i j.
Proof.
  rewrite elem_of_writes2. split.
  - intros (i & ro & rv & rm & [Hi ->]%tab2_lookup_Some
            & [_ ->]%tab2_lookup_Some & [_ ->]%tab2_lookup_Some
            & (j & [Hj ->]%lookup_tab_Some & [_ ->]%lookup_tab_Some
               & [_ Hm]%lookup_tab_Some)%elem_of_writes).
    exists i, j. by simplify_eq.
  - intros (i & j & Hi & Hj & Hm & -> & ->).
    exists i, ((λ j, fo i j) <$> seq 0 n), ((λ j, fv i j) <$> seq 0 n),
      ((λ j, fm i j) <$> seq 0 n).
    rewrite !tab2_lookup by done. split_and!; [done..|].
    apply elem_of_writes. exists j. rewrite !lookup_tab by done.
    by rewrite Hm.
Qed.

End block_access.

Section dot.
Import TiledMatmul.
Context {T : Type} `{Arith T}.

Lemma at2_tab2 (f : nat → nat → T) m n i j :
  i < m → j < n → tl.at2 (tab2 m n f) i j = f i j.
Proof.
  intros Hi Hj. unfold tl.at2. rewrite tab2_lookup by done. simpl.
  by rewrite lookup_tab.
Qed.

Lemma zeros_tab2 m n : tl.zeros m n = tab2 m n (λ _ _, tzero : T).
Proof. done. Qed.

(** The block product of two tabulated blocks. *)
Lemma dot_tab2 (fa fb : nat → nat → T) m q n :
  0 < q →
  tl.dot (tab2 m q fa) (tab2 q n fb)
  = tab2 m n (λ i j, foldl (λ acc kk, tadd acc (tmul (fa i kk) (fb kk j)))
                       tzero (seq 0 q)).
Proof.
  intros Hq. unfold tl.dot. rewrite !tab2_length.
  assert (length (default [] (head (tab2 q n fb))) = n) as ->.
  { destruct q as [|q]; [lia|]. unfold tab2. simpl.
    by rewrite length_fmap, length_seq. }
  unfold tab2 at 3. apply tab_ext. intros i Hi. apply tab_ext. intros j Hj.
  revert Hi Hj. generalize (tzero : T).
  assert (∀ l, (∀ kk, kk ∈ l → kk < q) → ∀ (z : T), i < m → j < n →
    foldl (λ acc kk, tadd acc (tmul (tl.at2 (tab2 m q fa) i kk)
                                     (tl.at2 (tab2 q n fb) kk j))) z l
    = foldl (λ acc kk, tadd acc (tmul (fa i kk) (fb kk j))) z l) as Hl.
  { induction l as [|kk l IH]; intros Hin z Hi Hj; simpl; [done|].
    rewrite !at2_tab2 by (done || apply Hin; left).
    apply IH; [|done..]. intros kk' Hkk'. apply Hin. by right. }
  apply Hl. intros kk Hkk%elem_of_seq. lia.
Qed.

End dot.

(* ================================================================== *)
(** * Tiled matmul: the K loop *)

Section k_loop.
Import TiledMatmul.
Context {T : Type} `{ExactArith T}.
Variable p : kernel_args.
Hypothesis HBK : 0 < p.(BLOCK_SIZE_K).

Lemma x_load_mask_tab2 k :
  x_load_mask p k
  = tab2 p.(BLOCK_SIZE_X) p.(BLOCK_SIZE_K)
      (λ _ kk, kk <? p.(x_cols) - k * p.(BLOCK_SIZE_K)).
Proof. unfold x_load_mask, k_offsets. by rewrite !arange_0. Qed.

Lemma y_load_mask_tab2 k :
  y_load_mask p k
  = tab2 p.(BLOCK_SIZE_K) p.(BLOCK_SIZE_Y)
      (λ kk _, kk <? p.(y_rows) - k * p.(BLOCK_SIZE_K)).
Proof. unfold y_load_mask, k_offsets. by rewrite !arange_0. Qed.

Lemma x_ptrs_init_tab2 x_pid :
  x_ptrs_init p x_pid
  = tab2 p.(BLOCK_SIZE_X) p.(BLOCK_SIZE_K)
      (λ i kk, x_pid * p.(BLOCK_SIZE_X) * p.(x_cols) + i * p.(x_cols) + kk).
Proof.
  unfold x_ptrs_init, x_offsets, k_offsets. cbv zeta.
  by rewrite !arange_0, <- list_fmap_compose.
Qed.

Lemma y_ptrs_init_tab2 y_pid :
  y_ptrs_init p y_pid
  = tab2 p.(BLOCK_SIZE_K) p.(BLOCK_SIZE_Y)
      (λ kk j, kk * p.(y_cols) + (y_pid * p.(BLOCK_SIZE_Y) + j)).
Proof.
  unfold y_ptrs_init, y_offsets, k_offsets. cbv zeta. rewrite !arange_0.
  unfold tab2. apply tab_ext. intros kk _. by rewrite <- list_fmap_compose.
Qed.

(** The loop invariant: on entry to iteration [k] the pointers have moved
    by [k] blocks and the accumulator holds the sums over the first
    [k * BLOCK_SIZE_K] lanes. *)
Lemma state_at_tab2 dev x_ptr y_ptr pid k :
  state_at p dev x_ptr y_ptr pid k
  = LoopState
      (tab2 p.(BLOCK_SIZE_X) p.(BLOCK_SIZE_K)
         (λ i kk, pid.1 * p.(BLOCK_SIZE_X) * p.(x_cols) + i * p.(x_cols) + kk
                  + k * p.(BLOCK_SIZE_K)))
      (tab2 p.(BLOCK_SIZE_K) p.(BLOCK_SIZE_Y)
         (λ kk j, kk * p.(y_cols) + (pid.2 * p.(BLOCK_SIZE_Y) + j)
                  + k * (p.(BLOCK_SIZE_K) * p.(y_cols))))
      (tab2 p.(BLOCK_SIZE_X) p.(BLOCK_SIZE_Y)
         (partial_sum p dev x_ptr y_ptr pid (k * p.(BLOCK_SIZE_K)))).
Proof.
  unfold state_at. induction k as [|k IH].
  - simpl. unfold loop_init.
    rewrite x_ptrs_init_tab2, y_ptrs_init_tab2, zeros_tab2. f_equal.
    + apply tab2_ext. intros. lia.
    + apply tab2_ext. intros. lia.
  - rewrite seq_S, foldl_snoc, IH. unfold k_step.
    cbn [x_ptrs y_ptrs accumulator Nat.add].
    rewrite x_load_mask_tab2, y_load_mask_tab2, !load2_tab2.
    rewrite dot_tab2 by done. rewrite !tab2_fmap, tab2_zip. f_equal.
    + apply tab2_ext. intros. lia.
    + apply tab2_ext. intros. lia.
    + apply tab2_ext. intros i j Hi Hj. unfold partial_sum.
      replace (S k * p.(BLOCK_SIZE_K))
        with (k * p.(BLOCK_SIZE_K) + p.(BLOCK_SIZE_K)) by lia.
      rewrite seq_app, foldl_app, Nat.add_0_l.
      rewrite (foldl_tadd_acc _ (seq (k * p.(BLOCK_SIZE_K)) _)). f_equal.
      replace (seq (k * p.(BLOCK_SIZE_K)) p.(BLOCK_SIZE_K))
        with (Nat.add (k * p.(BLOCK_SIZE_K)) <$> seq 0 p.(BLOCK_SIZE_K))
        by (rewrite fmap_add_seq; f_equal; lia).
      rewrite foldl_fmap.
      apply foldl_tadd_ext. intros kk [_ Hkk]%elem_of_seq.
      unfold lane_a, lane_b.
      assert ((kk <? p.(x_cols) - k * p.(BLOCK_SIZE_K))
              = (k * p.(BLOCK_SIZE_K) + kk <? p.(x_cols))) as ->.
      { destruct (Nat.ltb_spec kk (p.(x_cols) - k * p.(BLOCK_SIZE_K))),
          (Nat.ltb_spec (k * p.(BLOCK_SIZE_K) + kk) p.(x_cols)); lia. }
      assert ((kk <? p.(y_rows) - k * p.(BLOCK_SIZE_K))
              = (k * p.(BLOCK_SIZE_K) + kk <? p.(y_rows))) as ->.
      { destruct (Nat.ltb_spec kk (p.(y_rows) - k * p.(BLOCK_SIZE_K))),
          (Nat.ltb_spec (k * p.(BLOCK_SIZE_K) + kk) p.(y_rows)); lia. }
      f_equal.
      * destruct (_ <? _); [|done]. f_equal. lia.
      * destruct (_ <? _); [|done]. f_equal. ring.
Qed.

End k_loop.


Section tiled_store.
Import TiledMatmul.
Context {T : Type} `{Arith T}.
Variable p : kernel_args.

Lemma output_ptrs_tab2 pid :
  output_ptrs p pid
  = tab2 p.(BLOCK_SIZE_X) p.(BLOCK_SIZE_Y)
      (λ i j, (pid.1 * p.(BLOCK_SIZE_X) + i) * p.(y_cols)
              + (pid.2 * p.(BLOCK_SIZE_Y) + j)).
Proof.
  unfold output_ptrs, output_x_offsets, output_y_offsets. cbv zeta.
  rewrite !arange_0.
  rewrite <- (list_fmap_compose (λ a, pid.1 * p.(BLOCK_SIZE_X) + a)).
  unfold tab2. apply tab_ext. intros i _. unfold compose.
  by rewrite <- list_fmap_compose.
Qed.

Lemma output_mask_tab2 pid :
  output_mask p pid
  = tab2 p.(BLOCK_SIZE_X) p.(BLOCK_SIZE_Y)
      (λ i j, (pid.1 * p.(BLOCK_SIZE_X) + i <? p.(x_rows))
              && (pid.2 * p.(BLOCK_SIZE_Y) + j <? p.(y_cols))).
Proof.
  unfold output_mask, output_x_offsets, output_y_offsets. cbv zeta.
  rewrite !arange_0.
  rewrite <- (list_fmap_compose (λ a, pid.1 * p.(BLOCK_SIZE_X) + a)).
  unfold tab2. apply tab_ext. intros i _. unfold compose.
  by rewrite <- list_fmap_compose.
Qed.

(** A cell touches the output cell [(row, col)] exactly when the cell lies
    in its tile and inside the matrix. *)
Lemma elem_of_output_touched pid o :
  o ∈ output_touched p pid ↔
  ∃ i j, i < p.(BLOCK_SIZE_X) ∧ j < p.(BLOCK_SIZE_Y) ∧
         pid.1 * p.(BLOCK_SIZE_X) + i < p.(x_rows) ∧
         pid.2 * p.(BLOCK_SIZE_Y) + j < p.(y_cols) ∧
         o = (pid.1 * p.(BLOCK_SIZE_X) + i) * p.(y_cols)
             + (pid.2 * p.(BLOCK_SIZE_Y) + j).
Proof.
  unfold output_touched.
  rewrite output_ptrs_tab2, output_mask_tab2, elem_of_touched2_tab2.
  split; intros (i & j & Hi & Hj & Hrest); exists i, j.
  - destruct Hrest as [[Hr Hc]%andb_true_iff ->].
    apply Nat.ltb_lt in Hr, Hc. done.
  - destruct Hrest as (Hr & Hc & ->). split_and!; [done..| |done].
    apply andb_true_iff. split; by apply Nat.ltb_lt.
Qed.

Lemma tiled_kernel_store dev x_ptr y_ptr pid out :
  matmul_kernel p dev x_ptr y_ptr pid out
  = tl.commit out
      (tl.writes2 (output_ptrs p pid) (output_block p dev x_ptr y_ptr pid)
         (output_mask p pid)).
Proof. done. Qed.

End tiled_store.

Section tiled.
Import TiledMatmul.
Context {T : Type} `{ExactArith T}.

Lemma partial_sum_dot BX BY BK dev (X Y : tensor T) pid n i j :
  well_formed X → well_formed Y →
  t_cols X ≤ n →
  pid.1 * BX + i < t_rows X → pid.2 * BY + j < t_cols Y →
  partial_sum
    (KernelArgs (t_rows X) (t_cols X) (t_rows Y) (t_cols Y) BX BY BK)
    dev (t_data X) (t_data Y) pid n i j
  = Reference.dot_product X Y (t_cols X `min` t_rows Y)
      (pid.1 * BX + i) (pid.2 * BY + j).
Proof.
  intros HX HY Hn Hrow Hcol. unfold partial_sum, Reference.dot_product.
  set (m := t_cols X `min` t_rows Y).
  replace n with (m + (n - m)) by lia.
  rewrite seq_app, foldl_app. simpl.
  rewrite (foldl_tadd_zero _ (seq m (n - m))).
  - apply foldl_tadd_ext. intros t [_ Ht]%elem_of_seq. simpl in Ht.
    unfold lane_a, lane_b. simpl.
    destruct (Nat.ltb_spec t (t_cols X)); [|lia].
    destruct (Nat.ltb_spec t (t_rows Y)); [|lia].
    unfold tl.read, tget. f_equal.
    + replace (pid.1 * BX * t_cols X + i * t_cols X + t)
        with ((pid.1 * BX + i) * t_cols X + t) by ring.
      destruct (lookup_lt_is_Some_2 (t_data X) ((pid.1 * BX + i) * t_cols X + t))
        as [v ->]; [unfold well_formed in HX; nia|done].
    + destruct (lookup_lt_is_Some_2 (t_data Y)
                  (t * t_cols Y + (pid.2 * BY + j)))
        as [v ->]; [unfold well_formed in HY; nia|done].
  - intros t [Ht _]%elem_of_seq. unfold lane_a, lane_b. simpl.
    destruct (Nat.ltb_spec t (t_cols X)); [|by rewrite tmul_0_l].
    destruct (Nat.ltb_spec t (t_rows Y)); [lia|by rewrite tmul_0_r].
Qed.

Lemma output_block_tab2 p dev x_ptr y_ptr pid :
  0 < p.(BLOCK_SIZE_K) →
  output_block p dev x_ptr y_ptr pid
  = tab2 p.(BLOCK_SIZE_X) p.(BLOCK_SIZE_Y)
      (λ i j, tcast accumulator_cast_dtype
                (partial_sum p dev x_ptr y_ptr pid
                   (tl.cdiv p.(x_cols) p.(BLOCK_SIZE_K) * p.(BLOCK_SIZE_K))
                   i j)).
Proof.
  intros HBK. unfold output_block. cbv zeta.
  rewrite state_at_tab2 by done. simpl. by rewrite tab2_fmap.
Qed.

(** The tiled launch stores, cast, the dot products of the unblocked
    multiply over the first [min x_cols y_rows] entries. *)
Lemma tiled_matmul_data BX BY BK dev (X Y : tensor T) :
  0 < BX → 0 < BY → 0 < BK →
  well_formed X → well_formed Y →
  let p := KernelArgs (t_rows X) (t_cols X) (t_rows Y) (t_cols Y) BX BY BK in
  launch (matmul_grid p) (matmul_kernel p dev (t_data X) (t_data Y))
         (t_data (torch_zeros (t_rows X) (t_cols Y)))
  = tcast accumulator_cast_dtype
      <$> Reference.matmul_data X Y (t_cols X `min` t_rows Y).
Proof.
  intros HBX HBY HBK HX HY p.
  rewrite (launch_commit _
    (λ pid, tl.writes2 (output_ptrs p pid)
              (output_block p dev (t_data X) (t_data Y) pid)
              (output_mask p pid)))
    by (intros; apply tiled_kernel_store).
  apply list_eq. intros o. unfold Reference.matmul_data.
  destruct (decide (o < t_rows X * t_cols Y)) as [Ho|Ho].
  - assert (0 < t_cols Y) as Hc by nia.
    pose proof (Nat.div_mod_eq o (t_cols Y)) as Hdm.
    pose proof (Nat.mod_upper_bound o (t_cols Y) ltac:(lia)) as Hmod.
    remember (o / t_cols Y) as row eqn:Er.
    remember (o mod t_cols Y) as col eqn:Ec.
    assert (row < t_rows X) as Hrow by nia.
    assert (o = row * t_cols Y + col) as Hoij by lia.
    clear Er Ec Hdm. subst o.
    rewrite list_lookup_fmap.
    rewrite (flat_tab_lookup (λ i j, Reference.dot_product X Y _ i j)) by done.
    simpl. apply commit_lookup_written.
    + intros v' (pid & Hw & _)%list_elem_of_bind.
      rewrite output_ptrs_tab2, output_mask_tab2, output_block_tab2 in Hw
        by done.
      apply elem_of_writes2_tab2 in Hw
        as (i & j & Hi & Hj & [Hr Hcl]%andb_true_iff & Hoff & ->).
      apply Nat.ltb_lt in Hr, Hcl. simpl in *.
      destruct (row_major_inj (t_cols Y) row col (pid.1 * BX + i)
                  (pid.2 * BY + j)) as [-> ->]; [done..|].
      f_equal. apply partial_sum_dot; try done.
      by apply cdiv_covers.
    + pose proof (offset_in_block BX row HBX).
      pose proof (offset_in_block BY col HBY).
      eexists. apply list_elem_of_bind. exists (row / BX, col / BY). split.
      * rewrite output_ptrs_tab2, output_mask_tab2, output_block_tab2 by done.
        apply elem_of_writes2_tab2.
        exists (row - row / BX * BX), (col - col / BY * BY). subst p. simpl.
        split_and!; [| | | |done];
          set (bx := row / BX * BX) in *; set (bc := col / BY * BY) in *;
          clearbody bx bc.
        -- lia.
        -- lia.
        -- apply andb_true_iff. split; apply Nat.ltb_lt; lia.
        -- repeat f_equal; lia.
      * apply elem_of_grid2. subst p. simpl. split; by apply div_lt_cdiv.
    + simpl. by rewrite length_replicate.
  - rewrite !lookup_ge_None_2; [done| |].
    + rewrite length_fmap.
      rewrite (flat_tab_length (λ i j, Reference.dot_product X Y _ i j)). lia.
    + rewrite commit_length. simpl. rewrite length_replicate. lia.
Qed.

End tiled.

(* ================================================================== *)
(** * The write partition of each kernel *)

Section partition.

Lemma add_write_partition n S :
  0 < S → write_partition (VectorAdd.add_grid n S) (VectorAdd.add_touched n S) n.
Proof.
  intros HS. split.
  - intros c1 c2 o _ _ [H1 _]%elem_of_add_touched [H2 _]%elem_of_add_touched.
    rewrite (block_of_offset S c1 o), (block_of_offset S c2 o); done.
  - intros o Ho. exists (o / S). split.
    + apply elem_of_grid1. by apply div_lt_cdiv.
    + apply elem_of_add_touched. split; [by apply offset_in_block|done].
Qed.

Lemma row_write_partition rows cols B :
  cols ≤ B →
  write_partition (grid1 rows) (Softmax.row_touched cols B) (rows * cols).
Proof.
  intros HB. split.
  - intros c1 c2 o _ _ H1%elem_of_row_touched H2%elem_of_row_touched; [|done..].
    assert (0 < cols) as Hc by lia.
    rewrite (block_of_offset cols c1 o), (block_of_offset cols c2 o); done.
  - intros o Ho. assert (0 < cols) as Hc by nia.
    exists (o / cols). split.
    + apply elem_of_grid1. apply Nat.Div0.div_lt_upper_bound. lia.
    + apply elem_of_row_touched; [done|]. by apply offset_in_block.
Qed.

Lemma elem_of_naive_output_touched y_cols pid o :
  o ∈ NaiveMatmul.output_touched y_cols pid ↔ o = pid.1 * y_cols + pid.2.
Proof.
  unfold NaiveMatmul.output_touched, NaiveMatmul.output_offset. simpl.
  apply list_elem_of_singleton.
Qed.

Lemma naive_write_partition {T} (X Y : tensor T) :
  write_partition (NaiveMatmul.matmul_grid X Y)
    (NaiveMatmul.output_touched (t_cols Y)) (t_rows X * t_cols Y).
Proof.
  split.
  - intros [i1 j1] [i2 j2] o [_ Hj1]%elem_of_grid2 [_ Hj2]%elem_of_grid2
      ->%elem_of_naive_output_touched H2%elem_of_naive_output_touched.
    simpl in *.
    destruct (row_major_inj (t_cols Y) i1 j1 i2 j2) as [-> ->]; done.
  - intros o Ho. assert (0 < t_cols Y) as Hc by nia.
    pose proof (Nat.div_mod_eq o (t_cols Y)) as Hdm.
    pose proof (Nat.mod_upper_bound o (t_cols Y) ltac:(lia)) as Hmod.
    exists (o / t_cols Y, o mod t_cols Y). split.
    + apply elem_of_grid2. simpl. split; [|done].
      apply Nat.Div0.div_lt_upper_bound. lia.
    + apply elem_of_naive_output_touched. simpl. lia.
Qed.

Lemma tiled_write_partition (p : TiledMatmul.kernel_args) :
  0 < p.(TiledMatmul.BLOCK_SIZE_X) → 0 < p.(TiledMatmul.BLOCK_SIZE_Y) →
  write_partition (TiledMatmul.matmul_grid p) (TiledMatmul.output_touched p)
    (p.(TiledMatmul.x_rows) * p.(TiledMatmul.y_cols)).
Proof.
  intros HBX HBY. split.
  - intros [px1 py1] [px2 py2] o _ _
      (i1 & j1 & Hi1 & Hj1 & Hr1 & Hc1 & ->)%elem_of_output_touched
      (i2 & j2 & Hi2 & Hj2 & Hr2 & Hc2 & Heq)%elem_of_output_touched.
    simpl in *.
    destruct (row_major_inj _ _ _ _ _ Hc1 Hc2 Heq) as [Hrow Hcol].
    f_equal.
    + transitivity ((px1 * TiledMatmul.BLOCK_SIZE_X p + i1)
                    / TiledMatmul.BLOCK_SIZE_X p).
      * apply block_of_offset; [done|lia].
      * rewrite Hrow. symmetry. apply block_of_offset; [done|lia].
    + transitivity ((py1 * TiledMatmul.BLOCK_SIZE_Y p + j1)
                    / TiledMatmul.BLOCK_SIZE_Y p).
      * apply block_of_offset; [done|lia].
      * rewrite Hcol. symmetry. apply block_of_offset; [done|lia].
  - intros o Ho. set (c := TiledMatmul.y_cols p) in *.
    set (BX := TiledMatmul.BLOCK_SIZE_X p) in *.
    set (BY := TiledMatmul.BLOCK_SIZE_Y p) in *.
    assert (0 < c) as Hc by nia.
    pose proof (Nat.div_mod_eq o c) as Hdm.
    pose proof (Nat.mod_upper_bound o c ltac:(lia)) as Hmod.
    remember (o / c) as row eqn:Er. remember (o mod c) as col eqn:Ec.
    assert (row < TiledMatmul.x_rows p) as Hrow by nia.
    pose proof (offset_in_block BX row HBX) as Hbx.
    pose proof (offset_in_block BY col HBY) as Hby.
    exists (row / BX, col / BY). split.
    + apply elem_of_grid2. simpl. split; by apply div_lt_cdiv.
    + apply elem_of_output_touched.
      exists (row - row / BX * BX), (col - col / BY * BY). simpl.
      fold BX BY c.
      set (bx := row / BX * BX) in *. set (bc := col / BY * BY) in *.
      clearbody bx bc.
      replace (bx + (row - bx)) with row by lia.
      replace (bc + (col - bc)) with col by lia.
      split_and!; lia.
Qed.

End partition.

(* ================================================================== *)
(** * Accesses stay inside the buffers *)

Section bounds.

Lemma elem_of_row_touched_min C B pid o :
  o ∈ Softmax.row_touched C B pid ↔ pid * C ≤ o < pid * C + C `min` B.
Proof.
  unfold Softmax.row_touched. rewrite elem_of_touched. split.
  - intros (k & [Hk ->]%row_offset_lookup & [_ Hm]%row_mask_lookup).
    symmetry in Hm. apply Nat.ltb_lt in Hm. lia.
  - intros Ho. exists (o - pid * C). split.
    + apply row_offset_lookup. lia.
    + apply row_mask_lookup. split; [lia|]. symmetry. apply Nat.ltb_lt. lia.
Qed.

(** Every load and the store of the row-times-column kernel stay inside
    their buffers, whatever the four extents. *)
Lemma naive_in_bounds {T} `{Arith T} (X Y : tensor T) B pid :
  well_formed X → pid ∈ NaiveMatmul.matmul_grid X Y →
  in_bounds (length (t_data X)) (NaiveMatmul.x_touched (t_cols X) B pid) ∧
  in_bounds (length (t_data (transpose_contiguous Y)))
            (NaiveMatmul.y_touched (t_rows Y) B pid) ∧
  in_bounds (t_rows X * t_cols Y) (NaiveMatmul.output_touched (t_cols Y) pid).
Proof.
  intros HX [Hi Hj]%elem_of_grid2. split_and!.
  - intros o Ho%elem_of_row_touched_min. rewrite HX. nia.
  - intros o Ho%elem_of_row_touched_min. simpl.
    rewrite (flat_tab_length (λ j k, tget tzero Y k j)). nia.
  - intros o ->%elem_of_naive_output_touched. nia.
Qed.

(** The masked store of the tiled kernel stays inside the output. *)
Lemma tiled_store_in_bounds (p : TiledMatmul.kernel_args) pid :
  in_bounds (p.(TiledMatmul.x_rows) * p.(TiledMatmul.y_cols))
            (TiledMatmul.output_touched p pid).
Proof.
  intros o (i & j & _ & _ & Hr & Hc & ->)%elem_of_output_touched. nia.
Qed.

End bounds.

(* ================================================================== *)
(** * Which cells of X the tiled kernel loads *)

Section tiled_loads.
Import TiledMatmul.
Context {T : Type} `{ExactArith T}.
Variable p : kernel_args.
Hypothesis HBX : 0 < p.(BLOCK_SIZE_X).
Hypothesis HBK : 0 < p.(BLOCK_SIZE_K).

(** Cell [pid] loads the whole of the [BLOCK_SIZE_X] rows of its block,
    whether or not X has that many rows. *)
Lemma elem_of_x_touched dev x_ptr y_ptr pid o :
  o ∈ x_touched p dev x_ptr y_ptr pid ↔
  ∃ i t, i < p.(BLOCK_SIZE_X) ∧ t < p.(x_cols) ∧
         o = (pid.1 * p.(BLOCK_SIZE_X) + i) * p.(x_cols) + t.
Proof.
  unfold x_touched. rewrite list_elem_of_bind. split.
  - intros (k & Hin & Hk%elem_of_seq).
    rewrite state_at_tab2 in Hin by done. cbn [x_ptrs] in Hin.
    rewrite x_load_mask_tab2 in Hin.
    apply elem_of_touched2_tab2 in Hin as (i & kk & Hi & Hkk & Hm & ->).
    apply Nat.ltb_lt in Hm.
    exists i, (kk + k * p.(BLOCK_SIZE_K)). split_and!; [done|lia|ring].
  - intros (i & t & Hi & Ht & ->).
    pose proof (offset_in_block p.(BLOCK_SIZE_K) t HBK) as Hblk.
    exists (t / p.(BLOCK_SIZE_K)). split.
    + rewrite state_at_tab2 by done. cbn [x_ptrs].
      rewrite x_load_mask_tab2. apply elem_of_touched2_tab2.
      exists i, (t - t / p.(BLOCK_SIZE_K) * p.(BLOCK_SIZE_K)).
      set (b := t / p.(BLOCK_SIZE_K) * p.(BLOCK_SIZE_K)) in *. clearbody b.
      split_and!; [done|lia| |].
      * apply Nat.ltb_lt. lia.
      * replace t with (t - b + b) at 1 by lia. ring.
    + apply elem_of_seq. split; [lia|]. simpl. by apply div_lt_cdiv.
Qed.

Lemma x_loads_in_bounds_aligned dev x_ptr y_ptr pid :
  p.(x_rows) mod p.(BLOCK_SIZE_X) = 0 → pid ∈ matmul_grid p →
  in_bounds (p.(x_rows) * p.(x_cols)) (x_touched p dev x_ptr y_ptr pid).
Proof.
  intros Hal [Hpid _]%elem_of_grid2 o (i & t & Hi & Ht & ->)%elem_of_x_touched.
  assert (0 < p.(x_rows)) as Hr.
  { destruct (decide (p.(x_rows) = 0)) as [Hz|]; [exfalso|lia].
    assert (tl.cdiv 0 p.(BLOCK_SIZE_X) = 0) as Hz'
      by (unfold tl.cdiv; apply Nat.div_small; lia).
    rewrite Hz, Hz' in Hpid. lia. }
  pose proof (cdiv_tight p.(x_rows) p.(BLOCK_SIZE_X) HBX Hr) as Htight.
  pose proof (Nat.div_mod_eq p.(x_rows) p.(BLOCK_SIZE_X)) as Hdm.
  rewrite Hal in Hdm.
  set (q := p.(x_rows) / p.(BLOCK_SIZE_X)) in *. clearbody q.
  set (g := tl.cdiv p.(x_rows) p.(BLOCK_SIZE_X)) in *. clearbody g.
  assert (pid.1 * p.(BLOCK_SIZE_X) ≤ (g - 1) * p.(BLOCK_SIZE_X))
    by (apply Nat.mul_le_mono_r; lia).
  assert (pid.1 < q) as Hq.
  { destruct (decide (pid.1 < q)); [done|].
    assert (q * p.(BLOCK_SIZE_X) ≤ pid.1 * p.(BLOCK_SIZE_X))
      by (apply Nat.mul_le_mono_r; lia). lia. }
  assert ((pid.1 + 1) * p.(BLOCK_SIZE_X) ≤ q * p.(BLOCK_SIZE_X))
    by (apply Nat.mul_le_mono_r; lia).
  assert (pid.1 * p.(BLOCK_SIZE_X) + i + 1 ≤ p.(x_rows)) as Hrow by lia.
  apply (Nat.mul_le_mono_r _ _ p.(x_cols)) in Hrow. lia.
Qed.

Lemma x_loads_out_of_bounds_misaligned dev x_ptr y_ptr :
  p.(x_rows) mod p.(BLOCK_SIZE_X) ≠ 0 → 0 < p.(BLOCK_SIZE_Y) →
  0 < p.(x_cols) → 0 < p.(y_cols) →
  ∃ pid o, pid ∈ matmul_grid p ∧ o ∈ x_touched p dev x_ptr y_ptr pid ∧
           p.(x_rows) * p.(x_cols) ≤ o.
Proof.
  intros Hal HBY Hc Hyc.
  assert (0 < p.(x_rows)) as Hr.
  { destruct (decide (p.(x_rows) = 0)) as [Hz|]; [exfalso|lia].
    rewrite Hz in Hal. by rewrite Nat.Div0.mod_0_l in Hal. }
  pose proof (cdiv_covers p.(x_rows) p.(BLOCK_SIZE_X) HBX) as Hcov.
  pose proof (cdiv_tight p.(x_rows) p.(BLOCK_SIZE_X) HBX Hr) as Htight.
  assert (tl.cdiv p.(x_rows) p.(BLOCK_SIZE_X) * p.(BLOCK_SIZE_X) ≠ p.(x_rows))
    as Hne.
  { intros Heq. apply Hal. rewrite <- Heq. apply Nat.Div0.mod_mul. }
  set (g := tl.cdiv p.(x_rows) p.(BLOCK_SIZE_X)) in *.
  assert (0 < g) as Hg by (destruct g; simpl in *; lia).
  exists (g - 1, 0),
    (((g - 1) * p.(BLOCK_SIZE_X) + (p.(BLOCK_SIZE_X) - 1)) * p.(x_cols) + 0).
  split_and!.
  - apply elem_of_grid2. simpl. fold g. split; [lia|].
    pose proof (div_lt_cdiv 0 p.(y_cols) p.(BLOCK_SIZE_Y) HBY Hyc) as Hy.
    rewrite Nat.Div0.div_0_l in Hy. done.
  - apply elem_of_x_touched. exists (p.(BLOCK_SIZE_X) - 1), 0. simpl.
    split_and!; [lia|done|done].
  - clearbody g. nia.
Qed.

End tiled_loads.

(* ================================================================== *)
(** * Softmax is shift invariant *)

Section shift.
Import Reference.
Local Open Scope R_scope.

Lemma Rlist_max_shift c l :
  l ≠ [] → Rlist_max ((λ x, x + c) <$> l) = Rlist_max l + c.
Proof.
  intros Hne. induction l as [|x l IH]; [done|].
  destruct l as [|y l]; [done|].
  change (Rmax (x + c) (Rlist_max ((λ x, x + c) <$> y :: l))
          = Rmax x (Rlist_max (y :: l)) + c).
  rewrite IH by done. set (m := Rlist_max (y :: l)).
  destruct (Rle_dec x m).
  - rewrite !Rmax_right by lra. done.
  - rewrite !Rmax_left by lra. done.
Qed.

(** Softmax does not change when a constant is added to the whole row. *)
Lemma softmax_row_shift c row :
  softmax_row ((λ x, x + c) <$> row) = softmax_row row.
Proof.
  destruct (decide (row = [])) as [->|Hne]; [done|].
  unfold softmax_row. rewrite Rlist_max_shift by done.
  assert ((λ x, exp (x - (Rlist_max row + c))) <$> ((λ x, x + c) <$> row)
          = (λ x, exp (x - Rlist_max row)) <$> row) as ->; [|done].
  rewrite <- list_fmap_compose.
  apply list_fmap_ext. intros _ x _. simpl. f_equal. lra.
Qed.

End shift.

(* ================================================================== *)
(** * The host functions *)

Lemma Z_exact (c : dtype → Z → Z) : @ExactArith Z (Z_arith c).
Proof. split; simpl; intros; lia. Qed.

Section hosts.
Context {T : Type} `{ExactArith T}.

Lemma naive_matmul_returns dev (X Y : tensor T) :
  well_formed X → 0 < t_cols X →
  NaiveMatmul.matmul dev X Y
  = Returned (Tensor torch_default_dtype (t_rows X) (t_cols Y)
                (Reference.matmul_data X Y (t_cols X `min` t_rows Y))).
Proof.
  intros HX Hc. unfold NaiveMatmul.matmul. cbv zeta.
  rewrite jit_launch_valid by (by apply arange_valid_block).
  cbn [outcome_map]. by rewrite naive_matmul_data.
Qed.

Lemma tiled_matmul_returns BX BY BK dev (X Y : tensor T) :
  0 < BX → 0 < BY → 0 < BK → well_formed X → well_formed Y →
  TiledMatmul.matmul_launch BX BY BK dev X Y
  = Returned (Tensor torch_default_dtype (t_rows X) (t_cols Y)
                (tcast float16
                   <$> Reference.matmul_data X Y (t_cols X `min` t_rows Y))).
Proof.
  intros HBX HBY HBK HX HY. unfold TiledMatmul.matmul_launch. cbv zeta.
  by rewrite (tiled_matmul_data BX BY BK).
Qed.

(** With consistent inner extents both kernels compute the unblocked
    product; the tiled one returns it cast to half precision. *)
Lemma matmul_refines_reference dev (X Y : tensor T) :
  well_formed X → well_formed Y → t_cols X = t_rows Y → 0 < t_cols X →
  NaiveMatmul.matmul dev X Y
  = Returned (Tensor torch_default_dtype (t_rows X) (t_cols Y)
                (t_data (Reference.matmul X Y))) ∧
  TiledMatmul.matmul dev X Y
  = Returned (Tensor torch_default_dtype (t_rows X) (t_cols Y)
                (tcast float16 <$> t_data (Reference.matmul X Y))) ∧
  ((∀ v : T, tcast float16 v = v) →
   TiledMatmul.matmul dev X Y = NaiveMatmul.matmul dev X Y).
Proof.
  intros HX HY HK Hc.
  assert (t_cols X `min` t_rows Y = t_cols X) as Hmin by lia.
  rewrite naive_matmul_returns by done.
  unfold TiledMatmul.matmul.
  rewrite tiled_matmul_returns by (done || lia).
  rewrite Hmin. simpl. split_and!; [done..|].
  intros Hcast. do 2 f_equal.
  rewrite <- (list_fmap_id (Reference.matmul_data X Y (t_cols X))) at 2.
  apply list_fmap_ext. intros _ v _. apply Hcast.
Qed.

End hosts.

(** The 4x3 times 3x2 example of the notebook, on integers: both kernels
    return the exact products provided the half-precision cast is exact on
    the integers up to 2048, which it is. *)
Lemma arange_example (junk : Z) (c : dtype → Z → Z) :
  (∀ z, (0 ≤ z ≤ 2048)%Z → c float16 z = z) →
  @NaiveMatmul.matmul Z (Z_arith c) (Z_device junk)
    (arange_tensor float32 4 3) (arange_tensor float32 3 2)
  = Returned (Tensor float32 4 2 [10; 13; 28; 40; 46; 67; 64; 94]%Z) ∧
  @TiledMatmul.matmul Z (Z_arith c) (Z_device junk)
    (arange_tensor float32 4 3) (arange_tensor float32 3 2)
  = Returned (Tensor float32 4 2 [10; 13; 28; 40; 46; 67; 64; 94]%Z) ∧
  @Reference.matmul Z (Z_arith c)
    (arange_tensor float32 4 3) (arange_tensor float32 3 2)
  = Tensor float32 4 2 [10; 13; 28; 40; 46; 67; 64; 94]%Z.
Proof.
  intros Hc.
  destruct (@matmul_refines_reference Z (Z_arith c) (Z_exact c) (Z_device junk)
              (arange_tensor float32 4 3) (arange_tensor float32 3 2))
    as (Hn & Ht & _); [done..|simpl; lia|].
  rewrite Hn, Ht.
  assert (@Reference.matmul Z (Z_arith c)
            (arange_tensor float32 4 3) (arange_tensor float32 3 2)
          = Tensor float32 4 2 [10; 13; 28; 40; 46; 67; 64; 94]%Z) as ->
    by reflexivity.
  simpl. rewrite !Hc by lia. done.
Qed.

(** C1: for every X of shape MxK and Y of shape KxN with K >= 1, under
    exact arithmetic the row-times-column kernel returns the unblocked
    triple-loop product and the tiled kernel returns that product cast to
    half precision, hence the product itself when the cast does not round;
    and on the 4x3 times 3x2 [arange] matrices both return the exact
    integers.  Cells that a load reads past the end of a buffer may hold
    anything.  (With K = 0 the block size of the row-times-column kernel is
    0 and its launch raises.) *)
Theorem matmul_kernels_match_reference :
  (∀ (T : Type) (A : Arith T) (E : ExactArith T) (dev : device T)
     (X Y : tensor T),
     well_formed X → well_formed Y → t_cols X = t_rows Y → 0 < t_cols X →
     NaiveMatmul.matmul dev X Y
     = Returned (Tensor torch_default_dtype (t_rows X) (t_cols Y)
                   (t_data (Reference.matmul X Y))) ∧
     TiledMatmul.matmul dev X Y
     = Returned (Tensor torch_default_dtype (t_rows X) (t_cols Y)
                   (tcast float16 <$> t_data (Reference.matmul X Y))) ∧
     ((∀ v : T, tcast float16 v = v) →
      TiledMatmul.matmul dev X Y = NaiveMatmul.matmul dev X Y)) ∧
  (∀ (junk : Z) (c : dtype → Z → Z),
     (∀ z, (0 ≤ z ≤ 2048)%Z → c float16 z = z) →
     @NaiveMatmul.matmul Z (Z_arith c) (Z_device junk)
       (arange_tensor float32 4 3) (arange_tensor float32 3 2)
     = Returned (Tensor float32 4 2 [10; 13; 28; 40; 46; 67; 64; 94]%Z) ∧
     @TiledMatmul.matmul Z (Z_arith c) (Z_device junk)
       (arange_tensor float32 4 3) (arange_tensor float32 3 2)
     = Returned (Tensor float32 4 2 [10; 13; 28; 40; 46; 67; 64; 94]%Z) ∧
     @Reference.matmul Z (Z_arith c)
       (arange_tensor float32 4 3) (arange_tensor float32 3 2)
     = Tensor float32 4 2 [10; 13; 28; 40; 46; 67; 64; 94]%Z).
Proof.
  split.
  - intros T A E dev X Y. apply matmul_refines_reference.
  - apply arange_example.
Qed.

Lemma matmul_kernels_match_reference_witness :
  (well_formed (arange_tensor float32 4 3) ∧
   well_formed (arange_tensor float32 3 2) ∧
   t_cols (arange_tensor float32 4 3) = t_rows (arange_tensor float32 3 2) ∧
   0 < t_cols (arange_tensor float32 4 3) ∧
   (∀ z, (0 ≤ z ≤ 2048)%Z → (λ (_ : dtype) (v : Z), v) float16 z = z)) ∧
  (@TiledMatmul.matmul Z (Z_arith (λ _ v, v)) (Z_device 7)
     (arange_tensor float32 4 3) (arange_tensor float32 3 2)
   = Returned
       (Tensor float32 4 2
          (t_data (@Reference.matmul Z (Z_arith (λ _ v, v))
                     (arange_tensor float32 4 3) (arange_tensor float32 3 2))))) ∧
  @NaiveMatmul.matmul Z (Z_arith (λ _ v, v)) (Z_device 7)
    (arange_tensor float32 4 3) (arange_tensor float32 3 2)
  = Returned (Tensor float32 4 2 [10; 13; 28; 40; 46; 67; 64; 94]%Z) ∧
  @TiledMatmul.matmul Z (Z_arith (λ _ v, v)) (Z_device 7)
    (arange_tensor float32 4 3) (arange_tensor float32 3 2)
  = Returned (Tensor float32 4 2 [10; 13; 28; 40; 46; 67; 64; 94]%Z).
Proof.
  split; [|split].
  - split_and!; [reflexivity..|simpl; lia|]. intros z _. reflexivity.
  - pose proof (proj1 matmul_kernels_match_reference Z (Z_arith (λ _ v, v))
                  (Z_exact _) (Z_device 7)
                  (arange_tensor float32 4 3) (arange_tensor float32 3 2)
                  eq_refl eq_refl eq_refl ltac:(simpl; lia)) as (_ & Ht & _).
    exact Ht.
  - pose proof (proj2 matmul_kernels_match_reference 7%Z (λ _ v, v)
                  (λ z _, eq_refl)) as (Hn & Ht & _).
    exact (conj Hn Ht).
Defined.

(* ================================================================== *)
(** * The steps of the softmax kernels *)

Section row_max.
Import Reference.
Local Open Scope R_scope.



End row_max.

Section fwd_steps.
Import Reference Softmax.
Local Open Scope R_scope.


End fwd_steps.

Section bwd_steps.
Import Reference Softmax.
Local Open Scope R_scope.

(** The block the backward kernel stores is [normed_grad] plus [max_grad]
    times the indicator. *)
Lemma bwd_block_steps x_row dy_row :
  bwd_block x_row dy_row
  = zip_with xadd (bwd_normed_grad x_row dy_row)
      ((λ w, xmul (bwd_max_grad x_row dy_row) w)
         <$> bwd_indicator x_row (length (bwd_normed_grad x_row dy_row))).
Proof. done. Qed.




End bwd_steps.

(* ================================================================== *)
(** * What each kernel stores *)

Section stores.
Context {T : Type}.

(** A list of writes in which offset [o] occurs, always with the same value,
    stores to [o]. *)
Lemma commit_stores (ws : list (nat * T)) o :
  (∃ v, (o, v) ∈ ws) → (∀ v v', (o, v) ∈ ws → (o, v') ∈ ws → v = v') →
  ∃ v, ∀ buf, o < length buf → tl.commit buf ws !! o = Some v.
Proof.
  intros [v Hv] Huniq. exists v. intros buf Hlen.
  apply commit_lookup_written; [|by exists v|done].
  intros v' Hv'. by apply (Huniq v' v).
Qed.

(** A masked store through pairwise distinct offsets stores to the lanes
    whose mask is true, and to nothing else. *)
Lemma store_writes_exactly (os : list nat) (vs : list T) (ms : list bool) o :
  NoDup os → length os ≤ length vs →
  (o ∈ tl.touched os ms →
   ∃ v, ∀ buf, o < length buf → tl.store buf os vs ms !! o = Some v) ∧
  (o ∉ tl.touched os ms → ∀ buf, tl.store buf os vs ms !! o = buf !! o).
Proof.
  intros Hnd Hlen. split.
  - intros Ho. apply commit_stores.
    + by apply writes_touched.
    + intros v v' (k & Hk & Hv & _)%elem_of_writes
        (k' & Hk' & Hv' & _)%elem_of_writes.
      assert (k = k') as <- by (by eapply NoDup_lookup). congruence.
  - intros Ho buf. apply commit_lookup_untouched. intros v Hv. apply Ho.
    apply elem_of_writes in Hv as (k & Hk & _ & Hm).
    apply elem_of_touched. eauto.
Qed.

Lemma NoDup_shifted (b n : nat) : NoDup ((λ a, b + a) <$> seq 0 n).
Proof.
  apply NoDup_fmap_2; [|apply NoDup_seq]. intros a a' ?. simpl in *. lia.
Qed.

(** When the offsets [W] partition the extent, a kernel that stores exactly
    to [W] has every offset of the extent stored to by one cell and left
    alone by the others. *)
Lemma write_partition_stores {C} (grid : list C)
    (kernel : C → list T → list T) (W : C → list nat) extent :
  write_partition grid W extent → writes_exactly kernel W →
  store_partition grid kernel extent.
Proof.
  intros [Hdis Hcov] Hex o Ho. destruct (Hcov o Ho) as (c & Hc & Hoc).
  exists c. split_and!; [done|by apply Hex|].
  intros c' Hc' Hne. apply Hex. intros Hoc'. apply Hne.
  by apply (Hdis c' c o).
Qed.

End stores.

Section kernels_store.

Lemma add_writes_exactly {T} `{Arith T} dev (x y : list T) n S :
  writes_exactly (VectorAdd.add_kernel dev x y n S) (VectorAdd.add_touched n S).
Proof.
  intros pid o. unfold stores_to, leaves, VectorAdd.add_kernel,
    VectorAdd.add_touched. cbv zeta.
  apply store_writes_exactly.
  - unfold VectorAdd.add_offsets. rewrite arange_0. apply NoDup_shifted.
  - unfold VectorAdd.add_mask, VectorAdd.add_offsets, tl.load. cbv zeta.
    rewrite arange_0, !length_zip_with, !length_fmap, length_seq. lia.
Qed.

Lemma fwd_block_length row : length (Softmax.fwd_block row) = length row.
Proof. unfold Softmax.fwd_block. by rewrite !length_fmap. Qed.

Lemma bwd_block_length x_row dy_row :
  length dy_row = length x_row →
  length (Softmax.bwd_block x_row dy_row) = length x_row.
Proof.
  intros Hlen. unfold Softmax.bwd_block, Softmax.where_, Softmax.full.
  cbv zeta.
  repeat (rewrite ?length_zip_with, ?length_fmap, ?length_replicate,
            ?length_zip).
  lia.
Qed.

Lemma load_row_length {T} (past : nat → T) buf C B pid other :
  length (tl.load past buf (Softmax.row_offset C B pid)
            (Softmax.row_mask C B pid) other) = B.
Proof.
  unfold tl.load, Softmax.row_mask, Softmax.row_offset. cbv zeta.
  rewrite arange_0, length_zip_with, !length_fmap, length_seq. lia.
Qed.

Lemma softmax_fwd_writes_exactly dev x_ptr x_rows x_cols B :
  writes_exactly (Softmax.softmax_fwd_kernel dev x_ptr x_rows x_cols B)
    (Softmax.row_touched x_cols B).
Proof.
  intros pid o. unfold stores_to, leaves, Softmax.row_touched.
  assert (∀ buf, Softmax.softmax_fwd_kernel dev x_ptr x_rows x_cols B pid buf
                 = tl.store buf (Softmax.row_offset x_cols B pid)
                     (Softmax.fwd_block
                        (tl.load (past_fst dev) x_ptr
                           (Softmax.row_offset x_cols B pid)
                           (Softmax.row_mask x_cols B pid) Softmax.neg_inf))
                     (Softmax.row_mask x_cols B pid)) as Hk by done.
  setoid_rewrite Hk. apply store_writes_exactly.
  - unfold Softmax.row_offset. cbv zeta. rewrite arange_0. apply NoDup_shifted.
  - rewrite fwd_block_length, load_row_length.
    unfold Softmax.row_offset. cbv zeta.
    by rewrite arange_0, length_fmap, length_seq.
Qed.

Lemma softmax_bwd_writes_exactly dev x_ptr dy_ptr x_rows x_cols B :
  writes_exactly (Softmax.softmax_bwd_kernel dev x_ptr dy_ptr x_rows x_cols B)
    (Softmax.row_touched x_cols B).
Proof.
  intros pid o. unfold stores_to, leaves, Softmax.row_touched.
  setoid_rewrite softmax_bwd_kernel_store. apply store_writes_exactly.
  - unfold Softmax.row_offset. cbv zeta. rewrite arange_0. apply NoDup_shifted.
  - rewrite bwd_block_length by (by rewrite !load_row_length).
    rewrite load_row_length.
    unfold Softmax.row_offset. cbv zeta.
    by rewrite arange_0, length_fmap, length_seq.
Qed.

Lemma naive_writes_exactly {T} `{Arith T} dev (x y : list T)
    x_rows x_cols y_rows y_cols B :
  writes_exactly
    (NaiveMatmul.matmul_kernel dev x y x_rows x_cols y_rows y_cols B)
    (NaiveMatmul.output_touched y_cols).
Proof.
  intros pid o. unfold stores_to, leaves, NaiveMatmul.output_touched,
    NaiveMatmul.matmul_kernel. cbv zeta.
  apply store_writes_exactly; [|done].
  apply NoDup_singleton.
Qed.

End kernels_store.

Section tiled_shape.
Import TiledMatmul.
Context {T : Type} `{Arith T}.
Variable p : kernel_args.
Hypothesis HBK : 0 < p.(BLOCK_SIZE_K).

(** The three blocks of the loop state keep their shapes. *)
Lemma state_at_shape dev x_ptr y_ptr pid k :
  ∃ fx fy f,
    state_at p dev x_ptr y_ptr pid k
    = LoopState (tab2 p.(BLOCK_SIZE_X) p.(BLOCK_SIZE_K) fx)
                (tab2 p.(BLOCK_SIZE_K) p.(BLOCK_SIZE_Y) fy)
                (tab2 p.(BLOCK_SIZE_X) p.(BLOCK_SIZE_Y) f).
Proof.
  unfold state_at. induction k as [|k (fx & fy & f & IH)].
  - simpl. unfold loop_init.
    rewrite x_ptrs_init_tab2, y_ptrs_init_tab2, zeros_tab2. by do 3 eexists.
  - rewrite seq_S, foldl_snoc, IH. unfold k_step.
    cbn [x_ptrs y_ptrs accumulator Nat.add].
    rewrite x_load_mask_tab2, y_load_mask_tab2, !load2_tab2.
    rewrite dot_tab2 by done. rewrite !tab2_fmap, tab2_zip. by do 3 eexists.
Qed.

Lemma output_block_shape dev x_ptr y_ptr pid :
  ∃ f, output_block p dev x_ptr y_ptr pid
       = tab2 p.(BLOCK_SIZE_X) p.(BLOCK_SIZE_Y) f.
Proof.
  unfold output_block. cbv zeta.
  destruct (state_at_shape dev x_ptr y_ptr pid
              (tl.cdiv p.(x_cols) p.(BLOCK_SIZE_K))) as (fx & fy & f & ->).
  simpl. rewrite tab2_fmap. by eexists.
Qed.

Lemma tiled_writes_exactly dev x_ptr y_ptr :
  writes_exactly (matmul_kernel p dev x_ptr y_ptr) (output_touched p).
Proof.
  intros pid o. unfold stores_to, leaves.
  destruct (output_block_shape dev x_ptr y_ptr pid) as [f Hf].
  assert (∀ v, (o, v) ∈ tl.writes2 (output_ptrs p pid)
                           (output_block p dev x_ptr y_ptr pid)
                           (output_mask p pid) ↔
               ∃ i j, i < p.(BLOCK_SIZE_X) ∧ j < p.(BLOCK_SIZE_Y) ∧
                      pid.1 * p.(BLOCK_SIZE_X) + i < p.(x_rows) ∧
                      pid.2 * p.(BLOCK_SIZE_Y) + j < p.(y_cols) ∧
                      o = (pid.1 * p.(BLOCK_SIZE_X) + i) * p.(y_cols)
                          + (pid.2 * p.(BLOCK_SIZE_Y) + j) ∧
                      v = f i j) as Hw.
  { intros v. rewrite Hf, output_ptrs_tab2, output_mask_tab2.
    rewrite elem_of_writes2_tab2. split.
    - intros (i & j & Hi & Hj & [Hr Hc]%andb_true_iff & -> & ->).
      apply Nat.ltb_lt in Hr, Hc. by exists i, j.
    - intros (i & j & Hi & Hj & Hr & Hc & -> & ->). exists i, j.
      split_and!; [done|done| |done|done].
      apply andb_true_iff. split; by apply Nat.ltb_lt. }
  setoid_rewrite tiled_kernel_store. split.
  - intros (i & j & Hi & Hj & Hr & Hc & ->)%elem_of_output_touched.
    apply commit_stores.
    + exists (f i j). apply Hw. by exists i, j.
    + intros v v' (i1 & j1 & _ & _ & _ & Hc1 & Ho1 & ->)%Hw
        (i2 & j2 & _ & _ & _ & Hc2 & Ho2 & ->)%Hw.
      rewrite Ho1 in Ho2.
      apply row_major_inj in Ho2 as [Hi12 Hj12]; [|done..].
      assert (i1 = i2) as -> by lia. assert (j1 = j2) as -> by lia. done.
  - intros Ho buf. apply commit_lookup_untouched. intros v Hv. apply Ho.
    apply Hw in Hv as (i & j & Hi & Hj & Hr & Hc & -> & _).
    apply elem_of_output_touched. by exists i, j.
Qed.

End tiled_shape.

(* ================================================================== *)
(** * The claims *)

(** C2 (the code departs from it): on the 4x3 times 3x2 example the one
    cell of the tiled kernel loads X at the 48 offsets 0..47 and Y at
    offsets up to 19, while X holds 12 cells and Y holds 6: the loads mask
    the inner dimension only, not the rows of X nor the columns of Y.  The
    store is masked on both edges and touches the 8 output cells only. *)
Theorem tiled_loads_leave_the_buffers :
  TiledMatmul.matmul_grid (TiledMatmul.KernelArgs 4 3 3 2 16 16 32) = [(0, 0)] ∧
  @TiledMatmul.x_touched Z (Z_arith (λ _ v, v))
    (TiledMatmul.KernelArgs 4 3 3 2 16 16 32) (Z_device 0)
    (t_data (arange_tensor float32 4 3)) (t_data (arange_tensor float32 3 2))
    (0, 0) = seq 0 48 ∧
  length (t_data (arange_tensor float32 4 3)) = 12 ∧
  @TiledMatmul.y_touched Z (Z_arith (λ _ v, v))
    (TiledMatmul.KernelArgs 4 3 3 2 16 16 32) (Z_device 0)
    (t_data (arange_tensor float32 4 3)) (t_data (arange_tensor float32 3 2))
    (0, 0) = seq 0 16 ++ seq 2 16 ++ seq 4 16 ∧
  length (t_data (arange_tensor float32 3 2)) = 6 ∧
  TiledMatmul.output_touched (TiledMatmul.KernelArgs 4 3 3 2 16 16 32) (0, 0)
  = seq 0 8.
Proof. vm_compute. done. Qed.

(** C6: for every length N and every block size S > 0 the launch of
    [add_kernel] over [cdiv N S] cells returns the elementwise sum of the two
    length-N inputs, also when S does not divide N and the last block is
    partly masked; in particular [add], which passes S = 1024. *)
Theorem add_is_elementwise_sum (T : Type) (A : Arith T) (S : nat)
    (dev : device T) (x y : list T) :
  0 < S → length y = length x →
  VectorAdd.add_launch S dev x y = Returned (zip_with tadd x y) ∧
  VectorAdd.add dev x y = Returned (zip_with tadd x y) ∧
  ∀ i xi yi, x !! i = Some xi → y !! i = Some yi →
    ∃ out, VectorAdd.add_launch S dev x y = Returned out ∧
           out !! i = Some (tadd xi yi).
Proof.
  intros HS Hlen.
  assert (∀ S', 0 < S' →
    VectorAdd.add_launch S' dev x y = Returned (zip_with tadd x y)) as Hall.
  { intros S' HS'. unfold VectorAdd.add_launch. cbv zeta. f_equal.
    apply list_eq. intros i.
    assert (length (VectorAdd.empty_like dev x) = length x) as Hel
      by (unfold VectorAdd.empty_like; by rewrite length_fmap, length_seq).
    rewrite Hel.
    destruct (decide (i < length x)) as [Hi|Hi].
    - rewrite add_launch_lookup by done.
      destruct (lookup_lt_is_Some_2 x i) as [xi Hxi]; [done|].
      destruct (lookup_lt_is_Some_2 y i) as [yi Hyi]; [lia|].
      rewrite lookup_zip_with, Hxi, Hyi. simpl.
      by rewrite (read_in_bounds _ _ _ _ Hxi), (read_in_bounds _ _ _ _ Hyi).
    - rewrite !lookup_ge_None_2; [done| |].
      + rewrite length_zip_with. lia.
      + rewrite (launch_commit _ (VectorAdd.add_writes dev x y (length x) S'))
          by (intros; apply add_kernel_commit).
        rewrite commit_length, Hel. lia. }
  split_and!.
  - by apply Hall.
  - apply Hall. lia.
  - intros i xi yi Hxi Hyi. eexists. split; [by apply Hall|].
    by rewrite lookup_zip_with, Hxi, Hyi.
Qed.

Lemma add_is_elementwise_sum_witness :
  (0 < 4 ∧ length [10; 20; 30; 40; 50; 60]%Z = length [1; 2; 3; 4; 5; 6]%Z) ∧
  @VectorAdd.add_launch Z (Z_arith (λ _ v, v)) 4 (Z_device 0)
    [1; 2; 3; 4; 5; 6]%Z [10; 20; 30; 40; 50; 60]%Z
  = Returned [11; 22; 33; 44; 55; 66]%Z.
Proof.
  split; [split; [lia|reflexivity]|].
  exact (proj1 (add_is_elementwise_sum Z (Z_arith (λ _ v, v)) 4 (Z_device 0)
                  [1; 2; 3; 4; 5; 6]%Z [10; 20; 30; 40; 50; 60]%Z
                  ltac:(lia) eq_refl)).
Defined.



Lemma softmax_bwd_rows dev (d d' : dtype) rows cols (xs dys : list R) i :
  length xs = rows * cols → length dys = rows * cols → i < rows →
  row_of cols
    (launch (grid1 rows)
       (Softmax.softmax_bwd_kernel dev (Fin <$> xs) (Fin <$> dys) rows cols
          (tl.next_power_of_2 cols))
       (uninit dev <$> seq 0 (length (Fin <$> xs)))) i
  = Fin <$> Reference.softmax_bwd_row (row_of cols xs i) (row_of cols dys i).
Proof.
  intros Hlen Hlen' Hi. destruct (decide (cols = 0)) as [->|Hc].
  - unfold row_of. by rewrite !take_0.
  - destruct (softmax_bwd_row dev d d' rows cols xs dys i) as (out & Heq & _ & _ & Hrow);
      [lia|done..|].
    rewrite Softmax_backward_returns in Heq by (simpl; lia).
    injection Heq as <-. exact Hrow.
Qed.



(** C5: for every RxC input [x] (C >= 1) and every upstream gradient [dy] of
    reals, each row of the gradient [Softmax.backward] returns holds real
    numbers whose sum, over the true extent of the row, is 0. *)
Theorem softmax_bwd_rows_sum_to_zero (dev : device xreal) (d d' : dtype)
    (rows cols : nat) (xs dys : list R) :
  0 < cols → length xs = rows * cols → length dys = rows * cols →
  ∃ out, Softmax.Softmax_backward dev (Tensor d rows cols (Fin <$> xs))
           (Tensor d' rows cols (Fin <$> dys)) = Returned out ∧
         t_rows out = rows ∧ t_cols out = cols ∧
         ∀ i, i < rows →
           ∃ row : list R, row_of cols (t_data out) i = Fin <$> row ∧
                           length row = cols ∧ Reference.Rsum row = 0%R.
Proof.
  intros Hc Hlen Hlen'. rewrite Softmax_backward_returns by done.
  eexists. split; [reflexivity|]. split_and!; [done..|].
  intros i Hi.
  exists (Reference.softmax_bwd_row (row_of cols xs i) (row_of cols dys i)).
  assert (length (row_of cols xs i) = cols) as Hx by by eapply row_of_length.
  assert (length (row_of cols dys i) = cols) as Hdy by by eapply row_of_length.
  split_and!.
  - cbn [t_data]. by apply (softmax_bwd_rows dev d d').
  - rewrite softmax_bwd_row_length; congruence.
  - apply softmax_bwd_row_sum. congruence.
Qed.

Lemma softmax_bwd_rows_sum_to_zero_witness :
  (0 < 3 ∧ length [2; 2; 1]%R = 1 * 3 ∧ length [1; 0; 0]%R = 1 * 3) ∧
  ∃ out, Softmax.Softmax_backward nan_device
           (Tensor float32 1 3 (Fin <$> [2; 2; 1]%R))
           (Tensor float32 1 3 (Fin <$> [1; 0; 0]%R)) = Returned out ∧
         t_rows out = 1 ∧ t_cols out = 3 ∧
         ∀ i, i < 1 →
           ∃ row : list R, row_of 3 (t_data out) i = Fin <$> row ∧
                           length row = 3 ∧ Reference.Rsum row = 0%R.
Proof.
  split; [split_and!; (lia || reflexivity)|].
  exact (softmax_bwd_rows_sum_to_zero nan_device float32 float32 1 3
           [2; 2; 1]%R [1; 0; 0]%R ltac:(lia) eq_refl eq_refl).
Defined.

(** C7: each of the five kernels stores exactly to the offsets of its
    store whose mask is true: after a cell has run, the buffer holds at
    these offsets values that do not depend on what it held, and is
    unchanged everywhere else.  Over the grid these offsets are pairwise
    disjoint and cover the output, so every element of the output is stored
    to by exactly one cell, which every other cell leaves alone: vector
    addition for every block size S > 0; the softmax forward and backward
    kernels with the block size the hosts choose; the row-times-column
    matmul; the tiled matmul for all positive block sizes. *)
Theorem kernels_write_partition :
  (∀ (T : Type) (A : Arith T) (dev : device T) (x y : list T) (n S : nat),
     0 < S →
     writes_exactly (VectorAdd.add_kernel dev x y n S)
       (VectorAdd.add_touched n S) ∧
     write_partition (VectorAdd.add_grid n S) (VectorAdd.add_touched n S) n ∧
     store_partition (VectorAdd.add_grid n S)
       (VectorAdd.add_kernel dev x y n S) n) ∧
  (∀ (dev : device xreal) (x_ptr : list xreal) (rows cols : nat),
     let BLOCK_SIZE := tl.next_power_of_2 cols in
     writes_exactly (Softmax.softmax_fwd_kernel dev x_ptr rows cols BLOCK_SIZE)
       (Softmax.row_touched cols BLOCK_SIZE) ∧
     write_partition (grid1 rows) (Softmax.row_touched cols BLOCK_SIZE)
       (rows * cols) ∧
     store_partition (grid1 rows)
       (Softmax.softmax_fwd_kernel dev x_ptr rows cols BLOCK_SIZE)
       (rows * cols)) ∧
  (∀ (dev : device xreal) (x_ptr dy_ptr : list xreal) (rows cols : nat),
     let BLOCK_SIZE := tl.next_power_of_2 cols in
     writes_exactly
       (Softmax.softmax_bwd_kernel dev x_ptr dy_ptr rows cols BLOCK_SIZE)
       (Softmax.row_touched cols BLOCK_SIZE) ∧
     store_partition (grid1 rows)
       (Softmax.softmax_bwd_kernel dev x_ptr dy_ptr rows cols BLOCK_SIZE)
       (rows * cols)) ∧
  (∀ (T : Type) (A : Arith T) (dev : device T) (X Y : tensor T) (B : nat),
     let kernel :=
       NaiveMatmul.matmul_kernel dev (t_data X)
         (t_data (transpose_contiguous Y))
         (t_rows X) (t_cols X) (t_rows Y) (t_cols Y) B in
     writes_exactly kernel (NaiveMatmul.output_touched (t_cols Y)) ∧
     write_partition (NaiveMatmul.matmul_grid X Y)
       (NaiveMatmul.output_touched (t_cols Y)) (t_rows X * t_cols Y) ∧
     store_partition (NaiveMatmul.matmul_grid X Y) kernel
       (t_rows X * t_cols Y)) ∧
  (∀ (T : Type) (A : Arith T) (p : TiledMatmul.kernel_args) (dev : device T)
     (x_ptr y_ptr : list T),
     0 < p.(TiledMatmul.BLOCK_SIZE_X) → 0 < p.(TiledMatmul.BLOCK_SIZE_Y) →
     0 < p.(TiledMatmul.BLOCK_SIZE_K) →
     writes_exactly (TiledMatmul.matmul_kernel p dev x_ptr y_ptr)
       (TiledMatmul.output_touched p) ∧
     write_partition (TiledMatmul.matmul_grid p) (TiledMatmul.output_touched p)
       (p.(TiledMatmul.x_rows) * p.(TiledMatmul.y_cols)) ∧
     store_partition (TiledMatmul.matmul_grid p)
       (TiledMatmul.matmul_kernel p dev x_ptr y_ptr)
       (p.(TiledMatmul.x_rows) * p.(TiledMatmul.y_cols))).
Proof.
  split_and!.
  - intros T A dev x y n S HS.
    pose proof (add_writes_exactly dev x y n S) as Hex.
    pose proof (add_write_partition n S HS) as Hp.
    split_and!; [done|done|]. by eapply write_partition_stores.
  - intros dev x_ptr rows cols B.
    pose proof (softmax_fwd_writes_exactly dev x_ptr rows cols B) as Hex.
    pose proof (row_write_partition rows cols B (next_power_of_2_ge cols))
      as Hp.
    split_and!; [done|done|]. by eapply write_partition_stores.
  - intros dev x_ptr dy_ptr rows cols B.
    pose proof (softmax_bwd_writes_exactly dev x_ptr dy_ptr rows cols B)
      as Hex.
    pose proof (row_write_partition rows cols B (next_power_of_2_ge cols))
      as Hp.
    split; [done|]. by eapply write_partition_stores.
  - intros T A dev X Y B kernel.
    pose proof (naive_writes_exactly dev (t_data X)
                  (t_data (transpose_contiguous Y))
                  (t_rows X) (t_cols X) (t_rows Y) (t_cols Y) B) as Hex.
    pose proof (naive_write_partition X Y) as Hp.
    split_and!; [done|done|]. by eapply write_partition_stores.
  - intros T A p dev x_ptr y_ptr HBX HBY HBK.
    pose proof (tiled_writes_exactly p HBK dev x_ptr y_ptr) as Hex.
    pose proof (tiled_write_partition p HBX HBY) as Hp.
    split_and!; [done|done|]. by eapply write_partition_stores.
Qed.

Lemma kernels_write_partition_witness :
  (0 < 4 ∧ 0 < 16 ∧ 0 < 32) ∧
  store_partition (VectorAdd.add_grid 6 4)
    (@VectorAdd.add_kernel Z (Z_arith (λ _ v, v)) (Z_device 0)
       [1; 2; 3; 4; 5; 6]%Z [10; 20; 30; 40; 50; 60]%Z 6 4) 6 ∧
  store_partition
    (TiledMatmul.matmul_grid (TiledMatmul.KernelArgs 4 3 3 2 16 16 32))
    (@TiledMatmul.matmul_kernel Z (Z_arith (λ _ v, v))
       (TiledMatmul.KernelArgs 4 3 3 2 16 16 32) (Z_device 0)
       (t_data (arange_tensor float32 4 3))
       (t_data (arange_tensor float32 3 2)))
    (4 * 2).
Proof.
  split; [lia|]. split.
  - exact (proj2 (proj2
             (proj1 kernels_write_partition Z (Z_arith (λ _ v, v)) (Z_device 0)
                [1; 2; 3; 4; 5; 6]%Z [10; 20; 30; 40; 50; 60]%Z 6 4
                ltac:(lia)))).
  - exact (proj2 (proj2
             (proj2 (proj2 (proj2 (proj2 kernels_write_partition)))
                Z (Z_arith (λ _ v, v))
                (TiledMatmul.KernelArgs 4 3 3 2 16 16 32) (Z_device 0)
                (t_data (arange_tensor float32 4 3))
                (t_data (arange_tensor float32 3 2))
                ltac:(simpl; lia) ltac:(simpl; lia) ltac:(simpl; lia)))).
Defined.

(** C8 fails on the code: X has 2 columns and Y has 1 row, and yet both host
    functions launch their one grid cell and return a 1x1 tensor; neither
    raises [ShapeMismatch]. *)
Lemma matmul_shape_mismatch_returns :
  (t_cols mismatched_X =? t_rows mismatched_Y) = false ∧
  NaiveMatmul.matmul_grid mismatched_X mismatched_Y = [(0, 0)] ∧
  @NaiveMatmul.matmul Z (Z_arith (λ _ v, v)) (Z_device 0)
    mismatched_X mismatched_Y
  = Returned (Tensor float32 1 1 [10]%Z) ∧
  TiledMatmul.matmul_grid (TiledMatmul.KernelArgs 1 2 1 1 16 16 32) = [(0, 0)] ∧
  @TiledMatmul.matmul Z (Z_arith (λ _ v, v)) (Z_device 0)
    mismatched_X mismatched_Y
  = Returned (Tensor float32 1 1 [10]%Z).
Proof. vm_compute. done. Qed.

(** C8, as the code behaves: the host functions compare no extents.  When
    X's column count differs from Y's row count neither host ends in
    [ShapeMismatch].  The tiled host, and the row-times-column host when X
    has a column, return a tensor of [x_rows] by [y_cols] entries, the
    launch being over every cell of the grid: [x_rows * y_cols] cells for
    the row-times-column matmul, [cdiv(x_rows, 16) * cdiv(y_cols, 16)] for
    the tiled one.  When X has no column the launch of the row-times-column
    kernel raises [ValueError], its block size being 0. *)
Theorem matmul_hosts_check_no_shape (T : Type) (A : Arith T) (dev : device T)
    (X Y : tensor T) :
  t_cols X ≠ t_rows Y →
  (0 < t_cols X →
   ∃ out, NaiveMatmul.matmul dev X Y = Returned out ∧
          t_rows out = t_rows X ∧ t_cols out = t_cols Y ∧
          length (t_data out) = t_rows X * t_cols Y) ∧
  (t_cols X = 0 → NaiveMatmul.matmul dev X Y = Raised ValueError) ∧
  NaiveMatmul.matmul dev X Y ≠ Raised ShapeMismatch ∧
  length (NaiveMatmul.matmul_grid X Y) = t_rows X * t_cols Y ∧
  (∃ out, TiledMatmul.matmul dev X Y = Returned out ∧
          t_rows out = t_rows X ∧ t_cols out = t_cols Y ∧
          length (t_data out) = t_rows X * t_cols Y) ∧
  length (TiledMatmul.matmul_grid
            (TiledMatmul.KernelArgs (t_rows X) (t_cols X) (t_rows Y) (t_cols Y)
               16 16 32))
  = tl.cdiv (t_rows X) 16 * tl.cdiv (t_cols Y) 16.
Proof.
  intros _.
  assert (0 < t_cols X →
          NaiveMatmul.matmul dev X Y
          = Returned
              (Tensor torch_default_dtype (t_rows X) (t_cols Y)
                 (launch (NaiveMatmul.matmul_grid X Y)
                    (NaiveMatmul.matmul_kernel dev (t_data X)
                       (t_data (transpose_contiguous Y)) (t_rows X) (t_cols X)
                       (t_rows Y) (t_cols Y) (tl.next_power_of_2 (t_cols X)))
                    (t_data (torch_empty dev (t_rows X) (t_cols Y))))))
    as Hret.
  { intros Hc. unfold NaiveMatmul.matmul. cbv zeta.
    by rewrite jit_launch_valid by (by apply arange_valid_block). }
  assert (t_cols X = 0 → NaiveMatmul.matmul dev X Y = Raised ValueError)
    as Hraise.
  { intros Hc. unfold NaiveMatmul.matmul. cbv zeta. by rewrite Hc. }
  split_and!.
  - intros Hc. rewrite Hret by done.
    eexists. split; [reflexivity|]. split_and!; [done..|]. simpl.
    rewrite (launch_commit _
      (λ pid, [(NaiveMatmul.output_offset (t_cols Y) pid.1 pid.2,
                NaiveMatmul.cell_output dev (t_data X)
                  (t_data (transpose_contiguous Y)) (t_cols X) (t_rows Y)
                  (tl.next_power_of_2 (t_cols X)) pid)])) by done.
    by rewrite commit_length, length_fmap, length_seq.
  - exact Hraise.
  - destruct (decide (t_cols X = 0)) as [Hc|Hc].
    + by rewrite Hraise.
    + by rewrite Hret by lia.
  - unfold NaiveMatmul.matmul_grid, grid2.
    apply (flat_tab_length (λ i j, (i, j))).
  - eexists. split; [reflexivity|]. split_and!; [done..|]. simpl.
    rewrite (launch_commit _
      (λ pid, tl.writes2 (TiledMatmul.output_ptrs _ pid)
                (TiledMatmul.output_block _ dev (t_data X) (t_data Y) pid)
                (TiledMatmul.output_mask _ pid))) by done.
    by rewrite commit_length, length_replicate.
  - unfold TiledMatmul.matmul_grid, grid2. simpl.
    apply (flat_tab_length (λ i j, (i, j))).
Qed.

Lemma matmul_hosts_check_no_shape_witness :
  t_cols mismatched_X ≠ t_rows mismatched_Y ∧
  @NaiveMatmul.matmul Z (Z_arith (λ _ v, v)) (Z_device 0)
    mismatched_X mismatched_Y ≠ Raised ShapeMismatch.
Proof.
  assert (t_cols mismatched_X ≠ t_rows mismatched_Y) as Hne by (simpl; lia).
  split; [exact Hne|].
  exact (proj1 (proj2 (proj2
           (matmul_hosts_check_no_shape Z (Z_arith (λ _ v, v)) (Z_device 0)
              mismatched_X mismatched_Y Hne)))).
Defined.

(** C9 (the code departs from it): the kernel casts the accumulator to
    [float16], while the buffer the host allocates with [torch.zeros], and
    returns, is [float32] for every input. *)
Theorem tiled_cast_is_not_the_output_dtype :
  TiledMatmul.accumulator_cast_dtype = float16 ∧
  (∀ (T : Type) (A : Arith T) (rows cols : nat),
     t_dtype (torch_zeros rows cols) = float32) ∧
  (∀ (T : Type) (A : Arith T) (dev : device T) (X Y : tensor T),
     ∃ out, TiledMatmul.matmul dev X Y = Returned out ∧ t_dtype out = float32).
Proof.
  split_and!; [done..|]. intros T A dev X Y. eexists. split; reflexivity.
Qed.

(** C10: for every well-formed X of shape r x c with c >= 1 and Y of shape
    r2 x c2, equal inner extents or not, the row-times-column [matmul]
    raises nothing: every load and store of every cell stays inside its
    buffer, and the tensor returned has r x c2 entries, entry (i, j) being
    the dot product of the first [min c r2] entries of row i of X and of
    column j of Y.  The lanes beyond either extent are loaded as 0. *)
Theorem naive_matmul_truncates_to_min (T : Type) (A : Arith T)
    (E : ExactArith T) (dev : device T) (X Y : tensor T) :
  well_formed X → well_formed Y → 0 < t_cols X →
  NaiveMatmul.matmul dev X Y
  = Returned (Tensor float32 (t_rows X) (t_cols Y)
                (Reference.matmul_data X Y (t_cols X `min` t_rows Y))) ∧
  (∀ e, NaiveMatmul.matmul dev X Y ≠ Raised e) ∧
  (∀ i j, i < t_rows X → j < t_cols Y →
     Reference.matmul_data X Y (t_cols X `min` t_rows Y) !! (i * t_cols Y + j)
     = Some (Reference.dot_product X Y (t_cols X `min` t_rows Y) i j)) ∧
  (∀ pid, pid ∈ NaiveMatmul.matmul_grid X Y →
     in_bounds (length (t_data X))
       (NaiveMatmul.x_touched (t_cols X) (tl.next_power_of_2 (t_cols X)) pid) ∧
     in_bounds (length (t_data (transpose_contiguous Y)))
       (NaiveMatmul.y_touched (t_rows Y) (tl.next_power_of_2 (t_cols X)) pid) ∧
     in_bounds (t_rows X * t_cols Y)
       (NaiveMatmul.output_touched (t_cols Y) pid)).
Proof.
  intros HX HY Hc. split_and!.
  - by apply naive_matmul_returns.
  - intros e. by rewrite naive_matmul_returns.
  - intros i j Hi Hj. unfold Reference.matmul_data.
    by rewrite (flat_tab_lookup (λ i j, Reference.dot_product X Y _ i j)).
  - intros pid Hpid. by apply naive_in_bounds.
Qed.

Lemma naive_matmul_truncates_to_min_witness :
  (well_formed (arange_tensor float32 2 3) ∧
   well_formed (arange_tensor float32 2 2) ∧
   0 < t_cols (arange_tensor float32 2 3)) ∧
  @NaiveMatmul.matmul Z (Z_arith (λ _ v, v)) (Z_device 0)
    (arange_tensor float32 2 3) (arange_tensor float32 2 2)
  = Returned (Tensor float32 2 2 [2; 3; 8; 15]%Z).
Proof.
  split; [split_and!; [reflexivity|reflexivity|simpl; lia]|].
  exact (proj1 (naive_matmul_truncates_to_min Z (Z_arith (λ _ v, v))
                  (Z_exact _) (Z_device 0)
                  (arange_tensor float32 2 3) (arange_tensor float32 2 2)
                  eq_refl eq_refl ltac:(simpl; lia))).
Defined.

(* ================================================================== *)
(** * Further properties *)

(** X1: for all extents, block sizes and program ids, the masked store of
    the tiled kernel touches cells of the output only. *)
Theorem tiled_store_stays_in_bounds (p : TiledMatmul.kernel_args)
    (pid : nat * nat) :
  in_bounds (p.(TiledMatmul.x_rows) * p.(TiledMatmul.y_cols))
            (TiledMatmul.output_touched p pid).
Proof. apply tiled_store_in_bounds. Qed.

(** X2: the tiled kernel relies on [x_rows] being a multiple of
    [BLOCK_SIZE_X].  With positive block sizes and nonempty X and Y, the
    loads of X of every cell of the grid stay inside X exactly when
    [BLOCK_SIZE_X] divides [x_rows]; otherwise the last row block reads past
    the end of X. *)
Theorem tiled_x_loads_in_bounds_iff_aligned (T : Type) (A : Arith T)
    (E : ExactArith T) (p : TiledMatmul.kernel_args) (dev : device T)
    (x_ptr y_ptr : list T) :
  0 < p.(TiledMatmul.BLOCK_SIZE_X) → 0 < p.(TiledMatmul.BLOCK_SIZE_Y) →
  0 < p.(TiledMatmul.BLOCK_SIZE_K) →
  0 < p.(TiledMatmul.x_cols) → 0 < p.(TiledMatmul.y_cols) →
  (∀ pid, pid ∈ TiledMatmul.matmul_grid p →
     in_bounds (p.(TiledMatmul.x_rows) * p.(TiledMatmul.x_cols))
               (TiledMatmul.x_touched p dev x_ptr y_ptr pid))
  ↔ p.(TiledMatmul.x_rows) mod p.(TiledMatmul.BLOCK_SIZE_X) = 0.
Proof.
  intros HBX HBY HBK Hc Hyc. split.
  - intros Hin.
    destruct (decide (p.(TiledMatmul.x_rows) mod p.(TiledMatmul.BLOCK_SIZE_X)
                      = 0)) as [|Hne]; [done|].
    destruct (x_loads_out_of_bounds_misaligned p HBX HBK dev x_ptr y_ptr
                Hne HBY Hc Hyc) as (pid & o & Hpid & Ho & Hge).
    specialize (Hin pid Hpid o Ho). lia.
  - intros Hal pid Hpid. by apply x_loads_in_bounds_aligned.
Qed.

Lemma tiled_x_loads_in_bounds_iff_aligned_witness :
  (0 < 16 ∧ 0 < 16 ∧ 0 < 32 ∧ 0 < 3 ∧ 0 < 2) ∧
  ((∀ pid, pid ∈ TiledMatmul.matmul_grid
                    (TiledMatmul.KernelArgs 4 3 3 2 16 16 32) →
      in_bounds (4 * 3)
        (@TiledMatmul.x_touched Z (Z_arith (λ _ v, v))
           (TiledMatmul.KernelArgs 4 3 3 2 16 16 32) (Z_device 0)
           (t_data (arange_tensor float32 4 3))
           (t_data (arange_tensor float32 3 2)) pid))
   ↔ 4 mod 16 = 0).
Proof.
  split; [lia|].
  exact (tiled_x_loads_in_bounds_iff_aligned Z (Z_arith (λ _ v, v))
           (Z_exact _) (TiledMatmul.KernelArgs 4 3 3 2 16 16 32) (Z_device 0)
           (t_data (arange_tensor float32 4 3))
           (t_data (arange_tensor float32 3 2))
           ltac:(simpl; lia) ltac:(simpl; lia) ltac:(simpl; lia)
           ltac:(simpl; lia) ltac:(simpl; lia)).
Defined.

(** X3: the tiled kernel truncates like the row-times-column one.  For all
    positive block sizes and well-formed X and Y, equal inner extents or not,
    the tiled launch returns, cast, the dot products over the first
    [min x_cols y_rows] entries. *)
Theorem tiled_matmul_truncates_to_min (T : Type) (A : Arith T)
    (E : ExactArith T) (BX BY BK : nat) (dev : device T) (X Y : tensor T) :
  0 < BX → 0 < BY → 0 < BK → well_formed X → well_formed Y →
  TiledMatmul.matmul_launch BX BY BK dev X Y
  = Returned (Tensor float32 (t_rows X) (t_cols Y)
                (tcast float16
                   <$> Reference.matmul_data X Y (t_cols X `min` t_rows Y))).
Proof. intros. by apply tiled_matmul_returns. Qed.

Lemma tiled_matmul_truncates_to_min_witness :
  (0 < 16 ∧ 0 < 16 ∧ 0 < 32 ∧ well_formed (arange_tensor float32 2 3) ∧
   well_formed (arange_tensor float32 2 2)) ∧
  @TiledMatmul.matmul_launch Z (Z_arith (λ _ v, v)) 16 16 32 (Z_device 0)
    (arange_tensor float32 2 3) (arange_tensor float32 2 2)
  = Returned (Tensor float32 2 2 [2; 3; 8; 15]%Z).
Proof.
  split; [split_and!; (lia || reflexivity)|].
  exact (tiled_matmul_truncates_to_min Z (Z_arith (λ _ v, v)) (Z_exact _)
           16 16 32 (Z_device 0)
           (arange_tensor float32 2 3) (arange_tensor float32 2 2)
           ltac:(lia) ltac:(lia) ltac:(lia) eq_refl eq_refl).
Defined.

(** X4: [softmax_fwd] is invariant under adding a constant to the whole
    input: every row of the output stays the same. *)
Theorem softmax_fwd_shift_invariant (dev : device xreal) (d : dtype)
    (rows cols : nat) (xs : list R) (c : R) :
  0 < cols → length xs = rows * cols →
  ∃ out out',
    Softmax.softmax_fwd dev (Tensor d rows cols (Fin <$> xs)) = Returned out ∧
    Softmax.softmax_fwd dev
      (Tensor d rows cols (Fin <$> ((λ x, x + c)%R <$> xs))) = Returned out' ∧
    ∀ i, i < rows → row_of cols (t_data out') i = row_of cols (t_data out) i.
Proof.
  intros Hc Hlen. rewrite !softmax_fwd_returns by done.
  do 2 eexists. split_and!; [reflexivity..|]. intros i Hi.
  destruct (softmax_fwd_row dev d rows cols xs i Hc Hlen Hi)
    as (out & Heq & _ & _ & Hrow).
  destruct (softmax_fwd_row dev d rows cols ((λ x, x + c)%R <$> xs) i Hc
              ltac:(by rewrite length_fmap) Hi)
    as (out' & Heq' & _ & _ & Hrow').
  rewrite softmax_fwd_returns in Heq, Heq' by done.
  injection Heq as <-. injection Heq' as <-.
  etransitivity; [exact Hrow'|]. symmetry. etransitivity; [exact Hrow|].
  by rewrite row_of_fmap, softmax_row_shift.
Qed.

Lemma softmax_fwd_shift_invariant_witness :
  (0 < 3 ∧ length [1; 2; 3]%R = 1 * 3) ∧
  ∃ out out',
    Softmax.softmax_fwd nan_device (Tensor float32 1 3 (Fin <$> [1; 2; 3]%R))
    = Returned out ∧
    Softmax.softmax_fwd nan_device
      (Tensor float32 1 3 (Fin <$> ((λ x, x + 10)%R <$> [1; 2; 3]%R)))
    = Returned out' ∧
    ∀ i, i < 1 → row_of 3 (t_data out') i = row_of 3 (t_data out) i.
Proof.
  split; [split; [lia|reflexivity]|].
  exact (softmax_fwd_shift_invariant nan_device float32 1 3 [1; 2; 3]%R 10%R
           ltac:(lia) eq_refl).
Defined.


(* ================================================================== *)
(** * Cells run in any order *)

Section order.
Context {T : Type}.

Lemma elem_of_writes_touched (os : list nat) (vs : list T) (ms : list bool)
    o v :
  (o, v) ∈ tl.writes os vs ms → o ∈ tl.touched os ms.
Proof.
  intros (k & Ho & _ & Hm)%elem_of_writes. apply elem_of_touched. eauto.
Qed.

Lemma elem_of_writes2_touched2 (os : list (list nat)) (vs : list (list T))
    (ms : list (list bool)) o v :
  (o, v) ∈ tl.writes2 os vs ms → o ∈ tl.touched2 os ms.
Proof.
  intros (i & ro & rv & rm & Ho & _ & Hm & Hw)%elem_of_writes2.
  apply elem_of_touched2. exists i, ro, rm.
  eauto using elem_of_writes_touched.
Qed.

Lemma insert_commit_commute (buf : list T) o v ws :
  (∀ v', (o, v') ∉ ws) →
  tl.commit (<[o := v]> buf) ws = <[o := v]> (tl.commit buf ws).
Proof.
  revert buf. induction ws as [|[o' v'] ws IH]; intros buf Hno; [done|].
  unfold tl.commit in *. simpl.
  assert (o ≠ o') as Hne.
  { intros ->. apply (Hno v'). left. }
  rewrite (list_insert_insert_ne _ o' o) by done.
  apply IH. intros v'' Hin. apply (Hno v''). by right.
Qed.

Lemma commit_commute (buf : list T) ws ws' :
  (∀ o v v', (o, v) ∈ ws → (o, v') ∈ ws' → False) →
  tl.commit (tl.commit buf ws) ws' = tl.commit (tl.commit buf ws') ws.
Proof.
  revert buf. induction ws as [|[o v] ws IH]; intros buf Hdis; [done|].
  change (tl.commit buf ((o, v) :: ws)) with (tl.commit (<[o := v]> buf) ws).
  rewrite IH by (intros o' w w' ? ?; eapply Hdis; [by right|done]).
  change (tl.commit (tl.commit buf ws') ((o, v) :: ws))
    with (tl.commit (<[o := v]> (tl.commit buf ws')) ws).
  f_equal. apply insert_commit_commute.
  intros v' Hin. eapply Hdis; [left|done].
Qed.

(** Cells whose kernels commit writes to pairwise disjoint offsets can run
    in any order. *)
Lemma launch_permutation {C} `{EqDecision C} (W : C → list (nat * T))
    (kernel : C → list T → list T) (cells grid : list C) buf :
  (∀ c b, kernel c b = tl.commit b (W c)) →
  (∀ c1 c2 o v1 v2, c1 ∈ grid → c2 ∈ grid →
     (o, v1) ∈ W c1 → (o, v2) ∈ W c2 → c1 = c2) →
  cells ≡ₚ grid →
  launch cells kernel buf = launch grid kernel buf.
Proof.
  intros Hk Hdis Hperm. revert buf.
  induction Hperm as [|c l l' Hp IH|c1 c2 l|l l' l'' Hp IH Hp' IH']; intros buf.
  - done.
  - unfold launch in *. simpl. apply IH.
    intros c1 c2 o v1 v2 H1 H2. apply Hdis; by right.
  - unfold launch. simpl. f_equal. rewrite !Hk.
    destruct (decide (c1 = c2)) as [->|Hne]; [done|].
    apply commit_commute. intros o v v' Hv Hv'. apply Hne.
    eapply (Hdis c1 c2 o v' v); [left|right; left|done..].
  - rewrite IH; [by apply IH'|].
    intros c1 c2 o v1 v2 H1 H2. apply Hdis; by rewrite <- Hp'.
Qed.

End order.

(** X5: the cells of a vector-addition launch can run in any order.  For
    every block size S > 0 and every output buffer, running [add_kernel]
    over any permutation of the grid leaves the buffer as the launch in
    program-id order does: no cell reads the output, and no two cells store
    to a common offset. *)
Theorem add_launch_order_independent (T : Type) (A : Arith T) (S n : nat)
    (dev : device T) (x y out : list T) (cells : list nat) :
  0 < S → cells ≡ₚ VectorAdd.add_grid n S →
  launch cells (VectorAdd.add_kernel dev x y n S) out
  = launch (VectorAdd.add_grid n S) (VectorAdd.add_kernel dev x y n S) out.
Proof.
  intros HS Hperm.
  apply (launch_permutation (VectorAdd.add_writes dev x y n S)); [|..|done].
  - intros. apply add_kernel_commit.
  - intros c1 c2 o v1 v2 H1 H2 [Ho1 _]%elem_of_add_writes
      [Ho2 _]%elem_of_add_writes.
    by apply (proj1 (add_write_partition n S HS) c1 c2 o).
Qed.

Lemma add_launch_order_independent_witness :
  (0 < 4 ∧ [1; 0] ≡ₚ VectorAdd.add_grid 6 4) ∧
  launch [1; 0]
    (@VectorAdd.add_kernel Z (Z_arith (λ _ v, v)) (Z_device 0)
       [1; 2; 3; 4; 5; 6]%Z [10; 20; 30; 40; 50; 60]%Z 6 4)
    [0; 0; 0; 0; 0; 0]%Z
  = launch (VectorAdd.add_grid 6 4)
      (@VectorAdd.add_kernel Z (Z_arith (λ _ v, v)) (Z_device 0)
         [1; 2; 3; 4; 5; 6]%Z [10; 20; 30; 40; 50; 60]%Z 6 4)
      [0; 0; 0; 0; 0; 0]%Z.
Proof.
  assert ([1; 0] ≡ₚ VectorAdd.add_grid 6 4) as Hp by apply perm_swap.
  split; [split; [lia|exact Hp]|].
  exact (add_launch_order_independent Z (Z_arith (λ _ v, v)) 4 6 (Z_device 0)
           [1; 2; 3; 4; 5; 6]%Z [10; 20; 30; 40; 50; 60]%Z
           [0; 0; 0; 0; 0; 0]%Z [1; 0] ltac:(lia) Hp).
Defined.

(** X6: the rows of a softmax launch can be processed in any order.  With
    the block size the hosts pass, running [softmax_fwd_kernel], or
    [softmax_bwd_kernel], over any permutation of the row grid gives the
    buffer the launch in program-id order gives. *)
Theorem softmax_launch_order_independent (dev : device xreal)
    (x_ptr dy_ptr out : list xreal) (x_rows x_cols : nat) (cells : list nat) :
  cells ≡ₚ grid1 x_rows →
  launch cells
    (Softmax.softmax_fwd_kernel dev x_ptr x_rows x_cols
       (tl.next_power_of_2 x_cols)) out
  = launch (grid1 x_rows)
      (Softmax.softmax_fwd_kernel dev x_ptr x_rows x_cols
         (tl.next_power_of_2 x_cols)) out ∧
  launch cells
    (Softmax.softmax_bwd_kernel dev x_ptr dy_ptr x_rows x_cols
       (tl.next_power_of_2 x_cols)) out
  = launch (grid1 x_rows)
      (Softmax.softmax_bwd_kernel dev x_ptr dy_ptr x_rows x_cols
         (tl.next_power_of_2 x_cols)) out.
Proof.
  intros Hperm.
  pose proof (row_write_partition x_rows x_cols _ (next_power_of_2_ge x_cols))
    as [Hdis _].
  split.
  - eapply launch_permutation; [| |done].
    + intros c b. rewrite softmax_fwd_kernel_store. reflexivity.
    + intros c1 c2 o v1 v2 H1 H2 Ho1%elem_of_writes_touched
        Ho2%elem_of_writes_touched. by apply (Hdis c1 c2 o).
  - eapply launch_permutation; [| |done].
    + intros c b. rewrite softmax_bwd_kernel_store. reflexivity.
    + intros c1 c2 o v1 v2 H1 H2 Ho1%elem_of_writes_touched
        Ho2%elem_of_writes_touched. by apply (Hdis c1 c2 o).
Qed.

Lemma softmax_launch_order_independent_witness :
  [1; 0] ≡ₚ grid1 2 ∧
  launch [1; 0]
    (Softmax.softmax_fwd_kernel nan_device (Fin <$> [1; 2; 3; 0; 0; 0]%R) 2 3
       (tl.next_power_of_2 3)) (replicate 6 NaN)
  = launch (grid1 2)
      (Softmax.softmax_fwd_kernel nan_device (Fin <$> [1; 2; 3; 0; 0; 0]%R) 2 3
         (tl.next_power_of_2 3)) (replicate 6 NaN).
Proof.
  assert ([1; 0] ≡ₚ grid1 2) as Hp by apply perm_swap.
  split; [exact Hp|].
  exact (proj1 (softmax_launch_order_independent nan_device
                  (Fin <$> [1; 2; 3; 0; 0; 0]%R) (Fin <$> [1; 0; 0; 0; 1; 0]%R)
                  (replicate 6 NaN) 2 3 [1; 0] Hp)).
Defined.

(** X7: the cells of the row-times-column matmul can run in any order: over
    any permutation of the [x_rows] by [y_cols] grid the kernel leaves the
    output buffer as the launch in program-id order does. *)
Theorem naive_launch_order_independent (T : Type) (A : Arith T)
    (dev : device T) (X Y : tensor T) (B : nat) (out : list T)
    (cells : list (nat * nat)) :
  cells ≡ₚ NaiveMatmul.matmul_grid X Y →
  launch cells
    (NaiveMatmul.matmul_kernel dev (t_data X) (t_data (transpose_contiguous Y))
       (t_rows X) (t_cols X) (t_rows Y) (t_cols Y) B) out
  = launch (NaiveMatmul.matmul_grid X Y)
      (NaiveMatmul.matmul_kernel dev (t_data X)
         (t_data (transpose_contiguous Y))
         (t_rows X) (t_cols X) (t_rows Y) (t_cols Y) B) out.
Proof.
  intros Hperm.
  eapply launch_permutation; [| |done].
  - intros c b. apply naive_kernel_store.
  - intros c1 c2 o v1 v2 H1 H2 Ho1 Ho2.
    apply (proj1 (naive_write_partition X Y) c1 c2 o H1 H2);
      apply elem_of_naive_output_touched.
    + apply list_elem_of_singleton in Ho1. by injection Ho1.
    + apply list_elem_of_singleton in Ho2. by injection Ho2.
Qed.

Lemma naive_launch_order_independent_witness :
  reverse (NaiveMatmul.matmul_grid (arange_tensor float32 4 3)
             (arange_tensor float32 3 2))
  ≡ₚ NaiveMatmul.matmul_grid (arange_tensor float32 4 3)
       (arange_tensor float32 3 2) ∧
  launch
    (reverse (NaiveMatmul.matmul_grid (arange_tensor float32 4 3)
                (arange_tensor float32 3 2)))
    (@NaiveMatmul.matmul_kernel Z (Z_arith (λ _ v, v)) (Z_device 0)
       (t_data (arange_tensor float32 4 3))
       (t_data (@transpose_contiguous Z (Z_arith (λ _ v, v))
                  (arange_tensor float32 3 2)))
       4 3 3 2 4) (replicate 8 0%Z)
  = launch
      (NaiveMatmul.matmul_grid (arange_tensor float32 4 3)
         (arange_tensor float32 3 2))
      (@NaiveMatmul.matmul_kernel Z (Z_arith (λ _ v, v)) (Z_device 0)
         (t_data (arange_tensor float32 4 3))
         (t_data (@transpose_contiguous Z (Z_arith (λ _ v, v))
                    (arange_tensor float32 3 2)))
         4 3 3 2 4) (replicate 8 0%Z).
Proof.
  split; [apply reverse_Permutation|].
  exact (naive_launch_order_independent Z (Z_arith (λ _ v, v)) (Z_device 0)
           (arange_tensor float32 4 3) (arange_tensor float32 3 2) 4
           (replicate 8 0%Z) _ (reverse_Permutation _)).
Defined.

(** X8: the cells of the tiled matmul can run in any order: for positive
    block sizes, over any permutation of the grid the kernel leaves the
    output buffer as the launch in program-id order does. *)
Theorem tiled_launch_order_independent (T : Type) (A : Arith T)
    (p : TiledMatmul.kernel_args) (dev : device T) (x_ptr y_ptr out : list T)
    (cells : list (nat * nat)) :
  0 < p.(TiledMatmul.BLOCK_SIZE_X) → 0 < p.(TiledMatmul.BLOCK_SIZE_Y) →
  cells ≡ₚ TiledMatmul.matmul_grid p →
  launch cells (TiledMatmul.matmul_kernel p dev x_ptr y_ptr) out
  = launch (TiledMatmul.matmul_grid p)
      (TiledMatmul.matmul_kernel p dev x_ptr y_ptr) out.
Proof.
  intros HBX HBY Hperm.
  eapply launch_permutation; [| |done].
  - intros c b. apply tiled_kernel_store.
  - intros c1 c2 o v1 v2 H1 H2 Ho1%elem_of_writes2_touched2
      Ho2%elem_of_writes2_touched2.
    by apply (proj1 (tiled_write_partition p HBX HBY) c1 c2 o).
Qed.

Lemma tiled_launch_order_independent_witness :
  (0 < 2 ∧ 0 < 2 ∧
   reverse (TiledMatmul.matmul_grid (TiledMatmul.KernelArgs 4 3 3 2 2 2 2))
   ≡ₚ TiledMatmul.matmul_grid (TiledMatmul.KernelArgs 4 3 3 2 2 2 2)) ∧
  launch
    (reverse (TiledMatmul.matmul_grid (TiledMatmul.KernelArgs 4 3 3 2 2 2 2)))
    (@TiledMatmul.matmul_kernel Z (Z_arith (λ _ v, v))
       (TiledMatmul.KernelArgs 4 3 3 2 2 2 2) (Z_device 0)
       (t_data (arange_tensor float32 4 3))
       (t_data (arange_tensor float32 3 2))) (replicate 8 0%Z)
  = launch (TiledMatmul.matmul_grid (TiledMatmul.KernelArgs 4 3 3 2 2 2 2))
      (@TiledMatmul.matmul_kernel Z (Z_arith (λ _ v, v))
         (TiledMatmul.KernelArgs 4 3 3 2 2 2 2) (Z_device 0)
         (t_data (arange_tensor float32 4 3))
         (t_data (arange_tensor float32 3 2))) (replicate 8 0%Z).
Proof.
  split; [split_and!; [lia|lia|apply reverse_Permutation]|].
  exact (tiled_launch_order_independent Z (Z_arith (λ _ v, v))
           (TiledMatmul.KernelArgs 4 3 3 2 2 2 2) (Z_device 0)
           (t_data (arange_tensor float32 4 3))
           (t_data (arange_tensor float32 3 2)) (replicate 8 0%Z) _
           ltac:(simpl; lia) ltac:(simpl; lia) (reverse_Permutation _)).
Defined.

(* ================================================================== *)
(** * Softmax: range, order and gradient *)

Section real_softmax.
Import Reference.
Local Open Scope R_scope.

Lemma Rsum_term_le (f : R → R) (l : list R) k x :
  (∀ y, 0 <= f y) → l !! k = Some x → f x <= Rsum (f <$> l).
Proof.
  intros Hf. revert k. unfold Rsum.
  assert (∀ l' : list R, 0 <= foldr Rplus 0 (f <$> l')) as Hnn.
  { induction l' as [|y l' IH]; simpl; [lra|].
    fold (fmap (M:=list) f l'). pose proof (Hf y). lra. }
  induction l as [|y l IH]; intros [|k] Hk; simplify_eq/=;
    fold (fmap (M:=list) f l).
  - specialize (Hnn l). lra.
  - specialize (IH k Hk). pose proof (Hf y). lra.
Qed.

Lemma softmax_row_lookup row k x :
  row !! k = Some x →
  softmax_row row !! k
  = Some (exp (x - Rlist_max row)
          / Rsum ((λ y, exp (y - Rlist_max row)) <$> row)).
Proof.
  intros Hk. unfold softmax_row. by rewrite !list_lookup_fmap, Hk.
Qed.

Lemma softmax_row_range row k x :
  row !! k = Some x →
  ∃ s, softmax_row row !! k = Some s ∧ 0 < s <= 1.
Proof.
  intros Hk. eexists. split; [by apply softmax_row_lookup|].
  assert (row ≠ []) as Hne by (intros ->; done).
  pose proof (Rsum_exp_pos (Rlist_max row) row Hne) as Hd.
  pose proof (exp_pos (x - Rlist_max row)) as He.
  pose proof (Rsum_term_le (λ y, exp (y - Rlist_max row)) row k x
                (λ y, Rlt_le _ _ (exp_pos _)) Hk) as Hle.
  simpl in Hle. split.
  - by apply Rdiv_lt_0_compat.
  - apply (Rmult_le_reg_r (Rsum ((λ y, exp (y - Rlist_max row)) <$> row)));
      [done|].
    unfold Rdiv. rewrite Rmult_assoc, Rinv_l by lra. lra.
Qed.

Lemma softmax_row_mono row k l x y :
  row !! k = Some x → row !! l = Some y → x <= y →
  ∃ s t, softmax_row row !! k = Some s ∧ softmax_row row !! l = Some t ∧
         s <= t.
Proof.
  intros Hk Hl Hxy. do 2 eexists.
  split; [by apply softmax_row_lookup|]. split; [by apply softmax_row_lookup|].
  assert (row ≠ []) as Hne by (intros ->; done).
  pose proof (Rsum_exp_pos (Rlist_max row) row Hne) as Hd.
  apply Rmult_le_compat_r; [apply Rlt_le, Rinv_0_lt_compat, Hd|].
  destruct (Rle_lt_or_eq_dec _ _ Hxy) as [Hlt| ->]; [|lra].
  apply Rlt_le, exp_increasing. lra.
Qed.

Lemma zip_zero_tail (f : R → R) (g x : list R) :
  length g = length x →
  zip_with (λ gi xi, gi + 0 * f xi) g x = g.
Proof.
  revert x. induction g as [|gi g IH]; intros [|xi x] Hlen; simplify_eq/=;
    [done|].
  rewrite IH by done. f_equal. lra.
Qed.

Lemma Rsum_zip_scale d (dy e : list R) :
  Rsum (zip_with Rmult dy ((λ ei, ei / d) <$> e))
  = Rsum (zip_with Rmult dy e) / d.
Proof.
  revert e. unfold Rsum. induction dy as [|a dy IH]; intros [|b e]; simpl;
    try lra.
  fold (fmap (M:=list) (λ ei, ei / d) e). rewrite IH. lra.
Qed.

Lemma normed_grad_vjp x dy :
  x ≠ [] → normed_grad x dy = softmax_vjp (softmax_row x) dy.
Proof.
  intros Hne. unfold normed_grad, softmax_vjp, softmax_row. cbv zeta.
  rewrite Rsum_zip_scale.
  pose proof (Rsum_exp_pos (Rlist_max x) x Hne) as Hd.
  set (d := Rsum ((λ xi, exp (xi - Rlist_max x)) <$> x)) in *.
  set (c := Rsum (zip_with Rmult dy ((λ xi, exp (xi - Rlist_max x)) <$> x))).
  clearbody d c.
  generalize ((λ xi, exp (xi - Rlist_max x)) <$> x). clear x Hne.
  induction dy as [|a dy IH]; intros [|b e]; simpl; try done.
  fold (fmap (M:=list) (λ dyi, dyi * (1 / d)) dy).
  fold (fmap (M:=list) (λ g, g + - c / (d * d))
          ((λ dyi, dyi * (1 / d)) <$> dy)).
  fold (fmap (M:=list) (λ ei, ei / d) e).
  rewrite IH. f_equal. field. lra.
Qed.

(** In exact arithmetic the backward pass is the vector-Jacobian product of
    softmax. *)
Lemma softmax_bwd_row_vjp x dy :
  length dy = length x →
  softmax_bwd_row x dy = softmax_vjp (softmax_row x) dy.
Proof.
  intros Hlen. destruct (decide (x = [])) as [->|Hne].
  { by destruct dy. }
  unfold softmax_bwd_row, max_grad. rewrite normed_grad_sum by done.
  replace (- 0) with 0 by lra.
  rewrite (zip_zero_tail (indicator (Rlist_max x)))
    by (by apply normed_grad_length).
  by apply normed_grad_vjp.
Qed.

End real_softmax.

Lemma softmax_fwd_entry dev (d : dtype) rows cols (xs : list R) i k :
  length xs = rows * cols → i < rows → k < cols →
  ∃ x, row_of cols xs i !! k = Some x ∧ xs !! (i * cols + k) = Some x ∧
       ∀ out, Softmax.softmax_fwd dev (Tensor d rows cols (Fin <$> xs))
              = Returned out →
         t_data out !! (i * cols + k)
         = Fin <$> Reference.softmax_row (row_of cols xs i) !! k.
Proof.
  intros Hlen Hi Hk.
  destruct (lookup_lt_is_Some_2 (row_of cols xs i) k) as [x Hx].
  { by erewrite row_of_length. }
  exists x. split; [done|]. split; [by rewrite <- row_of_lookup|].
  intros out Hout.
  destruct (softmax_fwd_row dev d rows cols xs i)
    as (out' & Heq & _ & _ & Hrow); [lia|done..|].
  rewrite Hout in Heq. injection Heq as <-.
  by rewrite <- (row_of_lookup cols _ i k Hk), Hrow, list_lookup_fmap.
Qed.

(** X9: every entry of the output of [softmax_fwd] on a real-valued input
    with at least one column is a real number [s] with [0 <= s <= 1]. *)
Theorem softmax_fwd_entries_in_unit_interval (dev : device xreal) (d : dtype)
    (rows cols : nat) (xs : list R) :
  0 < cols → length xs = rows * cols →
  ∃ out, Softmax.softmax_fwd dev (Tensor d rows cols (Fin <$> xs))
         = Returned out ∧
         ∀ i k, i < rows → k < cols →
           ∃ s : R, t_data out !! (i * cols + k) = Some (Fin s) ∧
                    (0 <= s <= 1)%R.
Proof.
  intros Hc Hlen.
  pose proof (softmax_fwd_returns dev (Tensor d rows cols (Fin <$> xs)) Hc)
    as Hret.
  eexists. split; [exact Hret|]. intros i k Hi Hk.
  destruct (softmax_fwd_entry dev d rows cols xs i k Hlen Hi Hk)
    as (x & Hx & _ & Hout).
  destruct (softmax_row_range _ _ _ Hx) as (s & Hs & Hrange).
  exists s. split; [|lra]. rewrite (Hout _ Hret), Hs. done.
Qed.

Lemma softmax_fwd_entries_in_unit_interval_witness :
  (0 < 3 ∧ length [1; 2; 3; 0; 0; 0]%R = 2 * 3) ∧
  ∃ out, Softmax.softmax_fwd nan_device
           (Tensor float32 2 3 (Fin <$> [1; 2; 3; 0; 0; 0]%R)) = Returned out ∧
         ∀ i k, i < 2 → k < 3 →
           ∃ s : R, t_data out !! (i * 3 + k) = Some (Fin s) ∧ (0 <= s <= 1)%R.
Proof.
  split; [split; [lia|reflexivity]|].
  exact (softmax_fwd_entries_in_unit_interval nan_device float32 2 3
           [1; 2; 3; 0; 0; 0]%R ltac:(lia) eq_refl).
Defined.

(** X10: [softmax_fwd] keeps the order within a row of an input with at
    least one column: if [x[i,k] <= x[i,l]] then the output at [(i,k)] is at
    most the output at [(i,l)]. *)
Theorem softmax_fwd_order_preserving (dev : device xreal) (d : dtype)
    (rows cols : nat) (xs : list R) :
  0 < cols → length xs = rows * cols →
  ∃ out, Softmax.softmax_fwd dev (Tensor d rows cols (Fin <$> xs))
         = Returned out ∧
         ∀ i k l xk xl, i < rows → k < cols → l < cols →
           xs !! (i * cols + k) = Some xk → xs !! (i * cols + l) = Some xl →
           (xk <= xl)%R →
           ∃ sk sl : R, t_data out !! (i * cols + k) = Some (Fin sk) ∧
                        t_data out !! (i * cols + l) = Some (Fin sl) ∧
                        (sk <= sl)%R.
Proof.
  intros Hc Hlen.
  pose proof (softmax_fwd_returns dev (Tensor d rows cols (Fin <$> xs)) Hc)
    as Hret.
  eexists. split; [exact Hret|].
  intros i k l xk xl Hi Hk Hl Hxk Hxl Hle.
  destruct (softmax_fwd_entry dev d rows cols xs i k Hlen Hi Hk)
    as (x & Hx & Hx' & Hout).
  destruct (softmax_fwd_entry dev d rows cols xs i l Hlen Hi Hl)
    as (y & Hy & Hy' & Hout').
  assert (x = xk) as -> by congruence. assert (y = xl) as -> by congruence.
  destruct (softmax_row_mono _ _ _ _ _ Hx Hy Hle) as (s & t & Hs & Ht & Hst).
  exists s, t. rewrite (Hout _ Hret), (Hout' _ Hret), Hs, Ht. done.
Qed.

Lemma softmax_fwd_order_preserving_witness :
  (0 < 3 ∧ length [1; 2; 3; 0; 0; 0]%R = 2 * 3) ∧
  ∃ out, Softmax.softmax_fwd nan_device
           (Tensor float32 2 3 (Fin <$> [1; 2; 3; 0; 0; 0]%R)) = Returned out ∧
         ∀ i k l xk xl, i < 2 → k < 3 → l < 3 →
           [1; 2; 3; 0; 0; 0]%R !! (i * 3 + k) = Some xk →
           [1; 2; 3; 0; 0; 0]%R !! (i * 3 + l) = Some xl →
           (xk <= xl)%R →
           ∃ sk sl : R, t_data out !! (i * 3 + k) = Some (Fin sk) ∧
                        t_data out !! (i * 3 + l) = Some (Fin sl) ∧
                        (sk <= sl)%R.
Proof.
  split; [split; [lia|reflexivity]|].
  exact (softmax_fwd_order_preserving nan_device float32 2 3
           [1; 2; 3; 0; 0; 0]%R ltac:(lia) eq_refl).
Defined.

(** X11: on an input with at least one column [Softmax.forward] saves its
    input unchanged, and [Softmax.backward] run on the saved tensor returns
    the vector-Jacobian product of softmax: with [s] row [i] of the forward
    output, row [i] of the gradient is [s * (dy - sum(dy * s))]. *)
Theorem softmax_backward_is_vjp (dev : device xreal) (d d' : dtype)
    (rows cols : nat) (xs dys : list R) :
  0 < cols → length xs = rows * cols → length dys = rows * cols →
  ∃ out saved dx,
    Softmax.Softmax_forward dev (Tensor d rows cols (Fin <$> xs))
    = Returned (out, saved) ∧
    saved = Tensor d rows cols (Fin <$> xs) ∧
    Softmax.Softmax_backward dev saved (Tensor d' rows cols (Fin <$> dys))
    = Returned dx ∧
    ∀ i, i < rows →
      ∃ s : list R,
        row_of cols (t_data out) i = Fin <$> s ∧
        row_of cols (t_data dx) i = Fin <$> softmax_vjp s (row_of cols dys i).
Proof.
  intros Hc Hlen Hlen'. unfold Softmax.Softmax_forward.
  rewrite softmax_fwd_returns by done.
  do 3 eexists. split; [reflexivity|]. split; [reflexivity|].
  rewrite Softmax_backward_returns by done. split; [reflexivity|].
  intros i Hi. exists (Reference.softmax_row (row_of cols xs i)). split.
  - destruct (softmax_fwd_row dev d rows cols xs i)
      as (o & Heq & _ & _ & Hrow); [done..|].
    rewrite softmax_fwd_returns in Heq by done.
    injection Heq as <-. exact Hrow.
  - etransitivity; [by apply (softmax_bwd_rows dev d d')|].
    f_equal. apply softmax_bwd_row_vjp.
    by rewrite !(row_of_length _ _ _ rows).
Qed.

Lemma softmax_backward_is_vjp_witness :
  (0 < 3 ∧ length [2; 2; 1]%R = 1 * 3 ∧ length [1; 0; 0]%R = 1 * 3) ∧
  ∃ out saved dx,
    Softmax.Softmax_forward nan_device
      (Tensor float32 1 3 (Fin <$> [2; 2; 1]%R))
    = Returned (out, saved) ∧
    saved = Tensor float32 1 3 (Fin <$> [2; 2; 1]%R) ∧
    Softmax.Softmax_backward nan_device saved
      (Tensor float32 1 3 (Fin <$> [1; 0; 0]%R))
    = Returned dx ∧
    ∀ i, i < 1 →
      ∃ s : list R,
        row_of 3 (t_data out) i = Fin <$> s ∧
        row_of 3 (t_data dx) i = Fin <$> softmax_vjp s (row_of 3 [1; 0; 0]%R i).
Proof.
  split; [split_and!; (lia || reflexivity)|].
  exact (softmax_backward_is_vjp nan_device float32 float32 1 3
           [2; 2; 1]%R [1; 0; 0]%R ltac:(lia) eq_refl eq_refl).
Defined.

(** X12: with the block size the hosts pass, the loads and the store of the
    cell of each row of the grid (both softmax kernels use the same offsets
    and mask) touch offsets inside the [rows * cols] buffers only. *)
Theorem softmax_accesses_in_bounds (rows cols pid : nat) :
  pid < rows →
  in_bounds (rows * cols)
    (Softmax.row_touched cols (tl.next_power_of_2 cols) pid).
Proof.
  intros Hpid o [Hlo Hhi]%elem_of_row_touched_min.
  pose proof (next_power_of_2_ge cols).
  assert (pid * cols + cols ≤ rows * cols) by nia. lia.
Qed.

Lemma softmax_accesses_in_bounds_witness :
  9 < 10 ∧
  in_bounds (10 * 6) (Softmax.row_touched 6 (tl.next_power_of_2 6) 9).
Proof.
  split; [lia|]. exact (softmax_accesses_in_bounds 10 6 9 ltac:(lia)).
Defined.

(* ================================================================== *)
(** * Softmax: one row at a time *)

Section row_blocks.
Import Softmax.
Context {T : Type}.

(** A launch over the rows writes, as row [i], the true lanes of the block
    that cell [i] stores. *)
Lemma launch_rows_block (kernel : nat → list T → list T)
    (block : nat → list T) rows C B init i :
  C ≤ B → length init = rows * C →
  (∀ pid out, kernel pid out
     = tl.store out (row_offset C B pid) (block pid) (row_mask C B pid)) →
  i < rows → C ≤ length (block i) →
  row_of C (launch (grid1 rows) kernel init) i = take C (block i).
Proof.
  intros HB Hinit Hk Hi Hlen.
  rewrite (launch_commit _
             (λ pid, tl.writes (row_offset C B pid) (block pid)
                       (row_mask C B pid))) by (intros; apply Hk).
  apply list_eq. intros k. destruct (decide (k < C)) as [HkC|HkC].
  - rewrite row_of_lookup, lookup_take_lt by done.
    destruct (lookup_lt_is_Some_2 (block i) k) as [v Hv]; [lia|].
    rewrite Hv. apply commit_lookup_written.
    + intros v' (pid & Hw & Hpid%elem_of_grid1)%list_elem_of_bind.
      apply elem_of_writes in Hw as (k' & [Hk' Ho]%row_offset_lookup & Hv'
                                     & [_ Hm]%row_mask_lookup).
      symmetry in Hm. apply Nat.ltb_lt in Hm.
      destruct (row_major_inj C i k pid k') as [<- <-]; [done..|].
      congruence.
    + exists v. apply list_elem_of_bind. exists i.
      split; [|by apply elem_of_grid1].
      apply elem_of_writes. exists k. split_and!.
      * apply row_offset_lookup. split; [lia|done].
      * done.
      * apply row_mask_lookup. split; [lia|]. symmetry. by apply Nat.ltb_lt.
    + nia.
  - rewrite !lookup_ge_None_2; [done| |].
    + rewrite length_take. lia.
    + unfold row_of. rewrite length_take. lia.
Qed.

End row_blocks.

Section general_rows.
Import Softmax.

(** Row [i] of the forward output is computed from row [i] of the input
    alone. *)
Lemma softmax_fwd_row_block dev (x : tensor xreal) i :
  well_formed x → 0 < t_cols x → i < t_rows x →
  ∃ out, softmax_fwd dev x = Returned out ∧
         row_of (t_cols x) (t_data out) i
         = take (t_cols x)
             (fwd_block (row_of (t_cols x) (t_data x) i
                         ++ replicate (tl.next_power_of_2 (t_cols x) - t_cols x)
                              neg_inf)).
Proof.
  intros Hx Hc Hi. rewrite softmax_fwd_returns by done.
  eexists. split; [reflexivity|]. cbn [t_data t_rows t_cols].
  pose proof (next_power_of_2_ge (t_cols x)) as HB.
  rewrite <- (load_row (past_fst dev) _ (t_rows x) _ _ i) by done.
  apply (launch_rows_block
    (softmax_fwd_kernel dev (t_data x) (t_rows x) (t_cols x)
       (tl.next_power_of_2 (t_cols x)))
    (λ pid, fwd_block
       (tl.load (past_fst dev) (t_data x)
          (row_offset (t_cols x) (tl.next_power_of_2 (t_cols x)) pid)
          (row_mask (t_cols x) (tl.next_power_of_2 (t_cols x)) pid) neg_inf))
    (t_rows x) (t_cols x) (tl.next_power_of_2 (t_cols x))).
  - exact HB.
  - by rewrite length_fmap, length_seq.
  - intros pid out. apply softmax_fwd_kernel_store.
  - exact Hi.
  - rewrite fwd_block_length, (load_row _ _ (t_rows x)) by done.
    rewrite length_app, length_replicate, (row_of_length _ _ _ (t_rows x))
      by done.
    lia.
Qed.

Lemma softmax_bwd_row_block dev (x dy : tensor xreal) i :
  well_formed x → 0 < t_cols x →
  length (t_data dy) = t_rows x * t_cols x → i < t_rows x →
  ∃ out, Softmax_backward dev x dy = Returned out ∧
         row_of (t_cols x) (t_data out) i
         = take (t_cols x)
             (bwd_block
                (row_of (t_cols x) (t_data x) i
                 ++ replicate (tl.next_power_of_2 (t_cols x) - t_cols x)
                      neg_inf)
                (row_of (t_cols x) (t_data dy) i
                 ++ replicate (tl.next_power_of_2 (t_cols x) - t_cols x)
                      (Fin 0))).
Proof.
  intros Hx Hc Hdy Hi. rewrite Softmax_backward_returns by done.
  eexists. split; [reflexivity|]. cbn [t_data t_rows t_cols].
  pose proof (next_power_of_2_ge (t_cols x)) as HB.
  rewrite <- (load_row (past_fst dev) _ (t_rows x) _ _ i) by done.
  rewrite <- (load_row (past_snd dev) (t_data dy) (t_rows x) _ _ i) by done.
  apply (launch_rows_block
    (softmax_bwd_kernel dev (t_data x) (t_data dy) (t_rows x) (t_cols x)
       (tl.next_power_of_2 (t_cols x)))
    (λ pid, bwd_block
       (tl.load (past_fst dev) (t_data x)
          (row_offset (t_cols x) (tl.next_power_of_2 (t_cols x)) pid)
          (row_mask (t_cols x) (tl.next_power_of_2 (t_cols x)) pid) neg_inf)
       (tl.load (past_snd dev) (t_data dy)
          (row_offset (t_cols x) (tl.next_power_of_2 (t_cols x)) pid)
          (row_mask (t_cols x) (tl.next_power_of_2 (t_cols x)) pid) (Fin 0)))
    (t_rows x) (t_cols x) (tl.next_power_of_2 (t_cols x))).
  - exact HB.
  - by rewrite length_fmap, length_seq.
  - intros pid out. apply softmax_bwd_kernel_store.
  - exact Hi.
  - rewrite !(load_row _ _ (t_rows x)) by done.
    rewrite bwd_block_length.
    + rewrite length_app, length_replicate, (row_of_length _ _ _ (t_rows x))
        by done.
      lia.
    + rewrite !length_app, !length_replicate,
        !(row_of_length _ _ _ (t_rows x)) by done.
      done.
Qed.

End general_rows.

Section nan_rows.
Import Softmax.

Lemma tl_max_not_nan l : NaN ∉ l → tl_max l ≠ NaN.
Proof.
  unfold tl_max. induction l as [|v l IH]; intros Hno; [done|]. simpl.
  assert (v ≠ NaN) as Hv by (intros ->; apply Hno; left).
  assert (foldr xmax NInf l ≠ NaN) as Hr
    by (apply IH; intros Hin; apply Hno; by right).
  destruct v, (foldr xmax NInf l); done.
Qed.

Lemma tl_max_pinf l : NaN ∉ l → PInf ∈ l → tl_max l = PInf.
Proof.
  induction l as [|v l IH]; intros Hno Hin; [by apply elem_of_nil in Hin|].
  assert (v ≠ NaN) as Hv by (intros ->; apply Hno; left).
  assert (NaN ∉ l) as Hno' by (intros ?; apply Hno; by right).
  pose proof (tl_max_not_nan l Hno') as Hr.
  unfold tl_max in *. simpl.
  apply elem_of_cons in Hin as [<-|Hin].
  - by destruct (foldr xmax NInf l).
  - rewrite IH by done. by destruct v.
Qed.

Lemma tl_max_ninf n : tl_max (replicate n NInf) = NInf.
Proof.
  unfold tl_max. induction n as [|n IH]; simpl; [done|]. by rewrite IH.
Qed.

Lemma sum_nan_acc (l : list xreal) : foldl xadd NaN l = NaN.
Proof. induction l as [|v l IH]; simpl; [done|]. done. Qed.

Lemma sum_nan (a : xreal) (l : list xreal) : NaN ∈ l → foldl xadd a l = NaN.
Proof.
  revert a. induction l as [|v l IH]; intros a Hin;
    [by apply elem_of_nil in Hin|].
  simpl. apply elem_of_cons in Hin as [<-|Hin].
  - replace (xadd a NaN) with NaN by (by destruct a). apply sum_nan_acc.
  - by apply IH.
Qed.

(** One lane whose shifted exponential is not a number poisons the sum, and
    with it every lane of the block. *)
Lemma fwd_block_nan l v :
  v ∈ l → xexp (xsub v (tl_max l)) = NaN →
  fwd_block l = replicate (length l) NaN.
Proof.
  intros Hin Hv. unfold fwd_block.
  assert (tl.sum (xexp <$> ((λ v, xsub v (tl_max l)) <$> l)) = NaN) as ->.
  { apply sum_nan. rewrite <- Hv.
    apply list_elem_of_fmap. eexists. split; [done|].
    apply list_elem_of_fmap. eauto. }
  rewrite <- !list_fmap_compose.
  rewrite <- (fmap_replicate (λ _ : xreal, NaN) (length l) NaN).
  generalize (tl_max l). clear. intros m.
  induction l as [|w l IH]; csimpl; [done|].
  rewrite IH. f_equal. by destruct (xexp (xsub w m)).
Qed.

End nan_rows.

(** X13: a row of the softmax output, forward or backward, depends on the
    same row of the inputs only.  Two launches on inputs with at least one
    column that agree on row [i] agree on row [i] of their outputs, whatever
    the other rows hold (infinities and not-a-number included) and whatever
    the uninitialised memory holds. *)
Theorem softmax_rows_are_independent (dev dev' : device xreal)
    (x x' dy dy' : tensor xreal) (i : nat) :
  well_formed x → well_formed x' → 0 < t_cols x →
  t_rows x' = t_rows x → t_cols x' = t_cols x →
  length (t_data dy) = t_rows x * t_cols x →
  length (t_data dy') = t_rows x * t_cols x →
  i < t_rows x →
  row_of (t_cols x) (t_data x') i = row_of (t_cols x) (t_data x) i →
  row_of (t_cols x) (t_data dy') i = row_of (t_cols x) (t_data dy) i →
  ∃ out out' dx dx',
    Softmax.softmax_fwd dev x = Returned out ∧
    Softmax.softmax_fwd dev' x' = Returned out' ∧
    Softmax.Softmax_backward dev x dy = Returned dx ∧
    Softmax.Softmax_backward dev' x' dy' = Returned dx' ∧
    row_of (t_cols x) (t_data out') i = row_of (t_cols x) (t_data out) i ∧
    row_of (t_cols x) (t_data dx') i = row_of (t_cols x) (t_data dx) i.
Proof.
  intros Hx Hx' Hpos Hr Hc Hdy Hdy' Hi Hrow Hdrow.
  destruct (softmax_fwd_row_block dev x i Hx Hpos Hi) as (out & Hout & Ho).
  destruct (softmax_fwd_row_block dev' x' i Hx' ltac:(lia) ltac:(lia))
    as (out' & Hout' & Ho').
  destruct (softmax_bwd_row_block dev x dy i Hx Hpos Hdy Hi)
    as (dx & Hdx & Hd).
  destruct (softmax_bwd_row_block dev' x' dy' i Hx' ltac:(lia)
              ltac:(congruence) ltac:(lia)) as (dx' & Hdx' & Hd').
  exists out, out', dx, dx'. split_and!; [done..| |].
  - rewrite Hc in Ho'. by rewrite Ho, Ho', Hrow.
  - rewrite Hc in Hd'. by rewrite Hd, Hd', Hrow, Hdrow.
Qed.

Lemma softmax_rows_are_independent_witness :
  (well_formed (Tensor float32 2 2 [Fin 1; Fin 2; NaN; PInf]) ∧
   well_formed (Tensor float32 2 2 [Fin 1; Fin 2; Fin 0; Fin 0]) ∧
   0 < 2 ∧ 2 = 2 ∧ 2 = 2 ∧
   length [Fin 1; Fin 0; NaN; NaN] = 2 * 2 ∧
   length [Fin 1; Fin 0; Fin 5; Fin 6] = 2 * 2 ∧ 0 < 2 ∧
   row_of 2 [Fin 1; Fin 2; Fin 0; Fin 0] 0
   = row_of 2 [Fin 1; Fin 2; NaN; PInf] 0 ∧
   row_of 2 [Fin 1; Fin 0; Fin 5; Fin 6] 0
   = row_of 2 [Fin 1; Fin 0; NaN; NaN] 0) ∧
  ∃ out out' dx dx',
    Softmax.softmax_fwd nan_device
      (Tensor float32 2 2 [Fin 1; Fin 2; NaN; PInf])
    = Returned out ∧
    Softmax.softmax_fwd nan_device
      (Tensor float32 2 2 [Fin 1; Fin 2; Fin 0; Fin 0]) = Returned out' ∧
    Softmax.Softmax_backward nan_device
      (Tensor float32 2 2 [Fin 1; Fin 2; NaN; PInf])
      (Tensor float32 2 2 [Fin 1; Fin 0; NaN; NaN]) = Returned dx ∧
    Softmax.Softmax_backward nan_device
      (Tensor float32 2 2 [Fin 1; Fin 2; Fin 0; Fin 0])
      (Tensor float32 2 2 [Fin 1; Fin 0; Fin 5; Fin 6]) = Returned dx' ∧
    row_of 2 (t_data out') 0 = row_of 2 (t_data out) 0 ∧
    row_of 2 (t_data dx') 0 = row_of 2 (t_data dx) 0.
Proof.
  split; [split_and!; (reflexivity || lia)|].
  exact (softmax_rows_are_independent nan_device nan_device
           (Tensor float32 2 2 [Fin 1; Fin 2; NaN; PInf])
           (Tensor float32 2 2 [Fin 1; Fin 2; Fin 0; Fin 0])
           (Tensor float32 2 2 [Fin 1; Fin 0; NaN; NaN])
           (Tensor float32 2 2 [Fin 1; Fin 0; Fin 5; Fin 6]) 0
           eq_refl eq_refl ltac:(simpl; lia) eq_refl eq_refl eq_refl eq_refl
           ltac:(simpl; lia) eq_refl eq_refl).
Defined.

(** X14: a row that holds plus infinity (and no not-a-number), or that holds
    minus infinity in every column, comes out of [softmax_fwd] as
    not-a-number in every column: [row - max] is [inf - inf] on one lane, and
    the sum of the exponentials carries it to the whole row. *)
Theorem softmax_fwd_infinite_row_is_nan (dev : device xreal)
    (x : tensor xreal) (i : nat) :
  well_formed x → i < t_rows x →
  (((NaN ∉ row_of (t_cols x) (t_data x) i) ∧
    PInf ∈ row_of (t_cols x) (t_data x) i) ∨
   (0 < t_cols x ∧
    row_of (t_cols x) (t_data x) i = replicate (t_cols x) NInf)) →
  ∃ out, Softmax.softmax_fwd dev x = Returned out ∧
         row_of (t_cols x) (t_data out) i = replicate (t_cols x) NaN.
Proof.
  intros Hx Hi Hrow.
  assert (0 < t_cols x) as Hpos.
  { destruct Hrow as [[_ Hin]|[Hc _]]; [|done].
    destruct (t_cols x); [|lia]. unfold row_of in Hin.
    rewrite take_0 in Hin. by apply elem_of_nil in Hin. }
  destruct (softmax_fwd_row_block dev x i Hx Hpos Hi) as (out & Hout & Ho).
  exists out. split; [done|]. rewrite Ho.
  pose proof (next_power_of_2_ge (t_cols x)) as HB.
  pose proof (row_of_length (t_cols x) (t_data x) i (t_rows x) Hx Hi) as Hlen.
  set (q := tl.next_power_of_2 (t_cols x) - t_cols x) in *.
  set (r := row_of (t_cols x) (t_data x) i) in *.
  assert (∃ v, v ∈ r ++ replicate q Softmax.neg_inf ∧
               xexp (xsub v (Softmax.tl_max (r ++ replicate q Softmax.neg_inf)))
               = NaN) as (v & Hv & Hnan).
  { destruct Hrow as [[Hno Hin]|[Hc Hall]].
    - exists PInf. split; [apply elem_of_app; by left|].
      rewrite tl_max_pinf; [done| |apply elem_of_app; by left].
      intros [?|[? _]%elem_of_replicate]%elem_of_app; done.
    - exists NInf. split.
      + apply elem_of_app. left. rewrite Hall. apply elem_of_replicate.
        split; [done|lia].
      + rewrite Hall, <- replicate_add. unfold Softmax.neg_inf.
        by rewrite tl_max_ninf. }
  rewrite (fwd_block_nan _ v Hv Hnan), take_replicate.
  rewrite length_app, length_replicate, Hlen. f_equal. lia.
Qed.

Lemma softmax_fwd_infinite_row_is_nan_witness :
  (well_formed (Tensor float32 1 2 [Fin 1; PInf]) ∧ 0 < 1 ∧
   (((NaN ∉ row_of 2 [Fin 1; PInf] 0) ∧ PInf ∈ row_of 2 [Fin 1; PInf] 0) ∨
    (0 < 2 ∧ row_of 2 [Fin 1; PInf] 0 = replicate 2 NInf))) ∧
  ∃ out, Softmax.softmax_fwd nan_device (Tensor float32 1 2 [Fin 1; PInf])
         = Returned out ∧
         row_of 2 (t_data out) 0 = replicate 2 NaN.
Proof.
  assert ((NaN ∉ row_of 2 [Fin 1; PInf] 0) ∧ PInf ∈ row_of 2 [Fin 1; PInf] 0)
    as Hrow.
  { split; [|right; left].
    intros [?|[?|?%elem_of_nil]%elem_of_cons]%elem_of_cons; done. }
  split; [split_and!; [reflexivity|lia|by left]|].
  exact (softmax_fwd_infinite_row_is_nan nan_device
           (Tensor float32 1 2 [Fin 1; PInf]) 0 eq_refl ltac:(simpl; lia)
           (or_introl Hrow)).
Defined.

Section constant_upstream.
Import Reference.
Local Open Scope R_scope.

Lemma Rsum_zip_replicate c (s : list R) :
  Rsum (zip_with Rmult (replicate (length s) c) s) = c * Rsum s.
Proof.
  unfold Rsum. induction s as [|a s IH]; simpl; [lra|]. rewrite IH. lra.
Qed.

Lemma softmax_vjp_constant c (s : list R) (k : nat) :
  Rsum s = 1 → (k < length s)%nat →
  softmax_vjp s (replicate (length s) c) !! k = Some 0.
Proof.
  intros Hs Hk. unfold softmax_vjp. cbv zeta.
  rewrite Rsum_zip_replicate, Hs.
  destruct (lookup_lt_is_Some_2 s k Hk) as [sk Hsk].
  rewrite lookup_zip_with, Hsk. simpl.
  rewrite lookup_replicate_2 by done. simpl. f_equal. lra.
Qed.

End constant_upstream.

Lemma row_of_replicate {A} (c : A) rows cols i :
  i < rows → row_of cols (replicate (rows * cols) c) i = replicate cols c.
Proof.
  intros Hi. unfold row_of. rewrite drop_replicate, take_replicate.
  f_equal. nia.
Qed.

(** X15: on an input with at least one column, an upstream gradient that
    is the same constant everywhere has gradient zero: [Softmax.backward]
    returns 0 in every entry. *)
Theorem softmax_bwd_constant_upstream_is_zero (dev : device xreal)
    (d d' : dtype) (rows cols : nat) (xs : list R) (c : R) :
  0 < cols → length xs = rows * cols →
  ∃ dx, Softmax.Softmax_backward dev (Tensor d rows cols (Fin <$> xs))
          (Tensor d' rows cols (Fin <$> replicate (rows * cols) c))
        = Returned dx ∧
        ∀ i k, i < rows → k < cols →
          t_data dx !! (i * cols + k) = Some (Fin 0).
Proof.
  intros Hc Hlen. rewrite Softmax_backward_returns by done.
  eexists. split; [reflexivity|]. intros i k Hi Hk.
  cbn [t_data t_rows t_cols].
  rewrite <- (row_of_lookup cols _ i k Hk).
  rewrite (softmax_bwd_rows dev d d' rows cols xs (replicate (rows * cols) c) i)
    by (done || by rewrite length_replicate).
  assert (length (row_of cols xs i) = cols) as Hx by by eapply row_of_length.
  rewrite softmax_bwd_row_vjp
    by (by rewrite row_of_replicate, length_replicate).
  rewrite row_of_replicate by done.
  rewrite list_lookup_fmap.
  rewrite <- (softmax_row_length (row_of cols xs i)) in Hx.
  replace (replicate cols c)
    with (replicate (length (Reference.softmax_row (row_of cols xs i))) c)
    by (by rewrite Hx).
  rewrite softmax_vjp_constant; [done| |lia].
  apply softmax_row_sum. intros Hnil. rewrite Hnil in Hx. simpl in Hx. lia.
Qed.

Lemma softmax_bwd_constant_upstream_is_zero_witness :
  (0 < 3 ∧ length [2; 2; 1]%R = 1 * 3) ∧
  ∃ dx, Softmax.Softmax_backward nan_device
          (Tensor float32 1 3 (Fin <$> [2; 2; 1]%R))
          (Tensor float32 1 3 (Fin <$> replicate (1 * 3) 5%R)) = Returned dx ∧
        ∀ i k, i < 1 → k < 3 → t_data dx !! (i * 3 + k) = Some (Fin 0).
Proof.
  split; [split; [lia|reflexivity]|].
  exact (softmax_bwd_constant_upstream_is_zero nan_device float32 float32 1 3
           [2; 2; 1]%R 5%R ltac:(lia) eq_refl).
Defined.

(* ================================================================== *)
(** * The block size the hosts choose *)

Section smear.
Local Open Scope Z_scope.

Lemma smeared_init x : smeared x x 1.
Proof.
  intros i Hi. split.
  - intros Hb. exists 0. split; [lia|]. by rewrite Z.add_0_r.
  - intros (d & Hd & Hb). by replace (i + d) with i in Hb by lia.
Qed.

Lemma smeared_step x y w :
  0 ≤ w → smeared x y w → smeared x (Z.lor y (Z.shiftr y w)) (2 * w).
Proof.
  intros Hw Hy i Hi.
  rewrite Z.lor_spec, Z.shiftr_spec, orb_true_iff by done.
  rewrite (Hy i Hi), (Hy (i + w)) by lia. split.
  - intros [(d & Hd & Hb)|(d & Hd & Hb)].
    + exists d. split; [lia|done].
    + exists (w + d). split; [lia|]. by rewrite Z.add_assoc.
  - intros (d & Hd & Hb). destruct (decide (d < w)) as [Hlt|Hge].
    + left. exists d. split; [lia|done].
    + right. exists (d - w). split; [lia|].
      by replace (i + w + (d - w)) with (i + d) by lia.
Qed.

Lemma smeared_ones x y :
  0 < x < 2 ^ 64 → smeared x y 64 → y = Z.ones (Z.log2 x + 1).
Proof.
  intros Hx Hy. pose proof (Z.log2_nonneg x) as HL.
  assert (Z.log2 x < 64) as HL64 by (apply Z.log2_lt_pow2; lia).
  apply Z.bits_inj'. intros i Hi.
  destruct (decide (i ≤ Z.log2 x)) as [Hle|Hgt].
  - rewrite Z.ones_spec_low by lia. apply Hy; [done|].
    exists (Z.log2 x - i). split; [lia|].
    replace (i + (Z.log2 x - i)) with (Z.log2 x) by lia.
    apply Z.bit_log2. lia.
  - rewrite Z.ones_spec_high by lia.
    destruct (Z.testbit y i) eqn:Hb; [|done].
    apply Hy in Hb as (d & Hd & Hb); [|done].
    rewrite Z.bits_above_log2 in Hb by lia. done.
Qed.

Lemma smeared_zero x y : x = 0 → smeared x y 64 → y = 0.
Proof.
  intros -> Hy. apply Z.bits_inj'. intros i Hi. rewrite Z.bits_0.
  destruct (Z.testbit y i) eqn:Hb; [|done].
  apply Hy in Hb as (d & Hd & Hb); [|done]. by rewrite Z.bits_0 in Hb.
Qed.

End smear.

(** For [1 ≤ n ≤ 2^64] the bit smearing yields the power of two just above
    [n - 1]. *)
Lemma next_power_of_2_pow n :
  1 ≤ n → (Z.of_nat n ≤ 2 ^ 64)%Z →
  ∃ e, tl.next_power_of_2 n = 2 ^ e ∧ n ≤ 2 ^ e ∧ 2 ^ e < 2 * n.
Proof.
  intros Hn Hmax. unfold tl.next_power_of_2. cbv zeta.
  remember (Z.of_nat n - 1)%Z as x eqn:Hx.
  pose proof (smeared_init x) as H1.
  apply (smeared_step _ _ 1) in H1; [|lia].
  apply (smeared_step _ _ 2) in H1; [|lia].
  apply (smeared_step _ _ 4) in H1; [|lia].
  apply (smeared_step _ _ 8) in H1; [|lia].
  apply (smeared_step _ _ 16) in H1; [|lia].
  apply (smeared_step _ _ 32) in H1; [|lia].
  change (2 * 32)%Z with 64%Z in H1.
  destruct (decide (x = 0%Z)) as [Hx0|Hx0].
  - rewrite (smeared_zero _ _ Hx0 H1).
    exists 0. simpl. assert (n = 1) by lia. subst n. lia.
  - apply smeared_ones in H1; [|lia]. rewrite H1.
    pose proof (Z.log2_nonneg x) as HL.
    destruct (Z.log2_spec x) as [Hlo Hhi]; [lia|].
    exists (Z.to_nat (Z.log2 x + 1)).
    assert (Z.of_nat (2 ^ Z.to_nat (Z.log2 x + 1)) = 2 ^ (Z.log2 x + 1))%Z
      as Hp.
    { rewrite Nat2Z.inj_pow, Z2Nat.id by lia. done. }
    rewrite Z.ones_equiv.
    replace (Z.pred (2 ^ (Z.log2 x + 1)) + 1)%Z with (2 ^ (Z.log2 x + 1))%Z
      by lia.
    replace (Z.succ (Z.log2 x)) with (Z.log2 x + 1)%Z in Hhi by lia.
    assert (2 ^ (Z.log2 x + 1) = 2 * 2 ^ Z.log2 x)%Z as Hdbl.
    { rewrite Z.pow_add_r by lia. lia. }
    split; [lia|]. lia.
Qed.

(** X16: the block size the softmax hosts and the row-times-column matmul
    compute, [next_power_of_2(x_cols)], is for [1 <= x_cols <= 2^64] the
    least power of two that is at least [x_cols]; it is below [2 * x_cols]. *)
Theorem block_size_is_least_power_of_two (x_cols : nat) :
  1 ≤ x_cols → (Z.of_nat x_cols ≤ 2 ^ 64)%Z →
  ∃ e, tl.next_power_of_2 x_cols = 2 ^ e ∧
       x_cols ≤ 2 ^ e ∧ 2 ^ e < 2 * x_cols ∧
       ∀ e', x_cols ≤ 2 ^ e' → e ≤ e'.
Proof.
  intros Hn Hmax.
  destruct (next_power_of_2_pow x_cols Hn Hmax) as (e & He & Hge & Hlt).
  exists e. split_and!; [done..|].
  intros e' He'. destruct (decide (e ≤ e')) as [|Hgt]; [done|].
  assert (2 ^ S e' ≤ 2 ^ e) by (apply Nat.pow_le_mono_r; lia).
  rewrite Nat.pow_succ_r' in *. lia.
Qed.

Lemma block_size_is_least_power_of_two_witness :
  (1 ≤ 6 ∧ (Z.of_nat 6 ≤ 2 ^ 64)%Z) ∧
  ∃ e, tl.next_power_of_2 6 = 2 ^ e ∧ 6 ≤ 2 ^ e ∧ 2 ^ e < 2 * 6 ∧
       ∀ e', 6 ≤ 2 ^ e' → e ≤ e'.
Proof.
  split; [split; [lia|by vm_compute]|].
  exact (block_size_is_least_power_of_two 6 ltac:(lia) ltac:(by vm_compute)).
Defined.

(** X17: the [num_warps] the row-times-column [matmul] computes from its
    block size is 4 for [x_cols <= 1024], 8 for [1024 < x_cols <= 2048] and
    16 above (for [x_cols <= 2^64]). *)
Theorem naive_num_warps_by_inner_extent (x_cols : nat) :
  (Z.of_nat x_cols ≤ 2 ^ 64)%Z →
  let w := NaiveMatmul.num_warps (tl.next_power_of_2 x_cols) in
  (x_cols ≤ 1024 → w = 4) ∧
  (1024 < x_cols ≤ 2048 → w = 8) ∧
  (2048 < x_cols → w = 16).
Proof.
  intros Hmax w. subst w. unfold NaiveMatmul.num_warps.
  destruct (decide (x_cols = 0)) as [->|Hn0].
  { change (tl.next_power_of_2 0) with 0.
    split_and!; [done|lia|lia]. }
  destruct (next_power_of_2_pow x_cols ltac:(lia) Hmax) as (e & -> & Hge & Hlt).
  assert (2 ^ 10 = 1024) as H10 by reflexivity.
  assert (2 ^ 11 = 2048) as H11 by reflexivity.
  assert (2 ^ 12 = 4096) as H12 by reflexivity.
  assert (∀ a, 2 ^ a < 2 ^ e → 2 ^ S a ≤ 2 ^ e) as Hstep.
  { intros a Ha. apply Nat.pow_le_mono_r; [lia|].
    apply Nat.pow_lt_mono_r_iff in Ha; lia. }
  split_and!.
  - intros Hle.
    destruct (4096 <=? 2 ^ e) eqn:H4; [apply Nat.leb_le in H4; lia|].
    destruct (2048 <=? 2 ^ e) eqn:H2; [apply Nat.leb_le in H2; lia|]. done.
  - intros [Hlo Hhi].
    destruct (4096 <=? 2 ^ e) eqn:H4; [apply Nat.leb_le in H4; lia|].
    destruct (2048 <=? 2 ^ e) eqn:H2; [done|].
    apply Nat.leb_gt in H2. specialize (Hstep 10). lia.
  - intros Hlo.
    destruct (4096 <=? 2 ^ e) eqn:H4; [done|].
    apply Nat.leb_gt in H4. specialize (Hstep 11). lia.
Qed.

Lemma naive_num_warps_by_inner_extent_witness :
  (Z.of_nat 3 ≤ 2 ^ 64)%Z ∧
  NaiveMatmul.num_warps (tl.next_power_of_2 3) = 4.
Proof.
  split; [by vm_compute|].
  exact (proj1 (naive_num_warps_by_inner_extent 3 ltac:(by vm_compute))
           ltac:(lia)).
Defined.

(* ================================================================== *)
(** * Vector addition: lengths, bounds and grid *)

Section add_any.
Context {T : Type} `{Arith T}.

(** The launch writes [x[i] + y[i]] at every index of [x], reading [y]
    wherever index [i] leads. *)
Lemma add_launch_lookup_any S dev (x y : list T) i :
  0 < S → i < length x →
  launch (VectorAdd.add_grid (length x) S)
         (VectorAdd.add_kernel dev x y (length x) S)
         (VectorAdd.empty_like dev x) !! i
  = Some (tadd (tl.read (past_fst dev) x i) (tl.read (past_snd dev) y i)).
Proof.
  intros HS Hi.
  rewrite (launch_commit _ (VectorAdd.add_writes dev x y (length x) S))
    by (intros; apply add_kernel_commit).
  apply commit_lookup_written.
  - intros v' (pid & [_ ->]%elem_of_add_writes & _)%list_elem_of_bind. done.
  - eexists. apply list_elem_of_bind. exists (i / S). split.
    + apply elem_of_add_writes. split; [|done].
      apply elem_of_add_touched. split; [by apply offset_in_block|done].
    + apply elem_of_grid1. by apply div_lt_cdiv.
  - unfold VectorAdd.empty_like. by rewrite length_fmap, length_seq.
Qed.

Lemma add_launch_length S dev (x y : list T) :
  length (launch (VectorAdd.add_grid (length x) S)
            (VectorAdd.add_kernel dev x y (length x) S)
            (VectorAdd.empty_like dev x)) = length x.
Proof.
  rewrite (launch_commit _ (VectorAdd.add_writes dev x y (length x) S))
    by (intros; apply add_kernel_commit).
  rewrite commit_length. unfold VectorAdd.empty_like.
  by rewrite length_fmap, length_seq.
Qed.

End add_any.

(** X18: [add] never compares the lengths of its inputs.  For every [x] and
    [y] and every block size S > 0 the output has the length of [x]; it holds
    [x[i] + y[i]] wherever both exist, and where [y] has ended it holds
    [x[i]] plus the cell that follows [y] in memory at that offset. *)
Theorem add_checks_no_length (T : Type) (A : Arith T) (S : nat)
    (dev : device T) (x y : list T) :
  0 < S →
  ∃ out, VectorAdd.add_launch S dev x y = Returned out ∧
         length out = length x ∧
         (∀ i xi yi, x !! i = Some xi → y !! i = Some yi →
            out !! i = Some (tadd xi yi)) ∧
         (∀ i xi, x !! i = Some xi → length y ≤ i →
            out !! i = Some (tadd xi (past_snd dev i))).
Proof.
  intros HS. eexists. split; [reflexivity|].
  assert (length (VectorAdd.empty_like dev x) = length x) as Hel
    by (unfold VectorAdd.empty_like; by rewrite length_fmap, length_seq).
  rewrite Hel. split_and!.
  - apply add_launch_length.
  - intros i xi yi Hxi Hyi.
    rewrite add_launch_lookup_any by (done || by eapply lookup_lt_Some).
    by rewrite (read_in_bounds _ _ _ _ Hxi), (read_in_bounds _ _ _ _ Hyi).
  - intros i xi Hxi Hge.
    rewrite add_launch_lookup_any by (done || by eapply lookup_lt_Some).
    rewrite (read_in_bounds _ _ _ _ Hxi). unfold tl.read.
    by rewrite (lookup_ge_None_2 y i Hge).
Qed.

Lemma add_checks_no_length_witness :
  0 < 4 ∧
  ∃ out, @VectorAdd.add_launch Z (Z_arith (λ _ v, v)) 4 (Z_device 7)
           [1; 2; 3; 4; 5; 6]%Z [10; 20]%Z = Returned out ∧
         length out = length [1; 2; 3; 4; 5; 6]%Z ∧
         (∀ i xi yi, [1; 2; 3; 4; 5; 6]%Z !! i = Some xi →
            [10; 20]%Z !! i = Some yi → out !! i = Some (xi + yi)%Z) ∧
         (∀ i xi, [1; 2; 3; 4; 5; 6]%Z !! i = Some xi →
            length [10; 20]%Z ≤ i → out !! i = Some (xi + 7)%Z).
Proof.
  split; [lia|].
  exact (add_checks_no_length Z (Z_arith (λ _ v, v)) 4 (Z_device 7)
           [1; 2; 3; 4; 5; 6]%Z [10; 20]%Z ltac:(lia)).
Defined.

(** X19: the masked accesses of a vector-addition launch over [n] elements
    stay inside a buffer of [m] cells exactly when [n <= m]: always for [x]
    and the output, and for [y] exactly when it is at least as long as [x]. *)
Theorem add_accesses_in_bounds_iff (n m S : nat) :
  0 < S →
  (∀ pid, pid ∈ VectorAdd.add_grid n S →
     in_bounds m (VectorAdd.add_touched n S pid))
  ↔ n ≤ m.
Proof.
  intros HS. split.
  - intros Hin. destruct (decide (n ≤ m)) as [|Hgt]; [done|].
    assert (n - 1 < m); [|lia].
    apply (Hin ((n - 1) / S)).
    + apply elem_of_grid1. apply div_lt_cdiv; lia.
    + apply elem_of_add_touched. split; [by apply offset_in_block|lia].
  - intros Hle pid _ o [_ Ho]%elem_of_add_touched. lia.
Qed.

Lemma add_accesses_in_bounds_iff_witness :
  0 < 1024 ∧
  ((∀ pid, pid ∈ VectorAdd.add_grid 1000 1024 →
      in_bounds 1000 (VectorAdd.add_touched 1000 1024 pid))
   ↔ 1000 ≤ 1000).
Proof.
  split; [lia|]. exact (add_accesses_in_bounds_iff 1000 1000 1024 ltac:(lia)).
Defined.

Lemma cdiv_pred_lt pid x y : 0 < y → pid < tl.cdiv x y → pid * y < x.
Proof.
  intros Hy Hpid.
  assert (0 < x) as Hx.
  { destruct (decide (x = 0)) as [->|]; [|lia].
    unfold tl.cdiv in Hpid. rewrite Nat.div_small in Hpid; lia. }
  pose proof (cdiv_tight x y Hy Hx).
  assert (pid * y ≤ (tl.cdiv x y - 1) * y) by (apply Nat.mul_le_mono_r; lia).
  lia.
Qed.

(** X20: the grids are no larger than needed.  For positive block sizes,
    every cell of the vector-addition grid stores to the first offset of its
    block when [add_kernel] runs, and every cell of the tiled-matmul grid
    stores to the top-left offset of its tile when [matmul_kernel] runs. *)
Theorem no_cell_is_idle :
  (∀ (T : Type) (A : Arith T) (dev : device T) (x y : list T) n S pid,
     0 < S → pid ∈ VectorAdd.add_grid n S →
     stores_to (VectorAdd.add_kernel dev x y n S) pid (pid * S)) ∧
  (∀ (T : Type) (A : Arith T) (p : TiledMatmul.kernel_args) (dev : device T)
     (x_ptr y_ptr : list T) pid,
     0 < p.(TiledMatmul.BLOCK_SIZE_X) → 0 < p.(TiledMatmul.BLOCK_SIZE_Y) →
     0 < p.(TiledMatmul.BLOCK_SIZE_K) →
     pid ∈ TiledMatmul.matmul_grid p →
     stores_to (TiledMatmul.matmul_kernel p dev x_ptr y_ptr) pid
       (pid.1 * p.(TiledMatmul.BLOCK_SIZE_X) * p.(TiledMatmul.y_cols)
        + pid.2 * p.(TiledMatmul.BLOCK_SIZE_Y))).
Proof.
  split.
  - intros T A dev x y n S pid HS Hpid%elem_of_grid1.
    apply add_writes_exactly.
    apply elem_of_add_touched. pose proof (cdiv_pred_lt pid n S HS Hpid). lia.
  - intros T A p dev x_ptr y_ptr pid HBX HBY HBK [H1 H2]%elem_of_grid2.
    apply (tiled_writes_exactly p HBK).
    apply elem_of_output_touched. exists 0, 0.
    pose proof (cdiv_pred_lt _ _ _ HBX H1).
    pose proof (cdiv_pred_lt _ _ _ HBY H2).
    split_and!; [done|done|lia|lia|]. by rewrite !Nat.add_0_r.
Qed.

Lemma no_cell_is_idle_witness :
  (0 < 4 ∧ 1 ∈ VectorAdd.add_grid 6 4) ∧
  stores_to
    (@VectorAdd.add_kernel Z (Z_arith (λ _ v, v)) (Z_device 0)
       [1; 2; 3; 4; 5; 6]%Z [10; 20; 30; 40; 50; 60]%Z 6 4) 1 (1 * 4).
Proof.
  assert (1 ∈ VectorAdd.add_grid 6 4) as Hin by (right; left).
  split; [split; [lia|exact Hin]|].
  exact (proj1 no_cell_is_idle Z (Z_arith (λ _ v, v)) (Z_device 0)
           [1; 2; 3; 4; 5; 6]%Z [10; 20; 30; 40; 50; 60]%Z 6 4 1
           ltac:(lia) Hin).
Defined.

(* ================================================================== *)
(** * The transposed operand of the row-times-column matmul *)

Section transpose.
Context {T : Type} `{Arith T}.

Lemma transpose_well_formed (Y : tensor T) :
  well_formed (transpose_contiguous Y).
Proof.
  unfold well_formed. simpl.
  apply (flat_tab_length (λ j k, tget tzero Y k j)).
Qed.

Lemma transpose_involutive (Y : tensor T) :
  well_formed Y → transpose_contiguous (transpose_contiguous Y) = Y.
Proof.
  intros HY. destruct Y as [d r c data]. unfold well_formed in HY.
  simpl in HY. unfold transpose_contiguous at 1. cbn [t_dtype t_rows t_cols].
  f_equal. apply list_eq. intros o.
  destruct (decide (o < r * c)) as [Ho|Ho].
  - assert (0 < c) as Hc by nia.
    pose proof (Nat.div_mod_eq o c) as Hdm.
    pose proof (Nat.mod_upper_bound o c ltac:(lia)) as Hmod.
    remember (o / c) as i eqn:Ei. remember (o mod c) as j eqn:Ej.
    assert (i < r) as Hi by nia.
    assert (o = i * c + j) as -> by lia. clear Ei Ej Hdm.
    rewrite (flat_tab_lookup
               (λ i j, tget tzero
                         (transpose_contiguous (Tensor d r c data)) j i))
      by done.
    unfold tget at 1. cbn [t_cols transpose_contiguous].
    rewrite (transpose_lookup (Tensor d r c data) j i) by done.
    simpl. unfold tget. simpl.
    destruct (lookup_lt_is_Some_2 data (i * c + j)) as [v ->]; [lia|done].
  - rewrite !lookup_ge_None_2; [done|lia|].
    rewrite (flat_tab_length
               (λ i j, tget tzero
                         (transpose_contiguous (Tensor d r c data)) j i)).
    simpl. lia.
Qed.

End transpose.

(** X21: [Y.T.contiguous()], as the row-times-column [matmul] uses it: the
    transpose of a well-formed tensor is well formed with the extents
    swapped, holds [Y[i,j]] at offset [j * y_rows + i], and transposing twice
    gives [Y] back. *)
Theorem transpose_contiguous_round_trip (T : Type) (A : Arith T)
    (Y : tensor T) :
  well_formed Y →
  well_formed (transpose_contiguous Y) ∧
  t_rows (transpose_contiguous Y) = t_cols Y ∧
  t_cols (transpose_contiguous Y) = t_rows Y ∧
  (∀ i j, i < t_rows Y → j < t_cols Y →
     t_data (transpose_contiguous Y) !! (j * t_rows Y + i)
     = t_data Y !! (i * t_cols Y + j)) ∧
  transpose_contiguous (transpose_contiguous Y) = Y.
Proof.
  intros HY. split_and!; [apply transpose_well_formed|done|done| |].
  - intros i j Hi Hj. rewrite transpose_lookup by done. unfold tget.
    destruct (lookup_lt_is_Some_2 (t_data Y) (i * t_cols Y + j)) as [v ->];
      [unfold well_formed in HY; nia|done].
  - by apply transpose_involutive.
Qed.

Lemma transpose_contiguous_round_trip_witness :
  well_formed (arange_tensor float32 3 2) ∧
  @transpose_contiguous Z (Z_arith (λ _ v, v))
    (@transpose_contiguous Z (Z_arith (λ _ v, v)) (arange_tensor float32 3 2))
  = arange_tensor float32 3 2.
Proof.
  split; [reflexivity|].
  exact (proj2 (proj2 (proj2 (proj2
           (transpose_contiguous_round_trip Z (Z_arith (λ _ v, v))
              (arange_tensor float32 3 2) eq_refl))))).
Defined.

(* ================================================================== *)
(** * Tiled matmul: the loads of Y and the K loop *)

Section tiled_y_loads.
Import TiledMatmul.
Context {T : Type} `{ExactArith T}.
Variable p : kernel_args.
Hypothesis HBY : 0 < p.(BLOCK_SIZE_Y).
Hypothesis HBK : 0 < p.(BLOCK_SIZE_K).

(** Cell [pid] loads the whole of the [BLOCK_SIZE_Y] columns of its block,
    whether or not Y has that many columns, on the rows of Y that the K loop
    reaches. *)
Lemma elem_of_y_touched dev x_ptr y_ptr pid o :
  o ∈ y_touched p dev x_ptr y_ptr pid ↔
  ∃ t j, j < p.(BLOCK_SIZE_Y) ∧ t < p.(y_rows) ∧
         t < tl.cdiv p.(x_cols) p.(BLOCK_SIZE_K) * p.(BLOCK_SIZE_K) ∧
         o = t * p.(y_cols) + (pid.2 * p.(BLOCK_SIZE_Y) + j).
Proof.
  unfold y_touched. rewrite list_elem_of_bind. split.
  - intros (k & Hin & Hk%elem_of_seq).
    rewrite state_at_tab2 in Hin by done. cbn [y_ptrs] in Hin.
    rewrite y_load_mask_tab2 in Hin.
    apply elem_of_touched2_tab2 in Hin as (kk & j & Hkk & Hj & Hm & ->).
    apply Nat.ltb_lt in Hm.
    exists (kk + k * p.(BLOCK_SIZE_K)), j. split_and!; [done|lia| |ring].
    simpl in Hk.
    assert ((k + 1) * p.(BLOCK_SIZE_K)
            ≤ tl.cdiv p.(x_cols) p.(BLOCK_SIZE_K) * p.(BLOCK_SIZE_K))
      by (apply Nat.mul_le_mono_r; lia).
    lia.
  - intros (t & j & Hj & Ht & Hreach & ->).
    pose proof (offset_in_block p.(BLOCK_SIZE_K) t HBK) as Hblk.
    exists (t / p.(BLOCK_SIZE_K)). split.
    + rewrite state_at_tab2 by done. cbn [y_ptrs].
      rewrite y_load_mask_tab2. apply elem_of_touched2_tab2.
      exists (t - t / p.(BLOCK_SIZE_K) * p.(BLOCK_SIZE_K)), j.
      rewrite Nat.mul_assoc.
      set (b := t / p.(BLOCK_SIZE_K) * p.(BLOCK_SIZE_K)) in *. clearbody b.
      split_and!; [lia|done| |].
      * apply Nat.ltb_lt. lia.
      * replace t with (t - b + b) at 1 by lia. ring.
    + apply elem_of_seq. split; [lia|]. simpl.
      apply Nat.Div0.div_lt_upper_bound. lia.
Qed.

Lemma y_loads_in_bounds_aligned dev x_ptr y_ptr pid :
  p.(y_cols) mod p.(BLOCK_SIZE_Y) = 0 → pid ∈ matmul_grid p →
  in_bounds (p.(y_rows) * p.(y_cols)) (y_touched p dev x_ptr y_ptr pid).
Proof.
  intros Hal [_ Hpid]%elem_of_grid2 o
    (t & j & Hj & Ht & _ & ->)%elem_of_y_touched.
  pose proof (cdiv_pred_lt _ _ _ HBY Hpid) as Hlt.
  pose proof (Nat.div_mod_eq p.(y_cols) p.(BLOCK_SIZE_Y)) as Hdm.
  rewrite Hal in Hdm.
  set (q := p.(y_cols) / p.(BLOCK_SIZE_Y)) in *. clearbody q.
  assert (pid.2 < q) as Hq.
  { destruct (decide (pid.2 < q)); [done|].
    assert (q * p.(BLOCK_SIZE_Y) ≤ pid.2 * p.(BLOCK_SIZE_Y))
      by (apply Nat.mul_le_mono_r; lia). lia. }
  assert ((pid.2 + 1) * p.(BLOCK_SIZE_Y) ≤ q * p.(BLOCK_SIZE_Y))
    by (apply Nat.mul_le_mono_r; lia).
  assert (pid.2 * p.(BLOCK_SIZE_Y) + j < p.(y_cols)) as Hcol by lia.
  assert ((t + 1) * p.(y_cols) ≤ p.(y_rows) * p.(y_cols))
    by (apply Nat.mul_le_mono_r; lia).
  lia.
Qed.

Lemma y_loads_out_of_bounds_misaligned dev x_ptr y_ptr :
  p.(y_cols) mod p.(BLOCK_SIZE_Y) ≠ 0 → 0 < p.(BLOCK_SIZE_X) →
  0 < p.(x_rows) → 0 < p.(y_rows) → p.(y_rows) ≤ p.(x_cols) →
  ∃ pid o, pid ∈ matmul_grid p ∧ o ∈ y_touched p dev x_ptr y_ptr pid ∧
           p.(y_rows) * p.(y_cols) ≤ o.
Proof.
  intros Hal HBX Hxr Hyr Hle.
  assert (0 < p.(y_cols)) as Hc.
  { destruct (decide (p.(y_cols) = 0)) as [Hz|]; [exfalso|lia].
    rewrite Hz in Hal. by rewrite Nat.Div0.mod_0_l in Hal. }
  pose proof (cdiv_covers p.(y_cols) p.(BLOCK_SIZE_Y) HBY) as Hcov.
  pose proof (cdiv_covers p.(x_cols) p.(BLOCK_SIZE_K) HBK) as Hcovk.
  assert (tl.cdiv p.(y_cols) p.(BLOCK_SIZE_Y) * p.(BLOCK_SIZE_Y) ≠ p.(y_cols))
    as Hne.
  { intros Heq. apply Hal. rewrite <- Heq. apply Nat.Div0.mod_mul. }
  set (g := tl.cdiv p.(y_cols) p.(BLOCK_SIZE_Y)) in *.
  assert (0 < g) as Hg by (destruct g; simpl in *; lia).
  exists (0, g - 1),
    ((p.(y_rows) - 1) * p.(y_cols)
     + ((g - 1) * p.(BLOCK_SIZE_Y) + (p.(BLOCK_SIZE_Y) - 1))).
  split_and!.
  - apply elem_of_grid2. simpl. fold g. split; [|lia].
    pose proof (div_lt_cdiv 0 p.(x_rows) p.(BLOCK_SIZE_X) HBX Hxr) as Hx.
    rewrite Nat.Div0.div_0_l in Hx. done.
  - apply elem_of_y_touched. exists (p.(y_rows) - 1), (p.(BLOCK_SIZE_Y) - 1).
    simpl. split_and!; [lia|lia|lia|done].
  - clearbody g. nia.
Qed.

End tiled_y_loads.

(** X22: the tiled kernel relies on [y_cols] being a multiple of
    [BLOCK_SIZE_Y].  With positive block sizes, [x_rows > 0] and
    [0 < y_rows <= x_cols], the loads of Y of every cell of the grid stay
    inside Y exactly when [BLOCK_SIZE_Y] divides [y_cols]. *)
Theorem tiled_y_loads_in_bounds_iff_aligned (T : Type) (A : Arith T)
    (E : ExactArith T) (p : TiledMatmul.kernel_args) (dev : device T)
    (x_ptr y_ptr : list T) :
  0 < p.(TiledMatmul.BLOCK_SIZE_X) → 0 < p.(TiledMatmul.BLOCK_SIZE_Y) →
  0 < p.(TiledMatmul.BLOCK_SIZE_K) →
  0 < p.(TiledMatmul.x_rows) → 0 < p.(TiledMatmul.y_rows) →
  p.(TiledMatmul.y_rows) ≤ p.(TiledMatmul.x_cols) →
  (∀ pid, pid ∈ TiledMatmul.matmul_grid p →
     in_bounds (p.(TiledMatmul.y_rows) * p.(TiledMatmul.y_cols))
               (TiledMatmul.y_touched p dev x_ptr y_ptr pid))
  ↔ p.(TiledMatmul.y_cols) mod p.(TiledMatmul.BLOCK_SIZE_Y) = 0.
Proof.
  intros HBX HBY HBK Hxr Hyr Hle. split.
  - intros Hin.
    destruct (decide (p.(TiledMatmul.y_cols) mod p.(TiledMatmul.BLOCK_SIZE_Y)
                      = 0)) as [|Hne]; [done|].
    destruct (y_loads_out_of_bounds_misaligned p HBY HBK dev x_ptr y_ptr
                Hne HBX Hxr Hyr Hle) as (pid & o & Hpid & Ho & Hge).
    specialize (Hin pid Hpid o Ho). lia.
  - intros Hal pid Hpid. by apply y_loads_in_bounds_aligned.
Qed.

Lemma tiled_y_loads_in_bounds_iff_aligned_witness :
  (0 < 16 ∧ 0 < 16 ∧ 0 < 32 ∧ 0 < 4 ∧ 0 < 3 ∧ 3 ≤ 3) ∧
  ((∀ pid, pid ∈ TiledMatmul.matmul_grid
                    (TiledMatmul.KernelArgs 4 3 3 2 16 16 32) →
      in_bounds (3 * 2)
        (@TiledMatmul.y_touched Z (Z_arith (λ _ v, v))
           (TiledMatmul.KernelArgs 4 3 3 2 16 16 32) (Z_device 0)
           (t_data (arange_tensor float32 4 3))
           (t_data (arange_tensor float32 3 2)) pid))
   ↔ 2 mod 16 = 0).
Proof.
  split; [lia|].
  exact (tiled_y_loads_in_bounds_iff_aligned Z (Z_arith (λ _ v, v))
           (Z_exact _) (TiledMatmul.KernelArgs 4 3 3 2 16 16 32) (Z_device 0)
           (t_data (arange_tensor float32 4 3))
           (t_data (arange_tensor float32 3 2))
           ltac:(simpl; lia) ltac:(simpl; lia) ltac:(simpl; lia)
           ltac:(simpl; lia) ltac:(simpl; lia) ltac:(simpl; lia)).
Defined.

Section k_invariant.
Import TiledMatmul.
Context {T : Type} `{ExactArith T}.

Lemma partial_sum_dot_upto BX BY BK dev (X Y : tensor T) pid n i j :
  well_formed X → well_formed Y →
  pid.1 * BX + i < t_rows X → pid.2 * BY + j < t_cols Y →
  partial_sum
    (KernelArgs (t_rows X) (t_cols X) (t_rows Y) (t_cols Y) BX BY BK)
    dev (t_data X) (t_data Y) pid n i j
  = Reference.dot_product X Y (n `min` (t_cols X `min` t_rows Y))
      (pid.1 * BX + i) (pid.2 * BY + j).
Proof.
  intros HX HY Hrow Hcol. unfold partial_sum, Reference.dot_product.
  set (m := n `min` (t_cols X `min` t_rows Y)).
  replace n with (m + (n - m)) at 1 by lia.
  rewrite seq_app, foldl_app. simpl.
  rewrite (foldl_tadd_zero _ (seq m (n - m))).
  - apply foldl_tadd_ext. intros t [_ Ht]%elem_of_seq. simpl in Ht.
    unfold lane_a, lane_b. simpl.
    destruct (Nat.ltb_spec t (t_cols X)); [|lia].
    destruct (Nat.ltb_spec t (t_rows Y)); [|lia].
    unfold tl.read, tget. f_equal.
    + replace (pid.1 * BX * t_cols X + i * t_cols X + t)
        with ((pid.1 * BX + i) * t_cols X + t) by ring.
      destruct (lookup_lt_is_Some_2 (t_data X)
                  ((pid.1 * BX + i) * t_cols X + t))
        as [v ->]; [unfold well_formed in HX; nia|done].
    + destruct (lookup_lt_is_Some_2 (t_data Y)
                  (t * t_cols Y + (pid.2 * BY + j)))
        as [v ->]; [unfold well_formed in HY; nia|done].
  - intros t [Ht Ht']%elem_of_seq. unfold lane_a, lane_b. simpl.
    destruct (Nat.ltb_spec t (t_cols X)); [|by rewrite tmul_0_l].
    destruct (Nat.ltb_spec t (t_rows Y)); [lia|by rewrite tmul_0_r].
Qed.

End k_invariant.

(** X23: the invariant of the K loop.  On entry to iteration [k], lane
    [(i, kk)] of [x_ptrs] addresses [X[x_pid * BX + i, k * BK + kk]], lane
    [(kk, j)] of [y_ptrs] addresses [Y[k * BK + kk, y_pid * BY + j]], and, for
    a row and a column inside the output, the accumulator holds the dot
    product over the first [min(k * BK, x_cols, y_rows)] inner entries. *)
Theorem tiled_k_loop_invariant (T : Type) (A : Arith T) (E : ExactArith T)
    (BX BY BK : nat) (dev : device T) (X Y : tensor T) (pid : nat * nat)
    (k i j kk : nat) :
  0 < BK → well_formed X → well_formed Y →
  i < BX → j < BY → kk < BK →
  pid.1 * BX + i < t_rows X → pid.2 * BY + j < t_cols Y →
  let p := TiledMatmul.KernelArgs (t_rows X) (t_cols X) (t_rows Y) (t_cols Y)
             BX BY BK in
  let st := TiledMatmul.state_at p dev (t_data X) (t_data Y) pid k in
  (TiledMatmul.x_ptrs st !! i ≫= λ row, row !! kk)
  = Some ((pid.1 * BX + i) * t_cols X + (k * BK + kk)) ∧
  (TiledMatmul.y_ptrs st !! kk ≫= λ row, row !! j)
  = Some ((k * BK + kk) * t_cols Y + (pid.2 * BY + j)) ∧
  tl.at2 (TiledMatmul.accumulator st) i j
  = Reference.dot_product X Y ((k * BK) `min` (t_cols X `min` t_rows Y))
      (pid.1 * BX + i) (pid.2 * BY + j).
Proof.
  intros HBK HX HY Hi Hj Hkk Hrow Hcol p st. subst st.
  rewrite (state_at_tab2 p) by done.
  cbn [TiledMatmul.x_ptrs TiledMatmul.y_ptrs TiledMatmul.accumulator].
  subst p. cbn [TiledMatmul.BLOCK_SIZE_X TiledMatmul.BLOCK_SIZE_Y
                TiledMatmul.BLOCK_SIZE_K TiledMatmul.x_cols TiledMatmul.y_cols].
  split_and!.
  - rewrite tab2_lookup by done. simpl. rewrite lookup_tab by done.
    f_equal. ring.
  - rewrite tab2_lookup by done. simpl. rewrite lookup_tab by done.
    f_equal. ring.
  - rewrite at2_tab2 by done. by apply partial_sum_dot_upto.
Qed.

Lemma tiled_k_loop_invariant_witness :
  (0 < 2 ∧ well_formed (arange_tensor float32 4 3) ∧
   well_formed (arange_tensor float32 3 2) ∧
   1 < 2 ∧ 1 < 2 ∧ 0 < 2 ∧ (1, 0).1 * 2 + 1 < 4 ∧ (1, 0).2 * 2 + 1 < 2) ∧
  @tl.at2 Z (Z_arith (λ _ v, v))
    (TiledMatmul.accumulator
       (@TiledMatmul.state_at Z (Z_arith (λ _ v, v))
          (TiledMatmul.KernelArgs 4 3 3 2 2 2 2) (Z_device 0)
          (t_data (arange_tensor float32 4 3))
          (t_data (arange_tensor float32 3 2)) (1, 0) 1)) 1 1
  = @Reference.dot_product Z (Z_arith (λ _ v, v))
      (arange_tensor float32 4 3) (arange_tensor float32 3 2)
      ((1 * 2) `min` (3 `min` 3)) ((1, 0).1 * 2 + 1) ((1, 0).2 * 2 + 1).
Proof.
  split; [split_and!; (reflexivity || (simpl; lia))|].
  exact (proj2 (proj2
           (tiled_k_loop_invariant Z (Z_arith (λ _ v, v)) (Z_exact _) 2 2 2
              (Z_device 0) (arange_tensor float32 4 3)
              (arange_tensor float32 3 2) (1, 0) 1 1 1 0
              ltac:(lia) eq_refl eq_refl ltac:(lia) ltac:(lia) ltac:(lia)
              ltac:(simpl; lia) ltac:(simpl; lia)))).
Defined.

(* ================================================================== *)
(** * The two matmuls agree *)

(** X24: the two matmul implementations agree on every input with an inner
    extent.  For all well-formed X with at least one column and Y, equal
    inner extents or not, and whatever the unspecified memory holds, the
    tiled [matmul] returns the tensor the row-times-column [matmul] returns
    with every entry cast to [float16]. *)
Theorem tiled_matmul_is_cast_of_naive (T : Type) (A : Arith T)
    (E : ExactArith T) (dev dev' : device T) (X Y : tensor T) :
  well_formed X → well_formed Y → 0 < t_cols X →
  ∃ out, NaiveMatmul.matmul dev X Y = Returned out ∧
         TiledMatmul.matmul dev' X Y
         = Returned (Tensor (t_dtype out) (t_rows out) (t_cols out)
                       (tcast float16 <$> t_data out)).
Proof.
  intros HX HY Hc. eexists. split; [by apply naive_matmul_returns|].
  unfold TiledMatmul.matmul. by rewrite tiled_matmul_returns by (done || lia).
Qed.

Lemma tiled_matmul_is_cast_of_naive_witness :
  (well_formed (arange_tensor float32 2 3) ∧
   well_formed (arange_tensor float32 2 2) ∧
   0 < t_cols (arange_tensor float32 2 3)) ∧
  ∃ out, @NaiveMatmul.matmul Z (Z_arith (λ _ v, v)) (Z_device 0)
           (arange_tensor float32 2 3) (arange_tensor float32 2 2)
         = Returned out ∧
         @TiledMatmul.matmul Z (Z_arith (λ _ v, v)) (Z_device 7)
           (arange_tensor float32 2 3) (arange_tensor float32 2 2)
         = Returned (Tensor (t_dtype out) (t_rows out) (t_cols out)
                       ((λ v, v) <$> t_data out)).
Proof.
  split; [split_and!; [reflexivity|reflexivity|simpl; lia]|].
  exact (tiled_matmul_is_cast_of_naive Z (Z_arith (λ _ v, v)) (Z_exact _)
           (Z_device 0) (Z_device 7)
           (arange_tensor float32 2 3) (arange_tensor float32 2 2)
           eq_refl eq_refl ltac:(simpl; lia)).
Defined.
